(** * neoshell: the image codec and the sandbox launchers

    A shallow embedding of the parts of the neoshell repository that its
    specification makes claims about, and the properties proved of them.

    The program comes first.
    - [WaitStatus]: the wait-status words the two launchers decode;
    - [Proc]: a process talking to a kernel, as a small monad with an
      explicit system-call trace;
    - [Sandbox]: [nsi-sandbox], the unshare/fork launcher of
      [src/sandbox/main.cpp], and the vocabulary for the stages of a run;
    - [Launcher]: the clone-based launcher of [src/container_launcher.cpp];
    - [LibRun], [CliRunArgs]: how [lib/run.js] and the [run] command start
      them;
    - [Buf], [Json], [Fs]: Node buffers, [JSON.parse] and
      [JSON.stringify], the files a writer touches;
    - [Image]: [createNsiImage], [readNsiImage] and [extractNsiPayload] of
      [lib/image.js];
    - [CliBuild], [CliRun]: the image writer of the [build] command and
      the image loader of the [run] command;
    - [LibRunArgs], [LibBuild]: the arguments [lib/run.js] builds for the
      clone-based launcher, the copy filter and the header template of
      [lib/build.js].

    Its properties follow.
    - [ProcTheory], [SandboxTheory], [SandboxEnv], [SandboxEnvTheory],
      [WaitStatusTheory]: runs taken apart call by call, the environment
      [nsi-sandbox] builds, the status words;
    - [LauncherClaims]: the order of the stages, the environment of the
      command, the exit code;
    - [BufTheory], [JsonTheory], [ImageTheory], [CreateTheory]: 32-bit
      words and slices, [JSON.parse] after [JSON.stringify], the reader
      whatever the chunks, the writer step by step;
    - [OpenClaims], [WriteClaims], [RoundTrip], [LoadClaims]: what is
      rejected on opening, what a writer leaves behind, the round trip,
      the digest check;
    - [SandboxRuns], [LauncherRuns], [LibRunTheory]: every run of the two
      launchers, the failing ones too, and [lib/run.js] with its launcher;
    - [OpenRuns], [CreateRuns], [Interop], [BuildFilter]: what is accepted
      on opening and when, what a failed writer leaves behind, each tool
      chain on the other's images, the copy filter.

    Strings are Rocq strings (sequences of 8-bit characters), C [int]s are
    [Z], a [long long] is a [Z] kept in its 64 bits, std::map is a [gmap]
    whose iteration order is restored by sorting on the keys, buffers are
    lists of bytes. The [envp] of [execve] is a list of pointers, each
    valid or dangling. tar-fs, zlib and the SHA-256 of [crypto] are
    parameters. *)

From Stdlib Require Import ZArith NArith Lia Ascii String.
From Stdlib Require Import Strings.Byte.
From stdpp Require Import base option list sorting gmap strings pretty fin_maps.

Open Scope string_scope.
Open Scope list_scope.
Open Scope Z_scope.

(** * The program *)

(* ===================================================================== *)
(** ** Wait statuses *)
(* ===================================================================== *)

Module WaitStatus.

(** The status word [waitpid] stores, with the decoding macros of
    <sys/wait.h> as Linux defines them. The macros are not part of the
    repository; both launchers use them. *)

Definition WEXITSTATUS (status : Z) : Z :=
  Z.shiftr (Z.land status 65280) 8.

Definition WTERMSIG (status : Z) : Z :=
  Z.land status 127.

Definition WIFEXITED (status : Z) : bool :=
  WTERMSIG status =? 0.

(** [((signed char) ((status & 0x7f) + 1) >> 1) > 0]: the low seven bits
    are neither 0 (exited) nor 0x7f (stopped). *)
Definition WIFSIGNALED (status : Z) : bool :=
  let t := Z.land status 127 + 1 in
  let sc := if 128 <=? t then t - 256 else t in
  0 <? Z.shiftr sc 1.

(** The words the kernel builds: a normal exit with code [k], and a death
    by signal [s], with or without a core dump. *)
Definition exited (k : Z) : Z := Z.shiftl (Z.land k 255) 8.

Definition signaled (s : Z) (core : bool) : Z :=
  Z.lor s (if core then 128 else 0).

Definition SIGTERM : Z := 15.
Definition SIGKILL : Z := 9.

End WaitStatus.

(* ===================================================================== *)
(** ** A process and its kernel *)
(* ===================================================================== *)

Module Proc.

Inductive clone_flag :=
| CLONE_NEWUSER | CLONE_NEWPID | CLONE_NEWNS | CLONE_NEWUTS
| CLONE_NEWIPC | CLONE_NEWCGROUP | SIGCHLD.

Inductive open_flag := O_WRONLY | O_TRUNC.

Inductive mount_flag :=
| MS_REC | MS_PRIVATE | MS_BIND | MS_NOSUID | MS_NODEV | MS_NOEXEC
| MS_RDONLY | MS_STRICTATIME.

Inductive umount_flag := MNT_DETACH.

(** An element of the [envp] array of [execve]: a pointer to the
    characters of a string. [Dangling s] is a pointer that was taken to
    the characters of [s] and whose storage has been freed since; what
    [execve] finds there is not determined by the program. *)
Inductive env_ptr :=
| Valid (s : string)
| Dangling (was : string).

(** The string a pointer was taken to. *)
Definition pointee (p : env_ptr) : string :=
  match p with
  | Valid s => s
  | Dangling s => s
  end.

(** The calls the launchers make. Flag words are kept as the list of the
    flags or-ed together, a NULL string argument as [None]. *)
Inductive syscall :=
| SysStat (path : string)
| SysGetuid
| SysGetgid
| SysGetpid
| SysUnshare (flags : list clone_flag)
| SysClone (flags : list clone_flag)
| SysFork
| SysWaitpid (pid : Z)
| SysOpen (path : string) (flags : list open_flag)
| SysWrite (fd : Z) (data : string)
| SysClose (fd : Z)
| SysMkdir (path : string) (mode : Z)
| SysRmdir (path : string)
| SysMount (source : option string) (target : string)
    (fstype : option string) (flags : list mount_flag) (data : option string)
| SysUmount2 (target : string) (flags : list umount_flag)
| SysPivotRoot (new_root put_old : string)
| SysChroot (path : string)
| SysChdir (path : string)
| SysSethostname (name : string)
| SysSetrlimitAS (cur max : Z)
| SysClearenv
| SysExecve (path : string) (argv : list string) (envp : list env_ptr).

(** What the kernel answers: the return value, [errno] when the call
    failed, and the word written through an out pointer ([waitpid]'s status,
    [stat]'s [st_mode]). *)
Record reply := Reply { rv : Z; rerrno : Z; rout : Z }.

Definition EEXIST : Z := 17.
Definition EINVAL : Z := 22.
Definition EXIT_FAILURE : Z := 1.

(** [S_ISDIR]: [(mode & S_IFMT) == S_IFDIR]. *)
Definition S_ISDIR (mode : Z) : bool := Z.land mode 61440 =? 16384.

(** How a run of a process ends: the function returned, the process called
    [exit], or [execve] replaced the process image. *)
Inductive outcome (A : Type) :=
| Ret (a : A)
| Exited (code : Z)
| Replaced (path : string) (argv : list string) (envp : list env_ptr).
Arguments Ret {A} a.
Arguments Exited {A} code.
Arguments Replaced {A} path argv envp.

Section WithKernel.

(** The kernel is any function from a call and the state of the world to an
    answer and a new state: every theorem below holds for all of them. *)
Context {world : Type}.
Variable kernel : syscall -> world -> reply * world.

(** A process state is the world it runs in and its environment (the
    [environ] array, as KEY=VALUE strings). A computation returns how it
    ended, the new state and the calls it made, oldest first. *)
Record proc := Process { p_world : world; p_environ : list string }.

Definition M (A : Type) : Type := proc -> outcome A * proc * list syscall.

Definition ret {A} (a : A) : M A := fun st => (Ret a, st, []).

Definition bind {A B} (m : M A) (f : A -> M B) : M B :=
  fun st =>
    match m st with
    | (Ret a, st1, t1) => let '(o, st2, t2) := f a st1 in (o, st2, t1 ++ t2)
    | (Exited c, st1, t1) => (Exited c, st1, t1)
    | (Replaced p a e, st1, t1) => (Replaced p a e, st1, t1)
    end.

Definition sys (c : syscall) : M reply :=
  fun st =>
    let '(r, w') := kernel c (p_world st) in
    (Ret r, {| p_world := w'; p_environ := p_environ st |}, [c]).

Definition exit {A} (code : Z) : M A := fun st => (Exited code, st, []).

(** [die]: print the message and [exit(EXIT_FAILURE)]. *)
Definition die {A} : M A := exit EXIT_FAILURE.

Definition get_environ : M (list string) :=
  fun st => (Ret (p_environ st), st, []).

(** [clearenv()]. *)
Definition clearenv : M unit :=
  fun st => (Ret tt, {| p_world := p_world st; p_environ := [] |}, [SysClearenv]).

(** [execve]: returns (with -1) only when the kernel refuses it. *)
Definition execve (path : string) (argv : list string) (envp : list env_ptr)
  : M Z :=
  fun st =>
    let '(r, w') := kernel (SysExecve path argv envp) (p_world st) in
    let st' := {| p_world := w'; p_environ := p_environ st |} in
    if rv r =? -1 then (Ret (-1), st', [SysExecve path argv envp])
    else (Replaced path argv envp, st', [SysExecve path argv envp]).

(** [execv]: [execve] with [environ], the environment of the calling
    process, whose strings are in place. *)
Definition execv (path : string) (argv : list string) : M Z :=
  bind get_environ (fun env => execve path argv (Valid <$> env)).

Definition run {A} (m : M A) (w : world) (env : list string)
  : outcome A * list syscall :=
  let '(o, _, t) := m {| p_world := w; p_environ := env |} in (o, t).

End WithKernel.

Arguments proc : clear implicits.
Arguments M : clear implicits.

Declare Scope proc_scope.
Delimit Scope proc_scope with proc.
Notation "x <- m ;; k" := (bind m (fun x => k))
  (at level 100, m at next level, right associativity) : proc_scope.
Notation "m ;; k" := (bind m (fun _ => k))
  (at level 100, right associativity) : proc_scope.

End Proc.

(* ===================================================================== *)
(** ** std::string helpers *)
(* ===================================================================== *)

Module Str.

(** [s.find(c)]: the index of the first [c], [None] for [npos]. *)
Fixpoint find (c : ascii) (s : string) : option nat :=
  match s with
  | EmptyString => None
  | String a s' => if decide (a = c) then Some 0%nat else S <$> find c s'
  end.

(** [s.substr(0, n)]. *)
Fixpoint prefix (n : nat) (s : string) : string :=
  match n, s with
  | S n', String a s' => String a (prefix n' s')
  | _, _ => EmptyString
  end.

(** [s.substr(n)], for [n] within the string. *)
Fixpoint suffix (n : nat) (s : string) : string :=
  match n, s with
  | S n', String _ s' => suffix n' s'
  | _, _ => s
  end.

Definition substr (pos len : nat) (s : string) : string := prefix len (suffix pos s).

Definition is_empty (s : string) : bool := bool_decide (s = "").

End Str.

(* ===================================================================== *)
(** ** nsi-sandbox: src/sandbox/main.cpp *)
(* ===================================================================== *)

Module Sandbox.
Import Proc.
Import WaitStatus.

Record Args := MkArgs {
  rootfs : string;
  workdir : string;
  cgroup_id : string;
  mem_limit : string;
  cmd : list string;
  env_vars : gmap string string
}.

Definition no_args : Args :=
  {| rootfs := ""; workdir := ""; cgroup_id := ""; mem_limit := "";
     cmd := []; env_vars := ∅ |}.

Definition set_rootfs (v : string) (a : Args) : Args :=
  {| rootfs := v; workdir := workdir a; cgroup_id := cgroup_id a;
     mem_limit := mem_limit a; cmd := cmd a; env_vars := env_vars a |}.
Definition set_workdir (v : string) (a : Args) : Args :=
  {| rootfs := rootfs a; workdir := v; cgroup_id := cgroup_id a;
     mem_limit := mem_limit a; cmd := cmd a; env_vars := env_vars a |}.
Definition set_cgroup_id (v : string) (a : Args) : Args :=
  {| rootfs := rootfs a; workdir := workdir a; cgroup_id := v;
     mem_limit := mem_limit a; cmd := cmd a; env_vars := env_vars a |}.
Definition set_mem_limit (v : string) (a : Args) : Args :=
  {| rootfs := rootfs a; workdir := workdir a; cgroup_id := cgroup_id a;
     mem_limit := v; cmd := cmd a; env_vars := env_vars a |}.
Definition set_cmd (v : list string) (a : Args) : Args :=
  {| rootfs := rootfs a; workdir := workdir a; cgroup_id := cgroup_id a;
     mem_limit := mem_limit a; cmd := v; env_vars := env_vars a |}.
Definition set_env_vars (v : gmap string string) (a : Args) : Args :=
  {| rootfs := rootfs a; workdir := workdir a; cgroup_id := cgroup_id a;
     mem_limit := mem_limit a; cmd := cmd a; env_vars := v |}.

(** The body of [case 'e']: split [optarg] at its first '='; an entry
    without '=' or with an empty key is ignored with a warning. *)
Definition add_env (env_pair : string) (m : gmap string string)
  : gmap string string :=
  match Str.find "=" env_pair with
  | Some eq_pos =>
      if (0 <? eq_pos)%nat
      then <[Str.substr 0 eq_pos env_pair := Str.suffix (eq_pos + 1) env_pair]> m
      else m
  | None => m
  end.

(** One turn of the [getopt_long] loop. [getopt_long] itself is libc: the
    model receives what it yields, the option character with its [optarg],
    and afterwards the operands left at [optind]. [None] is the usage
    message followed by [exit(EXIT_FAILURE)] (case '?' and default). *)
Definition parse_opt (a : Args) (o : ascii * string) : option Args :=
  let '(opt, optarg) := o in
  if decide (opt = "r"%char) then Some (set_rootfs optarg a)
  else if decide (opt = "w"%char) then Some (set_workdir optarg a)
  else if decide (opt = "m"%char) then Some (set_mem_limit optarg a)
  else if decide (opt = "g"%char) then Some (set_cgroup_id optarg a)
  else if decide (opt = "e"%char)
       then Some (set_env_vars (add_env optarg (env_vars a)) a)
  else None.

Fixpoint parse_opts (a : Args) (opts : list (ascii * string)) : option Args :=
  match opts with
  | [] => Some a
  | o :: opts' =>
      match parse_opt a o with
      | Some a' => parse_opts a' opts'
      | None => None
      end
  end.

(** [std::map] iterates in key order; keys compare as byte strings. *)
Definition map_entries (m : gmap string string) : list (string * string) :=
  merge_sort (fun a b => String.le a.1 b.1) (map_to_list m).

Definition env_entry (kv : string * string) : string :=
  kv.1 +:+ "=" +:+ kv.2.

Definition DEFAULT_PATH : string :=
  "PATH=/usr/local/sbin:/usr/local/bin:/usr/sbin:/usr/bin:/sbin:/bin".

(** The strings that lines 661-676 of [main] push onto [env_storage], in
    this order. *)
Definition env_strings (env_vars : gmap string string) (hostname : string)
  : list string :=
  (env_entry <$> map_entries env_vars)
  ++ (if decide (env_vars !! "PATH" = None) then [DEFAULT_PATH] else [])
  ++ ["NEOSHELL_CONTAINER=true"; "HOSTNAME=" +:+ hostname].

(** [env_storage] is a [std::vector<std::string>], and after each
    [push_back] the pointer [env_storage.back().c_str()] goes into [envp].
    A [push_back] onto a full vector moves the strings to new storage and
    frees the old one. With libstdc++, the library of the g++ build, a
    string of at most 15 characters has its characters inside the string
    object, that is, inside the storage of the vector: after such a move
    the pointers taken before it to these strings point into freed
    memory. A longer string keeps its buffer when it is moved. The vector
    is static, [main] runs once, so it starts with no capacity; a full
    vector of capacity [c] grows to [max(1, 2c)]. *)
Definition SSO_CAPACITY : nat := 15.

Definition is_local (s : string) : bool :=
  (String.length s <=? SSO_CAPACITY)%nat.

(** What a reallocation of [env_storage] does to a pointer in [envp]. *)
Definition after_move (p : env_ptr) : env_ptr :=
  match p with
  | Valid s => if is_local s then Dangling s else Valid s
  | Dangling s => Dangling s
  end.

Record env_vectors := EnvVectors {
  storage_capacity : nat;   (* env_storage.capacity() *)
  storage_size : nat;       (* env_storage.size() *)
  envp_of : list env_ptr    (* envp, without the final nullptr *)
}.

(** [env_storage.push_back(s); envp.push_back(env_storage.back().c_str())]. *)
Definition push_back (v : env_vectors) (s : string) : env_vectors :=
  if (storage_size v <? storage_capacity v)%nat
  then {| storage_capacity := storage_capacity v;
          storage_size := S (storage_size v);
          envp_of := envp_of v ++ [Valid s] |}
  else {| storage_capacity := Nat.max 1 (2 * storage_capacity v);
          storage_size := S (storage_size v);
          envp_of := (after_move <$> envp_of v) ++ [Valid s] |}.

(** The [envp] vector assembled before [execve]. *)
Definition build_envp (env_vars : gmap string string) (hostname : string)
  : list env_ptr :=
  envp_of (foldl push_back
             {| storage_capacity := 0; storage_size := 0; envp_of := [] |}
             (env_strings env_vars hostname)).

Section WithKernel.
Context {world : Type}.
Variable kernel : syscall -> world -> reply * world.
Local Open Scope proc_scope.

Local Abbreviation sys := (sys kernel).
Local Abbreviation M := (M world).

(** [parse_args], from the options and operands [getopt_long] found. *)
Definition parse_args (opts : list (ascii * string)) (operands : list string)
  : M Args :=
  match parse_opts no_args opts with
  | None => exit EXIT_FAILURE
  | Some a =>
      if bool_decide (operands = []) then die else
      let a := set_cmd operands a in
      if Str.is_empty (rootfs a) then die else
      if bool_decide (cmd a = []) then die else
      if Str.is_empty (cgroup_id a) then die else
      let a := if Str.is_empty (workdir a) then set_workdir "/" a else a in
      st <- sys (SysStat (rootfs a)) ;;
      if negb (rv st =? 0) || negb (S_ISDIR (rout st)) then die else ret a
  end.

Definition setup_user_namespace_mappings : M unit :=
  host_uid <- sys SysGetuid ;;
  host_gid <- sys SysGetgid ;;
  fd <- sys (SysOpen "/proc/self/setgroups" [O_WRONLY]) ;;
  (if 0 <=? rv fd
   then sys (SysWrite (rv fd) "deny") ;; sys (SysClose (rv fd)) ;; ret tt
   else ret tt) ;;
  fd <- sys (SysOpen "/proc/self/uid_map" [O_WRONLY]) ;;
  if rv fd =? -1 then die else
  w <- sys (SysWrite (rv fd) ("0 " +:+ pretty (rv host_uid) +:+ " 1")) ;;
  if rv w =? -1 then die else
  sys (SysClose (rv fd)) ;;
  fd <- sys (SysOpen "/proc/self/gid_map" [O_WRONLY]) ;;
  if rv fd =? -1 then die else
  w <- sys (SysWrite (rv fd) ("0 " +:+ pretty (rv host_gid) +:+ " 1")) ;;
  if rv w =? -1 then die else
  sys (SysClose (rv fd)) ;;
  ret tt.

Definition cgroup_base : string := "/sys/fs/cgroup".

Definition cgroup_path (args : Args) : string :=
  cgroup_base +:+ "/neoshell/" +:+ cgroup_id args.

(** Every failure in [setup_cgroups] is a warning. *)
Definition setup_cgroups (args : Args) : M unit :=
  sys (SysMkdir (cgroup_base +:+ "/neoshell") 493) ;;
  sys (SysMkdir (cgroup_path args) 493) ;;
  (if negb (Str.is_empty (mem_limit args))
   then fd <- sys (SysOpen (cgroup_path args +:+ "/memory.max") [O_WRONLY; O_TRUNC]) ;;
        if rv fd =? -1 then ret tt
        else sys (SysWrite (rv fd) (mem_limit args)) ;; sys (SysClose (rv fd)) ;; ret tt
   else ret tt) ;;
  fd <- sys (SysOpen (cgroup_path args +:+ "/cgroup.procs") [O_WRONLY]) ;;
  if rv fd =? -1 then ret tt
  else pid <- sys SysGetpid ;;
       sys (SysWrite (rv fd) (pretty (rv pid))) ;; sys (SysClose (rv fd)) ;; ret tt.

Definition put_old_path (args : Args) : string := rootfs args +:+ "/.old_root".

Definition setup_filesystem (args : Args) : M unit :=
  sys (SysMount None "/" None [MS_REC; MS_PRIVATE] None) ;;
  r <- sys (SysMount (Some (rootfs args)) (rootfs args) (Some "bind")
              [MS_BIND; MS_REC] None) ;;
  if rv r =? -1 then die else
  r <- sys (SysMkdir (put_old_path args) 448) ;;
  if (rv r =? -1) && negb (rerrno r =? EEXIST) then die else
  r <- sys (SysPivotRoot (rootfs args) (put_old_path args)) ;;
  if rv r =? -1 then die else
  r <- sys (SysChdir "/") ;;
  if rv r =? -1 then die else
  r <- sys (SysUmount2 "/.old_root" [MNT_DETACH]) ;;
  (if rv r =? -1 then ret tt else sys (SysRmdir "/.old_root") ;; ret tt) ;;
  r <- sys (SysMount (Some "proc") "/proc" (Some "proc")
              [MS_NOSUID; MS_NODEV; MS_NOEXEC] None) ;;
  if rv r =? -1 then die else
  r <- sys (SysMount (Some "tmpfs") "/dev" (Some "tmpfs")
              [MS_NOSUID; MS_STRICTATIME; MS_NOEXEC] (Some "mode=755,size=65536k")) ;;
  if rv r =? -1 then die else
  r <- sys (SysMount (Some "sysfs") "/sys" (Some "sysfs")
              [MS_RDONLY; MS_NOSUID; MS_NODEV; MS_NOEXEC] None) ;;
  if rv r =? -1 then die else
  ret tt.

Definition hostname_of (args : Args) : string := Str.substr 0 63 (cgroup_id args).

(** The parent after [fork]. *)
Definition parent_process (child_pid : Z) : M unit :=
  r <- sys (SysWaitpid child_pid) ;;
  if rv r =? -1 then exit EXIT_FAILURE
  else exit (WEXITSTATUS (rout r)).

(** The child after [fork]: PID 1 of the container. [cmd_argv[0]] exists
    because [parse_args] refuses an empty command. *)
Definition child_process (args : Args) : M unit :=
  setup_cgroups args ;;
  setup_filesystem args ;;
  r <- sys (SysChdir (workdir args)) ;;
  if rv r =? -1 then die else
  clearenv ;;
  r <- execve kernel (default "" (head (cmd args))) (cmd args)
         (build_envp (env_vars args) (hostname_of args)) ;;
  if r =? -1 then die else exit EXIT_FAILURE.

(** [main] once the arguments are parsed. The kernel's answer to [fork]
    says which of the two processes the run follows: 0 is the child. *)
Definition launch (args : Args) : M unit :=
  r <- sys (SysUnshare [CLONE_NEWUSER]) ;;
  if rv r =? -1 then die else
  setup_user_namespace_mappings ;;
  r <- sys (SysUnshare [CLONE_NEWPID; CLONE_NEWNS; CLONE_NEWUTS;
                        CLONE_NEWIPC; CLONE_NEWCGROUP]) ;;
  if rv r =? -1 then die else
  sys (SysSethostname (hostname_of args)) ;;
  child_pid <- sys SysFork ;;
  if rv child_pid =? -1 then die else
  if negb (rv child_pid =? 0) then parent_process (rv child_pid)
  else child_process args.

Definition main (opts : list (ascii * string)) (operands : list string) : M unit :=
  args <- parse_args opts operands ;;
  launch args.

End WithKernel.

(** *** The stages of a launch *)







Inductive old_root_calls : list syscall -> Prop :=
| old_root_removed :
    old_root_calls [SysUmount2 "/.old_root" [MNT_DETACH]; SysRmdir "/.old_root"]
| old_root_kept :
    old_root_calls [SysUmount2 "/.old_root" [MNT_DETACH]].




Definition mount_calls : list syscall :=
  [SysMount (Some "proc") "/proc" (Some "proc")
     [MS_NOSUID; MS_NODEV; MS_NOEXEC] None;
   SysMount (Some "tmpfs") "/dev" (Some "tmpfs")
     [MS_NOSUID; MS_STRICTATIME; MS_NOEXEC] (Some "mode=755,size=65536k");
   SysMount (Some "sysfs") "/sys" (Some "sysfs")
     [MS_RDONLY; MS_NOSUID; MS_NODEV; MS_NOEXEC] None].



(** What [parse_args] returns for the options and operands it is given. *)
Definition parsed (opts : list (ascii * string)) (operands : list string)
    (args : Args) : Prop :=
  exists a0,
    parse_opts no_args opts = Some a0 /\
    operands <> [] /\
    rootfs a0 <> "" /\ cgroup_id a0 <> "" /\
    args = (if Str.is_empty (workdir a0)
            then set_workdir "/" (set_cmd operands a0)
            else set_cmd operands a0).

(** *** A kernel in which every call succeeds *)

(** [fork] answers [fork_pid], [waitpid] stores [status]; [stat] reports a
    directory, [open] file descriptor 3, the identity calls 1000. *)
Definition quiet_kernel (fork_pid status : Z) (c : syscall) (w : unit)
  : reply * unit :=
  match c with
  | SysStat _ => (Reply 0 0 16877, w)
  | SysGetuid | SysGetgid => (Reply 1000 0 0, w)
  | SysGetpid => (Reply 4243 0 0, w)
  | SysOpen _ _ => (Reply 3 0 0, w)
  | SysFork | SysClone _ => (Reply fork_pid 0 0, w)
  | SysWaitpid pid => (Reply pid 0 status, w)
  | _ => (Reply 0 0 0, w)
  end.

End Sandbox.

(* ===================================================================== *)
(** ** The clone-based launcher: src/container_launcher.cpp *)
(* ===================================================================== *)

Module Launcher.
Import Proc.
Import WaitStatus.

Record child_args := MkChildArgs {
  rootfs_path : string;
  cmd_argv : list string;
  memory_limit_bytes : Z
}.

Definition container_hostname : string := "nsi-container".

(** [long long] has 64 bits. *)
Definition LLONG_MAX : Z := 9223372036854775807.
Definition LLONG_MIN : Z := -9223372036854775808.

(** A [long long] product that leaves the range wraps around. (The
    language leaves the overflow undefined; the code g++ makes for it
    multiplies modulo 2^64.) *)
Definition wrap_ll (z : Z) : Z := (z - LLONG_MIN) mod 2 ^ 64 + LLONG_MIN.

(** [atoll], which glibc computes as [strtoll(s, NULL, 10)]: white space,
    an optional sign, then decimal digits; a number outside the range of
    [long long] gives [LLONG_MAX] or [LLONG_MIN]. *)
Fixpoint skip_space (s : string) : string :=
  match s with
  | String c s' => if Ascii.is_space c then skip_space s' else s
  | EmptyString => s
  end.

Fixpoint digits (acc : Z) (s : string) : Z :=
  match s with
  | String c s' =>
      match Ascii.is_nat c with
      | Some d => digits (10 * acc + Z.of_nat d) s'
      | None => acc
      end
  | EmptyString => acc
  end.

Definition strtoll_value (s : string) : Z :=
  match skip_space s with
  | String "-" s' => - digits 0 s'
  | String "+" s' => digits 0 s'
  | s' => digits 0 s'
  end.

Definition atoll (s : string) : Z :=
  Z.max LLONG_MIN (Z.min LLONG_MAX (strtoll_value s)).

(** Lines 180-192 of [main]: the exit status made from the wait status. *)
Definition exit_status (status : Z) : Z :=
  if WIFEXITED status then WEXITSTATUS status
  else if WIFSIGNALED status then 128 + WTERMSIG status
  else 1.

Section WithKernel.
Context {world : Type}.
Variable kernel : syscall -> world -> reply * world.
Local Open Scope proc_scope.

Local Abbreviation sys := (sys kernel).
Local Abbreviation M := (M world).

(** The function the cloned child runs; its return value is the exit code
    of the child. [execv] keeps the environment of the launcher. *)
Definition child_function (args : child_args) : M Z :=
  r <- sys (SysSethostname container_hostname) ;;
  if rv r =? -1 then ret 1 else
  (if 0 <? memory_limit_bytes args
   then sys (SysSetrlimitAS (memory_limit_bytes args) (memory_limit_bytes args)) ;;
        ret tt
   else ret tt) ;;
  r <- sys (SysChroot (rootfs_path args)) ;;
  if rv r =? -1 then ret 1 else
  r <- sys (SysChdir "/") ;;
  if rv r =? -1 then ret 1 else
  sys (SysMount (Some "proc") "/proc" (Some "proc") [] None) ;;
  r <- execv kernel (default "" (head (cmd_argv args))) (cmd_argv args) ;;
  if r =? -1 then exit EXIT_FAILURE else ret 1.

(** [main]. The answer to [clone] says which process the run follows: 0 is
    the child, which runs [child_function] and exits with its result. The
    child stack ([malloc], [free]) is not modelled. *)
Definition main (argv : list string) : M unit :=
  if (length argv <? 4)%nat then exit EXIT_FAILURE else
  let rootfs_path := default "" (argv !! 1%nat) in
  let memory_limit_mb := atoll (default "" (argv !! 2%nat)) in
  let memory_limit_bytes :=
    if 0 <? memory_limit_mb
    then wrap_ll (wrap_ll (memory_limit_mb * 1024) * 1024) else 0 in
  let cmd_argv := drop 3 argv in
  let args := {| rootfs_path := rootfs_path; cmd_argv := cmd_argv;
                 memory_limit_bytes := memory_limit_bytes |} in
  child_pid <- sys (SysClone [CLONE_NEWPID; CLONE_NEWNS; CLONE_NEWUTS; SIGCHLD]) ;;
  if rv child_pid =? -1 then exit EXIT_FAILURE else
  if rv child_pid =? 0 then (c <- child_function args ;; exit c) else
  r <- sys (SysWaitpid (rv child_pid)) ;;
  if rv r =? -1 then exit EXIT_FAILURE else
  exit (exit_status (rout r)).

End WithKernel.

End Launcher.

(* ===================================================================== *)
(** ** lib/run.js: the environment handed to the clone-based launcher *)
(* ===================================================================== *)

Module LibRun.



End LibRun.

(* ===================================================================== *)
(** ** src/cli/commands/run.js: the options handed to nsi-sandbox *)
(* ===================================================================== *)

Module CliRunArgs.


Definition sandbox_opts (tempExtractPath workDir : string)
    (header_env : gmap string string) (argv_env : list string)
    (mem containerId : string) : list (ascii * string) :=
  [("r"%char, tempExtractPath); ("w"%char, workDir)]
  ++ ((fun kv => ("e"%char, Sandbox.env_entry kv)) <$> map_to_list header_env)
  ++ ((fun e => ("e"%char, e)) <$> argv_env)
  ++ [("m"%char, mem); ("g"%char, containerId)].


(** A key that survives the trip through [--env=KEY=VALUE]. *)
Definition valid_key (k : string) : Prop := k <> "" /\ Str.find "=" k = None.
#[global] Instance valid_key_dec k : Decision (valid_key k).
Proof. unfold valid_key. apply _. Defined.

End CliRunArgs.

(* ===================================================================== *)
(** ** Node Buffers *)
(* ===================================================================== *)

Module Buf.

#[global] Instance byte_eq_dec : EqDecision byte := Byte.byte_eq_dec.

Definition byte_of_N (n : N) : byte := default x00 (Byte.of_N (n mod 256)).

(** [buf.writeUInt32BE(value, 0)] on a fresh four-byte buffer; a value
    outside 0 .. 2^32-1 throws a RangeError ([None]). *)
Definition writeUInt32BE (value : N) : option (list byte) :=
  if (value <? 4294967296)%N
  then Some [byte_of_N (value / 16777216); byte_of_N (value / 65536);
             byte_of_N (value / 256); byte_of_N value]
  else None.

Definition byte_at (b : list byte) (i : nat) : N :=
  Byte.to_N (default x00 (b !! i)).

(** [buf.readUInt32BE(offset)]; the callers have checked that the four
    bytes are there. *)
Definition readUInt32BE (b : list byte) (offset : nat) : N :=
  (byte_at b offset * 16777216 + byte_at b (offset + 1) * 65536
   + byte_at b (offset + 2) * 256 + byte_at b (offset + 3))%N.

(** [buf.slice(start, end)]. *)
Definition slice (b : list byte) (start stop : N) : list byte :=
  take (N.to_nat (stop - start)) (drop (N.to_nat start) b).

(** [buf.length]. *)
Definition len (b : list byte) : N := N.of_nat (length b).

(** [Buffer.from(s, 'utf8')] and [buf.toString('utf8')]: JavaScript strings
    are kept as their UTF-8 bytes. ([toString] replaces malformed UTF-8 by
    U+FFFD; the model keeps the bytes.) *)
Definition from_string (s : string) : list byte := list_byte_of_string s.
Definition to_string (b : list byte) : string := string_of_list_byte b.

End Buf.

(* ===================================================================== *)
(** ** JSON *)
(* ===================================================================== *)

Module Json.

(** JSON values. A number is kept as its JSON text (the double it denotes
    is not modelled); a string as its UTF-8 bytes; an object as its
    properties in order, each key once. *)
#[local] Unset Elimination Schemes.
Inductive json :=
| JNull
| JBool (b : bool)
| JNumber (lexeme : string)
| JString (s : string)
| JArray (items : list json)
| JObject (fields : list (string * json)).
#[local] Set Elimination Schemes.

(** [obj[key]]. *)
Fixpoint lookup_field (key : string) (fields : list (string * json)) : option json :=
  match fields with
  | [] => None
  | (k, v) :: fields' => if decide (k = key) then Some v else lookup_field key fields'
  end.

(** [obj[key] = v]: an existing property keeps its place, a new one goes
    last. (The special order JavaScript gives to keys that look like array
    indices is not modelled.) *)
Fixpoint set_field (key : string) (v : json) (fields : list (string * json))
  : list (string * json) :=
  match fields with
  | [] => [(key, v)]
  | (k, v') :: fields' =>
      if decide (k = key) then (k, v) :: fields'
      else (k, v') :: set_field key v fields'
  end.

(** *** JSON.parse *)

Definition is_ws (c : ascii) : bool :=
  match c with
  | " "%char | "009"%char | "010"%char | "013"%char => true
  | _ => false
  end.

Fixpoint skip_ws (s : string) : string :=
  match s with
  | String c s' => if is_ws c then skip_ws s' else s
  | EmptyString => s
  end.

Definition is_digit (c : ascii) : bool :=
  match Ascii.is_nat c with Some _ => true | None => false end.

Definition hex_value (c : ascii) : option N :=
  let n := N_of_ascii c in
  if (48 <=? n)%N && (n <=? 57)%N then Some (n - 48)%N
  else if (65 <=? n)%N && (n <=? 70)%N then Some (n - 55)%N
  else if (97 <=? n)%N && (n <=? 102)%N then Some (n - 87)%N
  else None.

Definition hex4 (a b c d : ascii) : option N :=
  match hex_value a, hex_value b, hex_value c, hex_value d with
  | Some x, Some y, Some z, Some w => Some (x * 4096 + y * 256 + z * 16 + w)%N
  | _, _, _, _ => None
  end.

Definition chr (n : N) : ascii := ascii_of_N (n mod 256).

(** The UTF-8 bytes of a code point. *)
Definition utf8 (cp : N) : string :=
  if (cp <? 128)%N then String (chr cp) ""
  else if (cp <? 2048)%N then
    String (chr (192 + cp / 64)) (String (chr (128 + cp mod 64)) "")
  else if (cp <? 65536)%N then
    String (chr (224 + cp / 4096))
      (String (chr (128 + (cp / 64) mod 64)) (String (chr (128 + cp mod 64)) ""))
  else
    String (chr (240 + cp / 262144))
      (String (chr (128 + (cp / 4096) mod 64))
         (String (chr (128 + (cp / 64) mod 64)) (String (chr (128 + cp mod 64)) ""))).

Definition is_high_surrogate (u : N) : bool := (55296 <=? u)%N && (u <=? 56319)%N.
Definition is_low_surrogate (u : N) : bool := (56320 <=? u)%N && (u <=? 57343)%N.

(** The characters of a string after its opening quote, up to the closing
    one. A lone surrogate escape becomes U+FFFD, as it does when the string
    is written out as UTF-8. *)
Fixpoint parse_chars (s : string) : option (string * string) :=
  match s with
  | EmptyString => None
  | String "034"%char rest => Some ("", rest)
  | String "\"%char (String "u"%char (String a (String b (String c (String d rest))))) =>
      match hex4 a b c d with
      | None => None
      | Some hi =>
          if is_high_surrogate hi then
            match rest with
            | String "\"%char (String "u"%char
                (String a' (String b' (String c' (String d' rest'))))) =>
                match hex4 a' b' c' d' with
                | Some lo =>
                    if is_low_surrogate lo then
                      '(cs, r) ← parse_chars rest';
                      Some (utf8 (65536 + (hi - 55296) * 1024 + (lo - 56320))
                            +:+ cs, r)
                    else
                      '(cs, r) ← parse_chars rest; Some (utf8 65533 +:+ cs, r)
                | None => None
                end
            | _ => '(cs, r) ← parse_chars rest; Some (utf8 65533 +:+ cs, r)
            end
          else if is_low_surrogate hi then
            '(cs, r) ← parse_chars rest; Some (utf8 65533 +:+ cs, r)
          else '(cs, r) ← parse_chars rest; Some (utf8 hi +:+ cs, r)
      end
  | String "\"%char (String e rest) =>
      let unescaped : option ascii :=
        match e with
        | "034"%char => Some "034"%char
        | "\"%char => Some "\"%char
        | "/"%char => Some "/"%char
        | "b"%char => Some "008"%char
        | "f"%char => Some "012"%char
        | "n"%char => Some "010"%char
        | "r"%char => Some "013"%char
        | "t"%char => Some "009"%char
        | _ => None
        end in
      match unescaped with
      | Some c => '(cs, r) ← parse_chars rest; Some (String c cs, r)
      | None => None
      end
  | String "\"%char EmptyString => None
  | String c rest =>
      if (N_of_ascii c <? 32)%N then None
      else '(cs, r) ← parse_chars rest; Some (String c cs, r)
  end.

(** The digits at the head of a string. *)
Fixpoint span_digits (s : string) : string * string :=
  match s with
  | String c s' =>
      if is_digit c then let '(ds, r) := span_digits s' in (String c ds, r)
      else ("", s)
  | EmptyString => ("", s)
  end.

(** A number: an optional minus sign, an integer part (0, or a non-zero
    digit and more digits), an optional fraction (a dot and digits), an
    optional exponent (e or E, an optional sign, digits). Each part
    yields its text and what follows it. *)
Definition parse_sign (s : string) : string * string :=
  match s with
  | String c s' => if Ascii.eqb c "-" then ("-", s') else ("", s)
  | EmptyString => ("", s)
  end.

Definition parse_int (s : string) : option (string * string) :=
  match s with
  | String c s' =>
      if Ascii.eqb c "0" then Some ("0", s')
      else let '(ds, r) := span_digits s in
           if Str.is_empty ds then None else Some (ds, r)
  | EmptyString => None
  end.

Definition parse_frac (s : string) : option (string * string) :=
  match s with
  | String c s' =>
      if Ascii.eqb c "." then
        let '(ds, r) := span_digits s' in
        if Str.is_empty ds then None else Some ("." +:+ ds, r)
      else Some ("", s)
  | EmptyString => Some ("", s)
  end.

Definition parse_exp_sign (s : string) : string * string :=
  match s with
  | String c s' =>
      if Ascii.eqb c "+" || Ascii.eqb c "-" then (String c "", s') else ("", s)
  | EmptyString => ("", s)
  end.

Definition parse_exp (s : string) : option (string * string) :=
  match s with
  | String e s' =>
      if Ascii.eqb e "e" || Ascii.eqb e "E" then
        let '(sg, s'') := parse_exp_sign s' in
        let '(ds, r) := span_digits s'' in
        if Str.is_empty ds then None else Some (String e sg +:+ ds, r)
      else Some ("", s)
  | EmptyString => Some ("", s)
  end.

Definition parse_number (s : string) : option (string * string) :=
  let '(sign, s) := parse_sign s in
  '(int, s) ← parse_int s;
  '(frac, s) ← parse_frac s;
  '(exp, s) ← parse_exp s;
  Some (sign +:+ int +:+ frac +:+ exp, s).

Definition expect (c : ascii) (s : string) : option string :=
  match s with
  | String c' s' => if decide (c' = c) then Some s' else None
  | EmptyString => None
  end.

Definition strip_prefix (p s : string) : option string :=
  if decide (Str.prefix (String.length p) s = p)
  then Some (Str.suffix (String.length p) s) else None.

(** A value, the elements of an array after its '[', and the members of an
    object after its '{'. Two nested calls consume at least one character
    between them, so fuel twice the length of the text is enough. *)
Fixpoint parse_value (fuel : nat) (s : string) : option (json * string) :=
  match fuel with
  | O => None
  | S fuel =>
      match skip_ws s with
      | String "{"%char s' =>
          match expect "}"%char (skip_ws s') with
          | Some r => Some (JObject [], r)
          | None => '(fs, r) ← parse_members fuel [] s'; Some (JObject fs, r)
          end
      | String "["%char s' =>
          match expect "]"%char (skip_ws s') with
          | Some r => Some (JArray [], r)
          | None => '(vs, r) ← parse_elements fuel s'; Some (JArray vs, r)
          end
      | String "034"%char s' => '(cs, r) ← parse_chars s'; Some (JString cs, r)
      | String "t"%char _ => r ← strip_prefix "true" (skip_ws s); Some (JBool true, r)
      | String "f"%char _ => r ← strip_prefix "false" (skip_ws s); Some (JBool false, r)
      | String "n"%char _ => r ← strip_prefix "null" (skip_ws s); Some (JNull, r)
      | _ => '(n, r) ← parse_number (skip_ws s); Some (JNumber n, r)
      end
  end
with parse_elements (fuel : nat) (s : string) : option (list json * string) :=
  match fuel with
  | O => None
  | S fuel =>
      '(v, r) ← parse_value fuel s;
      match skip_ws r with
      | String ","%char r' => '(vs, r'') ← parse_elements fuel r'; Some (v :: vs, r'')
      | String "]"%char r' => Some ([v], r')
      | _ => None
      end
  end
with parse_members (fuel : nat) (acc : list (string * json)) (s : string)
  : option (list (string * json) * string) :=
  match fuel with
  | O => None
  | S fuel =>
      s1 ← expect "034"%char (skip_ws s);
      '(k, s2) ← parse_chars s1;
      s3 ← expect ":"%char (skip_ws s2);
      '(v, r) ← parse_value fuel s3;
      let acc := set_field k v acc in
      match skip_ws r with
      | String ","%char r' => parse_members fuel acc r'
      | String "}"%char r' => Some (acc, r')
      | _ => None
      end
  end.

(** [JSON.parse(text)]; [None] is the SyntaxError. *)
Definition JSON_parse (text : string) : option json :=
  '(v, r) ← parse_value (2 * String.length text + 2) text;
  if Str.is_empty (skip_ws r) then Some v else None.

(** *** JSON.stringify(value, null, 2) *)

Definition hex_digit (n : N) : ascii :=
  if (n <? 10)%N then ascii_of_N (48 + n) else ascii_of_N (87 + n).

Definition escape_char (c : ascii) : string :=
  match c with
  | "034"%char => String "\" (String "034" "")
  | "\"%char => "\\"
  | "008"%char => "\b"
  | "012"%char => "\f"
  | "010"%char => "\n"
  | "013"%char => "\r"
  | "009"%char => "\t"
  | _ =>
      let n := N_of_ascii c in
      if (n <? 32)%N
      then "\u00" +:+ String (hex_digit (n / 16)) (String (hex_digit (n mod 16)) "")
      else String c ""
  end.

Fixpoint escape (s : string) : string :=
  match s with
  | String c s' => escape_char c +:+ escape s'
  | EmptyString => ""
  end.

Definition quote (s : string) : string :=
  String "034" (escape s +:+ String "034" "").

Fixpoint spaces (n : nat) : string :=
  match n with O => "" | S n' => String " " (spaces n') end.

Definition newline : string := String "010" "".

(** The lines of an array or object, joined by ",\n" and indented. *)
Fixpoint join_lines (indent : nat) (lines : list string) : string :=
  match lines with
  | [] => ""
  | [l] => spaces indent +:+ l
  | l :: ls => spaces indent +:+ l +:+ "," +:+ newline +:+ join_lines indent ls
  end.

Fixpoint serialize (indent : nat) (v : json) : string :=
  match v with
  | JNull => "null"
  | JBool true => "true"
  | JBool false => "false"
  | JNumber lexeme => lexeme
  | JString s => quote s
  | JArray [] => "[]"
  | JArray items =>
      "[" +:+ newline
      +:+ join_lines (indent + 2) (map (serialize (indent + 2)) items)
      +:+ newline +:+ spaces indent +:+ "]"
  | JObject [] => "{}"
  | JObject fields =>
      "{" +:+ newline
      +:+ join_lines (indent + 2)
            (map (fun kv => quote (fst kv) +:+ ": " +:+ serialize (indent + 2) (snd kv))
                 fields)
      +:+ newline +:+ spaces indent +:+ "}"
  end.

Definition JSON_stringify (v : json) : string := serialize 0 v.

(** *** The longest string

    A JavaScript string is kept as its UTF-8 bytes. Its [length] counts
    UTF-16 code units: none for a continuation byte, two for the first
    byte of a four-byte character, one for every other byte. *)
Definition code_units (c : ascii) : N :=
  let n := N_of_ascii c in
  if (128 <=? n)%N && (n <? 192)%N then 0%N
  else if (240 <=? n)%N then 2%N
  else 1%N.

Fixpoint js_length (s : string) : N :=
  match s with
  | EmptyString => 0%N
  | String c s' => (code_units c + js_length s')%N
  end.

(** The longest string V8 builds (Node 20, 64 bits), 2^29 - 24 code
    units: [JSON.stringify] throws a RangeError, "Invalid string length",
    when its text would be longer. *)
Definition MAX_STRING_LENGTH : N := 536870888.

Definition stringify_throws (v : json) : bool :=
  (MAX_STRING_LENGTH <? js_length (JSON_stringify v))%N.

(** Well-formed UTF-8, as the bytes of a JavaScript string are:
    [pending] continuation bytes are still due. *)
Fixpoint utf8_from (pending : nat) (s : string) : bool :=
  match s with
  | EmptyString => (pending =? 0)%nat
  | String c s' =>
      let n := N_of_ascii c in
      match pending with
      | O =>
          if (n <? 128)%N then utf8_from 0 s'
          else if (192 <=? n)%N && (n <? 224)%N then utf8_from 1 s'
          else if (224 <=? n)%N && (n <? 240)%N then utf8_from 2 s'
          else if (240 <=? n)%N && (n <? 248)%N then utf8_from 3 s'
          else false
      | S pending' =>
          (128 <=? n)%N && (n <? 192)%N && utf8_from pending' s'
      end
  end.

Definition well_formed (s : string) : bool := utf8_from 0 s.

End Json.

(* ===================================================================== *)
(** ** The file system, as far as the image writers touch it *)
(* ===================================================================== *)

Module Fs.

Abbreviation files := (gmap string (list byte)).

(** What can go wrong while a file is written: nothing, the open fails
    (the file is untouched), or a write fails after the file was opened
    for writing (truncated) and [n] bytes reached it. *)
Inductive write_fault :=
| NoFault
| OpenFails
| WriteFailsAfter (n : nat).

(** [fs.writeFile(path, data, callback)]: open with flag 'w', write, close.
    The boolean is the absence of an error in the callback. *)
Definition writeFile (fault : write_fault) (path : string) (data : list byte)
    (fs : files) : bool * files :=
  match fault with
  | NoFault => (true, <[path := data]> fs)
  | OpenFails => (false, fs)
  | WriteFailsAfter n => (false, <[path := take n data]> fs)
  end.

End Fs.

(* ===================================================================== *)
(** ** The image codec: lib/image.js *)
(* ===================================================================== *)

Module Image.
Import Json.

Definition MAGIC_BYTES : list byte := Buf.from_string "NSI!".
Definition VERSION : N := 1.
Definition HEADER_FIXED_LEN : N := 12.
Definition MAX_HEADER_LEN : N := 10 * 1024 * 1024.

(** The JavaScript heap holds the header template: an object that the
    caller and [createNsiImage] both refer to. *)
Definition loc := positive.
Abbreviation heap := (gmap loc (list (string * json))).

Record state := State { st_heap : heap; st_files : Fs.files }.

Inductive create_error :=
| TarPackingFailed
| ZlibCompressionFailed
| FailedToWriteImageFile.

Inductive create_result :=
| Created (imagePath : string)          (* the promise resolves *)
| CreateRejected (err : create_error)   (* the promise rejects *)
| CreateThrew.                          (* an exception escapes a callback *)

Inductive open_error :=
| InvalidMagic (got : list byte)
| UnsupportedVersion (version : N)
| LargeHeader (headerJsonLen : N)
| HeaderJsonError
| IncompleteImage.

Section WithLibraries.

(** What the code takes from tar-fs, zlib and crypto. A directory tree is
    a value of [dir]; [tar_pack] reads one and [tar_extract] creates one
    in an empty destination; [None] is the library's error event. A zlib
    stream that is written in pieces inflates the concatenation of the
    pieces. *)
Context {dir : Type}.
Variable tar_pack : dir -> option (list byte).
Variable tar_extract : list byte -> option dir.
Variable deflate : list byte -> option (list byte).
Variable inflate : list byte -> option (list byte).
Variable sha256_hex : list byte -> string.

(** *** createNsiImage *)

Definition set_prop (l : loc) (key : string) (v : json) (h : heap) : heap :=
  match h !! l with
  | Some fields => <[l := set_field key v fields]> h
  | None => h
  end.

Definition header_bytes (fields : list (string * json)) : list byte :=
  Buf.from_string (JSON_stringify (JObject fields)).

(** The bytes of an image file. *)
Definition image_bytes (headerLenBuffer finalHeaderJsonBuffer compressedPayload
    : list byte) : list byte :=
  MAGIC_BYTES ++ default [] (Buf.writeUInt32BE VERSION) ++ headerLenBuffer
  ++ finalHeaderJsonBuffer ++ compressedPayload.

(** [createNsiImage(imagePath, sourceDir, headerJson)]; [now] is what
    [new Date().toISOString()] returns, [fault] what happens inside
    [fs.writeFile]. [headerJson] refers to an object of the heap; were it
    not an object, the first assignment would throw in the 'end' handler.
    In the callback of zlib, [JSON.stringify] throws when the header text
    is longer than the longest string, and [writeUInt32BE] when the header
    has 2^32 bytes or more; both exceptions escape the callback. *)
Definition createNsiImage (imagePath : string) (sourceDir : dir)
    (headerJson : loc) (now : string) (fault : Fs.write_fault) (σ : state)
  : create_result * state :=
  match tar_pack sourceDir with
  | None => (CreateRejected TarPackingFailed, σ)
  | Some rawPayload =>
      if decide (st_heap σ !! headerJson = None) then (CreateThrew, σ) else
      let payloadHash := sha256_hex rawPayload in
      let h := set_prop headerJson "hash" (JString payloadHash) (st_heap σ) in
      let h := set_prop headerJson "created" (JString now) h in
      match deflate rawPayload with
      | None => (CreateRejected ZlibCompressionFailed, State h (st_files σ))
      | Some compressedPayload =>
          let h := set_prop headerJson "size"
                     (JNumber (pretty (Buf.len compressedPayload))) h in
          if stringify_throws (JObject (default [] (h !! headerJson)))
          then (CreateThrew, State h (st_files σ)) else
          let finalHeaderJsonBuffer := header_bytes (default [] (h !! headerJson)) in
          match Buf.writeUInt32BE (Buf.len finalHeaderJsonBuffer) with
          | None => (CreateThrew, State h (st_files σ))
          | Some headerLenBuffer =>
              let finalBuffer :=
                image_bytes headerLenBuffer finalHeaderJsonBuffer compressedPayload in
              let '(ok, fs) := Fs.writeFile fault imagePath finalBuffer (st_files σ) in
              if ok then (Created imagePath, State h fs)
              else (CreateRejected FailedToWriteImageFile, State h fs)
          end
      end
  end.

(** *** readNsiImage *)

Record header_info := HeaderInfo {
  hi_version : N;
  hi_headerJsonLen : N;
  hi_headerOffset : N
}.

(** The variables the 'data' handler closes over. ([headerInfo.json] is
    only tested while it is unset: once it is set, [resolved] is too, and
    the handler returns at its first line.) *)
Record reader := Reader {
  buffer : list byte;
  headerInfo : option header_info;
  resolved : bool
}.

(** What the promise resolves to: the header, the version, and the state
    [getPayloadStream] closes over, the buffer and the payload offset. *)
Record nsi_image := NsiImage {
  header : json;
  version : N;
  img_buffer : list byte;
  img_payloadOffset : N
}.

Inductive settled :=
| Reject (err : open_error)
| Resolve (img : nsi_image).

(** Step 1 of the handler: the fixed header, once twelve bytes are there. *)
Definition parse_fixed (buffer : list byte) : open_error + header_info :=
  if negb (bool_decide (Buf.slice buffer 0 4 = MAGIC_BYTES))
  then inl (InvalidMagic (Buf.slice buffer 0 4))
  else
    let version := Buf.readUInt32BE buffer 4 in
    if negb (version =? VERSION)%N then inl (UnsupportedVersion version)
    else
      let headerJsonLen := Buf.readUInt32BE buffer 8 in
      if (MAX_HEADER_LEN <? headerJsonLen)%N then inl (LargeHeader headerJsonLen)
      else inr {| hi_version := version; hi_headerJsonLen := headerJsonLen;
                  hi_headerOffset := HEADER_FIXED_LEN |}.

(** Step 2: the JSON header, once all its bytes are there. *)
Definition parse_header (buffer : list byte) (hi : header_info) : option settled :=
  if (hi_headerOffset hi + hi_headerJsonLen hi <=? Buf.len buffer)%N then
    let payloadOffset := (hi_headerOffset hi + hi_headerJsonLen hi)%N in
    match JSON_parse (Buf.to_string (Buf.slice buffer (hi_headerOffset hi) payloadOffset)) with
    | None => Some (Reject HeaderJsonError)
    | Some j =>
        Some (Resolve {| header := j; version := hi_version hi;
                         img_buffer := buffer; img_payloadOffset := payloadOffset |})
    end
  else None.

(** The 'data' handler: the new state of the closure and how the promise
    is settled by this chunk, if it is. *)
Definition on_data (r : reader) (chunk : list byte) : reader * option settled :=
  if resolved r then (r, None) else
  let buffer := buffer r ++ chunk in
  let fixed : open_error + option header_info :=
    match headerInfo r with
    | None =>
        if (HEADER_FIXED_LEN <=? Buf.len buffer)%N
        then match parse_fixed buffer with
             | inl e => inl e
             | inr hi => inr (Some hi)
             end
        else inr None
    | Some hi => inr (Some hi)
    end in
  match fixed with
  | inl e => (Reader buffer (headerInfo r) true, Some (Reject e))
  | inr None => (Reader buffer None false, None)
  | inr (Some hi) =>
      match parse_header buffer hi with
      | Some s => (Reader buffer (Some hi) true, Some s)
      | None => (Reader buffer (Some hi) false, None)
      end
  end.

(** The result of [readNsiImage]: a rejection, or an image together with
    the chunks the paused file stream has still to deliver. *)
Inductive open_result :=
| OpenRejected (err : open_error)
| Opened (img : nsi_image) (later : list (list byte)).

(** The file stream delivers its chunks, then 'end'. A rejection destroys
    the stream; a resolution pauses it. (Read errors are not modelled.) *)
Fixpoint feed (r : reader) (chunks : list (list byte)) : open_result :=
  match chunks with
  | [] => OpenRejected IncompleteImage
  | chunk :: later =>
      match on_data r chunk with
      | (r', None) => feed r' later
      | (_, Some (Reject e)) => OpenRejected e
      | (_, Some (Resolve img)) => Opened img later
      end
  end.

Definition readNsiImage (chunks : list (list byte)) : open_result :=
  feed (Reader [] None false) chunks.

(** [getPayloadStream()]: what is written to the inflater, in order. The
    buffered rest of the payload is written at once; the file stream is
    resumed afterwards and pipes the later chunks. *)
Definition inflater_writes (img : nsi_image) (later : list (list byte))
  : list (list byte) :=
  let compressedPayloadBuffer :=
    Buf.slice (img_buffer img) (img_payloadOffset img) (Buf.len (img_buffer img)) in
  (if (0 <? Buf.len compressedPayloadBuffer)%N then [compressedPayloadBuffer] else [])
  ++ later.

(** The bytes the payload stream yields, [None] when it emits an error. *)
Definition getPayloadStream (img : nsi_image) (later : list (list byte))
  : option (list byte) :=
  inflate (concat (inflater_writes img later)).

(** *** extractNsiPayload *)

Inductive extract_error :=
| PayloadReadError
| TarExtractionFailed.

Definition extractNsiPayload (payloadStream : option (list byte))
  : extract_error + dir :=
  match payloadStream with
  | None => inl PayloadReadError
  | Some tar =>
      match tar_extract tar with
      | None => inl TarExtractionFailed
      | Some d => inr d
      end
  end.

End WithLibraries.

End Image.

(* ===================================================================== *)
(** ** src/cli/commands/build.js: writing the image file *)
(* ===================================================================== *)

Module CliBuild.

Definition NSI_MAGIC : list byte := Buf.from_string "NSI!".





End CliBuild.

(* ===================================================================== *)
(** ** src/cli/commands/run.js: loading an image *)
(* ===================================================================== *)

Module CliRun.
Import Json.

Definition NSI_MAGIC : list byte := Buf.from_string "NSI!".

(** [fileHandle.read(buffer, 0, length, position)] into a fresh
    [Buffer.alloc(length)]: what lies beyond the end of the file stays
    zero. *)
Definition read_at (file : list byte) (position count : N) : list byte :=
  let got := Buf.slice file position (position + count) in
  got ++ replicate (N.to_nat count - length got) x00.

(** The exceptions that end the handler in its [catch]. *)
Inductive run_error :=
| IncorrectMagicNumber
| HeaderSyntaxError      (* JSON.parse throws *)
| HeaderTypeError        (* a property of null or undefined is read *)
| PayloadRangeError      (* Buffer.alloc of a negative length *)
| UnzipError
| TarExtractError.

(** The lines the handler logs, with their arguments. *)
Inductive log_entry :=
| InfoImage (imageName version : option json)
| InfoCommand (cmd : list json)
| InfoExtracting
| WarnHashMismatch (expected : option json) (got : string)
| InfoHashVerified
| InfoExtracted.

(** [value.key]: reading a property of null throws ([None]); the keys
    read here are undefined ([Some None]) on every value but an object. *)
Definition get_prop (value : json) (key : string) : option (option json) :=
  match value with
  | JNull => None
  | JObject fields => Some (lookup_field key fields)
  | _ => Some None
  end.

(** [value === s] for a string [s]: the value is that string. *)
Definition strict_equal_string (value : option json) (s : string) : bool :=
  match value with
  | Some (JString s') => bool_decide (s' = s)
  | _ => false
  end.

(** Step 1, lines 78-97: the magic is checked, the version is read and
    not looked at, the header length is taken as it is. *)
Definition read_header (file : list byte)
  : list log_entry * (run_error + (json * N)) :=
  let magicBuffer := read_at file 0 4 in
  if negb (bool_decide (magicBuffer = NSI_MAGIC)) then ([], inl IncorrectMagicNumber) else
  let versionBuffer := read_at file 4 4 in
  let headerLenBuffer := read_at file 8 4 in
  let headerLength := Buf.readUInt32BE headerLenBuffer 0 in
  let headerBuffer := read_at file 12 headerLength in
  match JSON_parse (Buf.to_string headerBuffer) with
  | None => ([], inl HeaderSyntaxError)
  | Some header =>
      match get_prop header "imageName", get_prop header "version" with
      | Some imageName, Some version =>
          match get_prop header "cmd" with
          | Some (Some (JArray cmd)) =>
              ([InfoImage imageName version; InfoCommand cmd], inr (header, headerLength))
          | _ => ([InfoImage imageName version], inl HeaderTypeError)
          end
      | _, _ => ([], inl HeaderTypeError)
      end
  end.

Section WithLibraries.
Context {dir : Type}.
Variable unzip : list byte -> option (list byte).
Variable tar_extract : list byte -> option dir.
Variable sha256_hex : list byte -> string.

(** Lines 111-141: inflate the payload, compare its digest with
    [header.hash], extract it. A digest that differs is logged with
    [logger.warn]; the [throw] next to it is commented out. *)
Definition verify_and_extract (header : json) (compressedPayloadBuffer : list byte)
  : list log_entry * (run_error + dir) :=
  match unzip compressedPayloadBuffer with
  | None => ([], inl UnzipError)
  | Some payloadBuffer =>
      let calculatedHash := sha256_hex payloadBuffer in
      match get_prop header "hash" with
      | None => ([], inl HeaderTypeError)
      | Some hash =>
          let verdict :=
            if negb (strict_equal_string hash calculatedHash)
            then WarnHashMismatch hash calculatedHash
            else InfoHashVerified in
          match tar_extract payloadBuffer with
          | None => ([verdict], inl TarExtractError)
          | Some rootfs => ([verdict; InfoExtracted], inr rootfs)
          end
      end
  end.

(** Steps 1 to 3 of the handler. (The temporary directory and the
    file-system errors of the reads are not modelled.) *)
Definition load_image (file : list byte) : list log_entry * (run_error + (json * dir)) :=
  match read_header file with
  | (log, inl e) => (log, inl e)
  | (log, inr (header, headerLength)) =>
      let log := log ++ [InfoExtracting] in
      let payloadOffset := (12 + headerLength)%N in
      if (Buf.len file <? payloadOffset)%N then (log, inl PayloadRangeError) else
      let payloadLength := (Buf.len file - payloadOffset)%N in
      let compressedPayloadBuffer := read_at file payloadOffset payloadLength in
      match verify_and_extract header compressedPayloadBuffer with
      | (log', inl e) => (log ++ log', inl e)
      | (log', inr rootfs) => (log ++ log', inr (header, rootfs))
      end
  end.

End WithLibraries.

End CliRun.

(* ===================================================================== *)
(** ** lib/run.js: the arguments handed to the clone-based launcher *)
(* ===================================================================== *)

Module LibRunArgs.

(** [s.startsWith('/')], which is also [path.isAbsolute(s)] on POSIX. *)
Definition starts_with_slash (s : string) : bool :=
  match s with
  | String "/" _ => true
  | _ => false
  end.

(** [s.includes('/')]. *)
Definition includes_slash (s : string) : bool :=
  bool_decide (Str.find "/" s <> None).

(** A string property in a condition or before [||]: a missing one and
    the empty string count as false. *)
Definition truthy (s : option string) : bool :=
  match s with
  | Some s' => negb (Str.is_empty s')
  | None => false
  end.

Section WithNode.

(** [path.join] of two segments and [fs.exists] are taken as they come. *)
Variable path_join : string -> string -> string.
Variable fs_exists : string -> bool.

(** Lines 78-80. [workDir] is [header.runtime.workDir], [cmd0] the first
    element of [header.runtime.cmd]. *)
Definition container_cmd (workDir : option string) (cmd0 : string) : string :=
  if starts_with_slash cmd0 then cmd0
  else path_join (if truthy workDir then default "" workDir else "/app") cmd0.

(** Lines 94-105: the callback of [map]. *)
Definition container_arg (workDir : option string) (arg : string) : string :=
  if starts_with_slash arg then arg
  else if includes_slash arg && negb (starts_with_slash arg) && truthy workDir
       then path_join (default "" workDir) arg
       else arg.

(** Lines 74-75: [(options.memory || 0).toString()]. [options.memory] is
    what [parseInt] made of the option: [None] stands for an option that
    was not given and for NaN. The decimal numeral is what [toString]
    gives for an integer below 10^21 in absolute value. *)
Definition memory_arg (memory : option Z) : string :=
  pretty (match memory with
          | Some m => if m =? 0 then 0 else m
          | None => 0
          end).

(** Step 5 of [runContainer], for a header whose [runtime.cmd] is an array
    of strings: the arguments of the launcher, or [None] when an exception
    is thrown (the TypeError of an empty [cmd], the missing executable). *)
Definition cpp_args (rootfsPath : string) (memory : option Z)
    (workDir : option string) (cmd : list string) : option (list string) :=
  match cmd with
  | [] => None
  | cmd0 :: rest =>
      let containerCmd := container_cmd workDir cmd0 in
      let targetCmdPath :=
        path_join rootfsPath
          (if starts_with_slash containerCmd then Str.suffix 1 containerCmd
           else containerCmd) in
      if bool_decide (containerCmd <> "/usr/bin/node") && negb (fs_exists targetCmdPath)
      then None
      else Some ([rootfsPath; memory_arg memory; containerCmd]
                 ++ (container_arg workDir <$> rest))
  end.

(** [spawn(CPP_HELPER_PATH, cppArgs)]: the argument vector of the
    launcher. *)
Definition spawn_argv (helper : string) (cppArgs : list string) : list string :=
  helper :: cppArgs.

End WithNode.

End LibRunArgs.

(* ===================================================================== *)
(** ** lib/build.js: the copy filter and the header template *)
(* ===================================================================== *)

Module LibBuild.
Import Json.

(** [pattern.replace(/\/$/, '')]: one slash at the end of the string is
    removed. *)
Fixpoint strip_slash (pattern : string) : string :=
  match pattern with
  | EmptyString => EmptyString
  | String c EmptyString => if Ascii.eqb c "/" then EmptyString else pattern
  | String c rest => String c (strip_slash rest)
  end.

(** [s.startsWith(p)]. *)
Fixpoint starts_with (p s : string) : bool :=
  match p, s with
  | EmptyString, _ => true
  | String a p', String b s' => Ascii.eqb a b && starts_with p' s'
  | String _ _, EmptyString => false
  end.

(** Line 53, the test of the copy filter on the path relative to the
    build context: [exclude.some(pattern =>
    relativePath.startsWith(pattern.replace(/\/$/, '')))]. *)
Definition is_excluded (exclude : list string) (relativePath : string) : bool :=
  existsb (fun pattern => starts_with (strip_slash pattern) relativePath) exclude.

(** Lines 105-117: the header template handed to [createNsiImage].
    [version], [workDir] and [env] are the values after their defaults
    ([|| 'latest'], [|| '/app'], [|| {}]) were applied. *)
Definition header_template (name version cmd workDir env : json)
  : list (string * json) :=
  [("imageName", name); ("version", version);
   ("created", JNull); ("hash", JNull); ("size", JNull);
   ("runtime", JObject [("cmd", cmd); ("workDir", workDir); ("env", env)])].

End LibBuild.

(** * Its properties *)

(* ===================================================================== *)
(** ** A process and its kernel: inversion of a run *)
(* ===================================================================== *)

Module ProcTheory.
Import Proc.

Section WithKernel.
Context {world : Type}.
Variable kernel : syscall -> world -> reply * world.

Local Abbreviation sys := (sys kernel).
Local Abbreviation execve := (execve kernel).
Local Abbreviation M := (M world).

(** *** Inversion of a run, outcome by outcome *)

Lemma bind_Ret {A B} (m : M A) (f : A -> M B) st b st' t :
  bind m f st = (Ret b, st', t) ->
  exists a st1 t1 t2,
    m st = (Ret a, st1, t1) /\ f a st1 = (Ret b, st', t2) /\ t = t1 ++ t2.
Proof.
  unfold bind. destruct (m st) as [[[a | c | p a e] st1] t1]; try discriminate.
  destruct (f a st1) as [[o st2] t2] eqn:Hf. intros [= -> -> <-].
  by exists a, st1, t1, t2.
Qed.

Lemma bind_Replaced {A B} (m : M A) (f : A -> M B) st p a e st' t :
  bind m f st = (Replaced p a e, st', t) ->
  m st = (Replaced p a e, st', t) \/
  exists x st1 t1 t2,
    m st = (Ret x, st1, t1) /\ f x st1 = (Replaced p a e, st', t2) /\ t = t1 ++ t2.
Proof.
  unfold bind. destruct (m st) as [[[x | c | p0 a0 e0] st1] t1]; try discriminate.
  - destruct (f x st1) as [[o st2] t2] eqn:Hf. intros [= -> -> <-].
    right. by exists x, st1, t1, t2.
  - intros [= -> -> -> -> ->]. by left.
Qed.

Lemma bind_Exited {A B} (m : M A) (f : A -> M B) st c st' t :
  bind m f st = (Exited c, st', t) ->
  m st = (Exited c, st', t) \/
  exists x st1 t1 t2,
    m st = (Ret x, st1, t1) /\ f x st1 = (Exited c, st', t2) /\ t = t1 ++ t2.
Proof.
  unfold bind. destruct (m st) as [[[x | c0 | p0 a0 e0] st1] t1]; try discriminate.
  - destruct (f x st1) as [[o st2] t2] eqn:Hf. intros [= -> -> <-].
    right. by exists x, st1, t1, t2.
  - intros [= -> -> ->]. by left.
Qed.

Lemma sys_inv (c : syscall) st o st' t :
  sys c st = (o, st', t) ->
  t = [c] /\ p_environ st' = p_environ st /\
  exists r, o = Ret r /\ (r, p_world st') = kernel c (p_world st).
Proof.
  unfold sys. destruct (kernel c (p_world st)) as [r w'].
  intros [= <- <- <-]. simpl. eauto.
Qed.


End WithKernel.

End ProcTheory.

(* ===================================================================== *)
(** ** nsi-sandbox: the trace of each function *)
(* ===================================================================== *)

Module SandboxTheory.
Import Proc ProcTheory WaitStatus Sandbox.

(** *** The trace of each function *)

Ltac run_inv :=
  repeat (cbv beta in *;
    match goal with
    | H : bind _ _ _ = (Ret _, _, _) |- _ =>
        apply bind_Ret in H as (? & ? & ? & ? & ? & H & ->)
    | H : bind _ _ _ = (Replaced _ _ _, _, _) |- _ =>
        apply bind_Replaced in H as [H | (? & ? & ? & ? & ? & H & ->)]
    | H : Proc.sys _ _ _ = (Ret _, _, _) |- _ =>
        apply sys_inv in H as (-> & _ & ? & [= <-] & _)
    | H : Proc.sys _ _ _ = (Replaced _ _ _, _, _) |- _ =>
        apply sys_inv in H as (_ & _ & ? & [=] & _)
    | H : ret _ _ = _ |- _ => injection H as <- <- <-
    | H : ret _ _ = (Replaced _ _ _, _, _) |- _ => discriminate H
    | H : die _ = (Ret _, _, _) |- _ => discriminate H
    | H : die _ = (Replaced _ _ _, _, _) |- _ => discriminate H
    | H : exit _ _ = (Ret _, _, _) |- _ => discriminate H
    | H : exit _ _ = (Replaced _ _ _, _, _) |- _ => discriminate H
    | H : clearenv _ = (Ret _, _, _) |- _ => injection H as <- <- <-
    | H : clearenv _ = (Replaced _ _ _, _, _) |- _ => discriminate H
    | H : (if ?b then _ else _) _ = _ |- _ => destruct b eqn:?
    end).

Section Theory.
Context {world : Type}.
Variable kernel : syscall -> world -> reply * world.












(** The parent only waits and exits: with the status word [waitpid]
    stored, its exit code is [WEXITSTATUS] of it, whatever the word is. *)
Lemma parent_process_exit child_pid st :
  exists r w',
    kernel (SysWaitpid child_pid) (p_world st) = (r, w') /\
    (parent_process kernel child_pid st).1.1 =
      Exited (if rv r =? -1 then EXIT_FAILURE else WEXITSTATUS (rout r)).
Proof.
  unfold parent_process, bind, Proc.sys.
  destruct (kernel _ _) as [r w']. exists r, w'. split; [done|].
  by destruct (rv r =? -1).
Qed.

End Theory.

End SandboxTheory.

(* ===================================================================== *)
(** ** The environment nsi-sandbox builds *)
(* ===================================================================== *)

Module SandboxEnv.
Import Proc ProcTheory Sandbox SandboxTheory CliRunArgs.

Lemma find_app_sep (c : ascii) (k rest : string) :
  Str.find c k = None ->
  Str.find c (k +:+ String c rest) = Some (String.length k).
Proof.
  induction k as [|a k IH]; simpl.
  - by rewrite decide_True.
  - destruct (decide (a = c)); [done|].
    destruct (Str.find c k); [done|]. intros _. by rewrite IH.
Qed.

Lemma prefix_app (k rest : string) :
  Str.prefix (String.length k) (k +:+ rest) = k.
Proof.
  induction k as [|a k IH]; simpl; [by destruct rest | by rewrite IH].
Qed.

Lemma suffix_app (k rest : string) :
  Str.suffix (String.length k) (k +:+ rest) = rest.
Proof. induction k as [|a k IH]; simpl; [by destruct rest | done]. Qed.

Lemma suffix_app_sep (c : ascii) (k rest : string) :
  Str.suffix (String.length k + 1) (k +:+ String c rest) = rest.
Proof. induction k as [|a k IH]; simpl; done. Qed.

Lemma add_env_entry k v (m : gmap string string) :
  valid_key k -> add_env (env_entry (k, v)) m = <[k:=v]> m.
Proof.
  intros [Hne Hfind]. unfold add_env, env_entry. cbn [fst snd].
  change ("=" +:+ v) with (String "=" v).
  rewrite (find_app_sep "=" k v Hfind).
  assert ((0 <? String.length k)%nat = true) as ->.
  { by destruct k. }
  unfold Str.substr. f_equal.
  - change (Str.suffix 0 ?s) with s. apply prefix_app.
  - apply suffix_app_sep.
Qed.







End SandboxEnv.

Module SandboxEnvTheory.
Import Proc ProcTheory Sandbox SandboxTheory CliRunArgs SandboxEnv.






(** *** [env_storage]: which pointers of [envp] survive *)

(** The capacity of [env_storage] after [n] calls of [push_back]. *)
Fixpoint capacity_after (n : nat) : nat :=
  match n with
  | O => 0%nat
  | S n' =>
      if (n' <? capacity_after n')%nat then capacity_after n'
      else Nat.max 1 (2 * capacity_after n')
  end.

(** The [push_back] onto [j] strings reallocates. *)
Definition reallocates (j : nat) : bool := negb (j <? capacity_after j)%nat.

(** A reallocation follows push number [i] (from 0) among [n] pushes. *)
Definition moved_later (i n : nat) : bool :=
  existsb reallocates (seq (S i) (n - S i)).

Definition slot (n i : nat) (s : string) : env_ptr :=
  if is_local s && moved_later i n then Dangling s else Valid s.

Lemma moved_later_last n : moved_later n (S n) = false.
Proof. unfold moved_later. by rewrite Nat.sub_diag. Qed.

Lemma moved_later_S i n :
  (i < n)%nat -> moved_later i (S n) = moved_later i n || reallocates n.
Proof.
  intros Hi. unfold moved_later.
  replace (S n - S i)%nat with (S (n - S i)) by lia.
  rewrite seq_S, existsb_app. cbn [existsb]. rewrite orb_false_r.
  by replace (S i + (n - S i))%nat with n by lia.
Qed.

Lemma foldl_push_back (strings : list string) :
  foldl push_back {| storage_capacity := 0; storage_size := 0; envp_of := [] |}
    strings
  = {| storage_capacity := capacity_after (length strings);
       storage_size := length strings;
       envp_of := imap (slot (length strings)) strings |}.
Proof.
  induction strings as [|x l IH] using rev_ind; [done|].
  rewrite foldl_app, IH. cbn [foldl]. unfold push_back.
  cbn [storage_capacity storage_size envp_of].
  rewrite length_app, Nat.add_1_r. cbn [capacity_after].
  rewrite imap_app. cbn [imap]. rewrite Nat.add_0_r.
  assert (slot (S (length l)) (length l) x = Valid x) as ->.
  { unfold slot. by rewrite moved_later_last, andb_false_r. }
  destruct (length l <? capacity_after (length l))%nat eqn:Hfull.
  - f_equal. f_equal. apply imap_ext. intros i s Hi%lookup_lt_Some.
    unfold slot. rewrite moved_later_S by done.
    unfold reallocates. by rewrite Hfull, orb_false_r.
  - f_equal. f_equal. rewrite fmap_imap. apply imap_ext.
    intros i s Hi%lookup_lt_Some. unfold slot, compose.
    rewrite moved_later_S by done.
    unfold reallocates. rewrite Hfull. cbn [negb]. rewrite orb_true_r, andb_true_r.
    destruct (is_local s) eqn:Hlocal, (moved_later i (length l));
      cbn [andb after_move]; by rewrite ?Hlocal.
Qed.

Lemma build_envp_slots m h :
  build_envp m h
  = imap (slot (length (env_strings m h))) (env_strings m h).
Proof. unfold build_envp. by rewrite foldl_push_back. Qed.

Lemma pointee_slot n i s : pointee (slot n i s) = s.
Proof. unfold slot. by destruct (_ && _). Qed.

Lemma pointee_build_envp m h : pointee <$> build_envp m h = env_strings m h.
Proof.
  rewrite build_envp_slots, fmap_imap.
  rewrite (imap_ext _ (const id)).
  - by rewrite imap_const, list_fmap_id.
  - intros i s _. apply pointee_slot.
Qed.





Lemma run_inv {world A} (m : M world A) w env o t :
  run m w env = (o, t) ->
  exists st', m {| p_world := w; p_environ := env |} = (o, st', t).
Proof.
  unfold run. destruct (m _) as [[o' st'] t']. intros [= -> ->]. by exists st'.
Qed.

End SandboxEnvTheory.

(* ===================================================================== *)
(** ** Wait statuses, decoded *)
(* ===================================================================== *)

Module WaitStatusTheory.
Import WaitStatus.

Definition decodes_exit (k : Z) : bool :=
  WIFEXITED (exited k) && (WEXITSTATUS (exited k) =? k).

Definition decodes_signal (s : Z) : bool :=
  forallb (fun core =>
    negb (WIFEXITED (signaled s core)) && WIFSIGNALED (signaled s core)
    && (WTERMSIG (signaled s core) =? s)
    && (WEXITSTATUS (signaled s core) =? 0)) [false; true].

Lemma exit_codes_decode : forallb decodes_exit (seqZ 0 256) = true.
Proof. by vm_compute. Qed.

Lemma signals_decode : forallb decodes_signal (seqZ 1 126) = true.
Proof. by vm_compute. Qed.

Lemma exited_spec k :
  0 <= k < 256 ->
  WIFEXITED (exited k) = true /\ WEXITSTATUS (exited k) = k.
Proof.
  intros Hk. pose proof exit_codes_decode as H.
  rewrite forallb_forall in H. specialize (H k).
  unfold decodes_exit in H. rewrite andb_true_iff, Z.eqb_eq in H.
  apply H, list_elem_of_In, elem_of_seqZ. lia.
Qed.

Lemma signaled_spec s core :
  1 <= s <= 126 ->
  WIFEXITED (signaled s core) = false /\
  WIFSIGNALED (signaled s core) = true /\
  WTERMSIG (signaled s core) = s /\
  WEXITSTATUS (signaled s core) = 0.
Proof.
  intros Hs. pose proof signals_decode as H.
  rewrite forallb_forall in H. specialize (H s).
  unfold decodes_signal in H. rewrite forallb_forall in H.
  specialize (fun Hin => H Hin core).
  rewrite !andb_true_iff, negb_true_iff, !Z.eqb_eq in H.
  assert (In core [false; true]) as Hcore by (destruct core; simpl; auto).
  assert (In s (seqZ 1 126)) as Hin by (apply list_elem_of_In, elem_of_seqZ; lia).
  by destruct (H Hin Hcore) as [[[? ?] ?] ?].
Qed.

(** The clone-based launcher forwards both kinds of termination. *)
Lemma exit_status_exited k :
  0 <= k < 256 -> Launcher.exit_status (exited k) = k.
Proof.
  intros [Hx Hk]%exited_spec. unfold Launcher.exit_status. by rewrite Hx.
Qed.

Lemma exit_status_signaled s core :
  1 <= s <= 126 -> Launcher.exit_status (signaled s core) = 128 + s.
Proof.
  intros (Hx & Hs & Ht & _)%(signaled_spec s core).
  unfold Launcher.exit_status. by rewrite Hx, Hs, Ht.
Qed.

End WaitStatusTheory.

(* ===================================================================== *)
(** ** The launchers: stage order, environment, exit status *)
(* ===================================================================== *)

Module LauncherClaims.
Import Proc ProcTheory WaitStatus Sandbox SandboxTheory CliRunArgs SandboxEnv SandboxEnvTheory.

(** A run used to exercise the theorems: the options of a CLI run with one
    image variable and two caller entries, one of them malformed. *)
Definition demo_opts : list (ascii * string) :=
  sandbox_opts "/tmp/rootfs" "/app" {["NODE_ENV" := "production"]}
    ["PORT=8080"; "bad"] "256M" "1a2b3c4d".

Definition demo_cmd : list string := ["/usr/bin/node"; "app.js"].







(** The clone-based launcher keeps its own environment for the command:
    [execv] passes on what [spawn] gave the launcher. *)
Lemma legacy_exec_environment {world} (kernel : syscall -> world -> reply * world)
    w env argv p a e t :
  run (Launcher.main kernel argv) w env = (Replaced p a e, t) ->
  e = Valid <$> env.
Proof.
  unfold run, Launcher.main, Launcher.child_function.
  unfold execv, execve, get_environ, bind, Proc.sys, ret, exit.
  destruct (length argv <? 4)%nat; [discriminate|].
  repeat (match goal with
          | |- context [kernel ?c ?w] => destruct (kernel c w) as [? ?]
          | |- context [if ?b then _ else _] => destruct b
          end; cbn [p_world p_environ]).
  all: by intros [=].
Qed.


(** The parent of nsi-sandbox exits with [WEXITSTATUS] of the status word,
    which is the exit code of a child that exited and 0 for a child that a
    signal killed. *)
Lemma sandbox_parent_exit_exited {world} (kernel : syscall -> world -> reply * world)
    child_pid st r w' k :
  kernel (SysWaitpid child_pid) (p_world st) = (r, w') ->
  rv r <> -1 -> rout r = exited k -> 0 <= k < 256 ->
  (parent_process kernel child_pid st).1.1 = Exited k.
Proof.
  intros Hk Hrv Hout Hrange.
  destruct (parent_process_exit kernel child_pid st) as (r' & w'' & Hk' & ->).
  rewrite Hk in Hk'. injection Hk' as <- <-.
  rewrite (proj2 (Z.eqb_neq _ _) Hrv), Hout.
  f_equal. by apply WaitStatusTheory.exited_spec.
Qed.

Lemma sandbox_parent_exit_signaled {world} (kernel : syscall -> world -> reply * world)
    child_pid st r w' s core :
  kernel (SysWaitpid child_pid) (p_world st) = (r, w') ->
  rv r <> -1 -> rout r = signaled s core -> 1 <= s <= 126 ->
  (parent_process kernel child_pid st).1.1 = Exited 0.
Proof.
  intros Hk Hrv Hout Hrange.
  destruct (parent_process_exit kernel child_pid st) as (r' & w'' & Hk' & ->).
  rewrite Hk in Hk'. injection Hk' as <- <-.
  rewrite (proj2 (Z.eqb_neq _ _) Hrv), Hout.
  f_equal. by apply WaitStatusTheory.signaled_spec.
Qed.

(** C1 at a child killed by SIGTERM: the status word is that of a
    signalled child, the clone-based launcher turns it into 143, and the
    parent of nsi-sandbox exits with 0. *)
Theorem sandbox_parent_exit_after_sigterm :
  (run (main (quiet_kernel 4242 (signaled SIGTERM false)) demo_opts demo_cmd)
       tt []).1 = Exited 0
  /\ WIFSIGNALED (signaled SIGTERM false) = true
  /\ WTERMSIG (signaled SIGTERM false) = SIGTERM
  /\ Launcher.exit_status (signaled SIGTERM false) = 128 + SIGTERM.
Proof. by vm_compute. Qed.

End LauncherClaims.

(* ===================================================================== *)
(** ** Buffers: lengths, slices, 32-bit words *)
(* ===================================================================== *)

Module BufTheory.
Import Buf.

Lemma len_app (b c : list byte) : len (b ++ c) = (len b + len c)%N.
Proof. unfold len. rewrite length_app. lia. Qed.

Lemma slice_app_l (b c : list byte) (start stop : N) :
  (stop <= len b)%N -> slice (b ++ c) start stop = slice b start stop.
Proof.
  unfold slice, len. intros H.
  destruct (decide (start <= stop)%N) as [Hle|Hgt].
  - rewrite drop_app_le by lia. rewrite take_app_le; [done|].
    rewrite length_drop. lia.
  - by replace (N.to_nat (stop - start)) with 0%nat by lia.
Qed.

Lemma slice_to_end (b : list byte) (start : N) :
  slice b start (len b) = drop (N.to_nat start) b.
Proof.
  unfold slice, len. apply take_ge. rewrite length_drop. lia.
Qed.

Lemma slice_prefix (b c : list byte) :
  slice (b ++ c) 0 (len b) = b.
Proof.
  unfold slice, len. rewrite N.sub_0_r, Nat2N.id.
  change (N.to_nat 0) with 0%nat. rewrite drop_0.
  by rewrite take_app_length.
Qed.

Lemma byte_at_app_l (b c : list byte) i :
  (i < length b)%nat -> byte_at (b ++ c) i = byte_at b i.
Proof. intros H. unfold byte_at. by rewrite lookup_app_l. Qed.

Lemma readUInt32BE_app_l (b c : list byte) off :
  (off + 4 <= length b)%nat -> readUInt32BE (b ++ c) off = readUInt32BE b off.
Proof.
  intros H. unfold readUInt32BE. by rewrite !byte_at_app_l by lia.
Qed.

Lemma to_N_byte_of_N n : Byte.to_N (byte_of_N n) = (n mod 256)%N.
Proof.
  unfold byte_of_N. destruct (Byte.of_N (n mod 256)) as [b|] eqn:Hb.
  - by apply Byte.to_of_N.
  - apply Byte.of_N_None_iff in Hb.
    pose proof (N.mod_upper_bound n 256). lia.
Qed.

(** Reading back the word that was written. *)
Lemma read_write_UInt32BE (n : N) (w rest : list byte) :
  writeUInt32BE n = Some w -> readUInt32BE (w ++ rest) 0 = n.
Proof.
  unfold writeUInt32BE. destruct (n <? 4294967296)%N eqn:Hn; [|done].
  intros [= <-]. apply N.ltb_lt in Hn.
  unfold readUInt32BE, byte_at.
  cbn [lookup list_lookup app Nat.add default from_option id].
  rewrite !to_N_byte_of_N.
  assert (n / 16777216 < 256)%N as Hc by (apply N.Div0.div_lt_upper_bound; lia).
  rewrite (N.mod_small (n / 16777216) 256) by done.
  pose proof (N.div_mod' n 256) as H0.
  pose proof (N.div_mod' (n / 256) 256) as H1.
  pose proof (N.div_mod' (n / 65536) 256) as H2.
  replace (n / 256 / 256)%N with (n / 65536)%N in H1 by (by rewrite N.Div0.div_div).
  replace (n / 65536 / 256)%N with (n / 16777216)%N in H2 by (by rewrite N.Div0.div_div).
  revert H0 H1 H2 Hc.
  generalize (n mod 256)%N ((n / 256) mod 256)%N ((n / 65536) mod 256)%N.
  generalize (n / 256)%N (n / 65536)%N (n / 16777216)%N.
  intros. lia.
Qed.

Lemma writeUInt32BE_length n w : writeUInt32BE n = Some w -> length w = 4%nat.
Proof.
  unfold writeUInt32BE. destruct (n <? 4294967296)%N; [|done]. by intros [= <-].
Qed.

Lemma to_from_string s : to_string (from_string s) = s.
Proof. apply string_of_list_byte_of_string. Qed.

End BufTheory.

(* ===================================================================== *)
(** ** JSON: what is written is read back *)
(* ===================================================================== *)

Module JsonTheory.
Import Json.

(** *** Strings *)

Lemma append_cons x (a b : string) : String x a +:+ b = String x (a +:+ b).
Proof. done. Qed.

Lemma append_nil_l (b : string) : "" +:+ b = b.
Proof. done. Qed.

Lemma append_assoc (a b c : string) : (a +:+ b) +:+ c = a +:+ (b +:+ c).
Proof.
  induction a as [|x a IH]; [done|]. by rewrite !append_cons, IH.
Qed.

Lemma append_nil_r (a : string) : a +:+ "" = a.
Proof. induction a as [|x a IH]; [done|]. by rewrite append_cons, IH. Qed.

Lemma length_append (a b : string) :
  String.length (a +:+ b) = (String.length a + String.length b)%nat.
Proof. induction a as [|x a IH]; [done|]. rewrite append_cons. simpl. by rewrite IH. Qed.

Ltac norm_app :=
  repeat first [rewrite append_assoc | rewrite append_cons | rewrite append_nil_l].

(** *** Strings between quotes *)

Lemma parse_chars_escape_char c r :
  parse_chars (escape_char c +:+ r)
  = '(cs, r') ← parse_chars r; Some (String c cs, r').
Proof. destruct c as [[] [] [] [] [] [] [] []]; reflexivity. Qed.

Lemma parse_chars_escape s r :
  parse_chars (escape s +:+ String "034" r) = Some (s, r).
Proof.
  induction s as [|c s IH]; [done|].
  cbn [escape]. rewrite append_assoc, parse_chars_escape_char, IH. done.
Qed.

Lemma quote_append s r :
  quote s +:+ r = String "034" (escape s +:+ String "034" r).
Proof. unfold quote. by norm_app. Qed.


(** *** Numbers *)

(** What may follow a number: the end of the text, or a character that
    no part of a number starts with. *)
Definition stops (rest : string) : bool :=
  match rest with
  | String c _ =>
      negb (is_digit c || Ascii.eqb c "." || Ascii.eqb c "e" || Ascii.eqb c "E"
            || Ascii.eqb c "+" || Ascii.eqb c "-")
  | EmptyString => true
  end.

Lemma stops_inv c r :
  stops (String c r) = true ->
  is_digit c = false /\ Ascii.eqb c "." = false /\ Ascii.eqb c "e" = false
  /\ Ascii.eqb c "E" = false /\ Ascii.eqb c "+" = false /\ Ascii.eqb c "-" = false.
Proof.
  unfold stops. rewrite negb_true_iff, !orb_false_iff. tauto.
Qed.

Lemma span_digits_app s rest :
  stops rest = true ->
  span_digits (s +:+ rest) = ((span_digits s).1, (span_digits s).2 +:+ rest).
Proof.
  intros Hrest. induction s as [|c s IH].
  - destruct rest as [|c r]; [done|].
    apply stops_inv in Hrest as (Hd & _).
    rewrite append_nil_l. cbn [span_digits fst snd]. by rewrite Hd.
  - rewrite append_cons. cbn [span_digits]. destruct (is_digit c); [|done].
    rewrite IH. by destruct (span_digits s).
Qed.

Lemma parse_sign_app s rest :
  stops rest = true ->
  parse_sign (s +:+ rest) = ((parse_sign s).1, (parse_sign s).2 +:+ rest).
Proof.
  intros Hrest. destruct s as [|c s].
  - destruct rest as [|c r]; [done|].
    apply stops_inv in Hrest as (_ & _ & _ & _ & _ & Hm).
    rewrite append_nil_l. cbn [parse_sign fst snd]. by rewrite Hm.
  - rewrite append_cons. cbn [parse_sign]. by destruct (Ascii.eqb c "-").
Qed.

Lemma parse_exp_sign_app s rest :
  stops rest = true ->
  parse_exp_sign (s +:+ rest) = ((parse_exp_sign s).1, (parse_exp_sign s).2 +:+ rest).
Proof.
  intros Hrest. destruct s as [|c s].
  - destruct rest as [|c r]; [done|].
    apply stops_inv in Hrest as (_ & _ & _ & _ & Hp & Hm).
    rewrite append_nil_l. cbn [parse_exp_sign fst snd]. by rewrite Hp, Hm.
  - rewrite append_cons. cbn [parse_exp_sign].
    by destruct (Ascii.eqb c "+" || Ascii.eqb c "-").
Qed.

Lemma parse_int_app s rest x r :
  stops rest = true -> parse_int s = Some (x, r) ->
  parse_int (s +:+ rest) = Some (x, r +:+ rest).
Proof.
  intros Hrest. destruct s as [|c s]; [done|].
  rewrite append_cons. unfold parse_int.
  destruct (Ascii.eqb c "0"); [by intros [= <- <-]|].
  rewrite <- append_cons, span_digits_app by done.
  destruct (span_digits (String c s)) as [ds r']. cbn [fst snd].
  destruct (Str.is_empty ds); [done|]. by intros [= <- <-].
Qed.

Lemma parse_frac_app s rest x r :
  stops rest = true -> parse_frac s = Some (x, r) ->
  parse_frac (s +:+ rest) = Some (x, r +:+ rest).
Proof.
  intros Hrest. destruct s as [|c s].
  - intros [= <- <-]. destruct rest as [|c r]; [done|].
    apply stops_inv in Hrest as (_ & Hdot & _).
    rewrite !append_nil_l. cbn [parse_frac]. by rewrite Hdot.
  - rewrite append_cons. unfold parse_frac.
    destruct (Ascii.eqb c "."); [|by intros [= <- <-]].
    rewrite span_digits_app by done.
    destruct (span_digits s) as [ds r']. cbn [fst snd].
    destruct (Str.is_empty ds); [done|]. by intros [= <- <-].
Qed.

Lemma parse_exp_app s rest x r :
  stops rest = true -> parse_exp s = Some (x, r) ->
  parse_exp (s +:+ rest) = Some (x, r +:+ rest).
Proof.
  intros Hrest. destruct s as [|c s].
  - intros [= <- <-]. destruct rest as [|c r]; [done|].
    apply stops_inv in Hrest as (_ & _ & He & HE & _).
    rewrite !append_nil_l. cbn [parse_exp]. by rewrite He, HE.
  - rewrite append_cons. unfold parse_exp.
    destruct (Ascii.eqb c "e" || Ascii.eqb c "E"); [|by intros [= <- <-]].
    rewrite parse_exp_sign_app by done.
    destruct (parse_exp_sign s) as [sg s'']. cbn [fst snd].
    rewrite span_digits_app by done.
    destruct (span_digits s'') as [ds r']. cbn [fst snd].
    destruct (Str.is_empty ds); [done|]. by intros [= <- <-].
Qed.

Lemma parse_number_app s rest n r :
  stops rest = true -> parse_number s = Some (n, r) ->
  parse_number (s +:+ rest) = Some (n, r +:+ rest).
Proof.
  intros Hrest. unfold parse_number.
  rewrite parse_sign_app by done.
  destruct (parse_sign s) as [sg s1]. cbn [fst snd].
  destruct (parse_int s1) as [[int s2]|] eqn:Hint; [|done].
  rewrite (parse_int_app _ _ _ _ Hrest Hint). cbn [mbind option_bind].
  destruct (parse_frac s2) as [[frac s3]|] eqn:Hfrac; [|done].
  rewrite (parse_frac_app _ _ _ _ Hrest Hfrac). cbn [mbind option_bind].
  destruct (parse_exp s3) as [[exp s4]|] eqn:Hexp; [|done].
  rewrite (parse_exp_app _ _ _ _ Hrest Hexp). cbn [mbind option_bind].
  by intros [= <- <-].
Qed.

(** A number starts with a minus sign or a digit. *)
Definition number_head (c : ascii) : bool := Ascii.eqb c "-" || is_digit c.

Lemma span_digits_head c s :
  Str.is_empty (span_digits (String c s)).1 = false -> is_digit c = true.
Proof. cbn [span_digits]. destruct (is_digit c); [done|]. by cbn. Qed.

Lemma parse_number_head s n r :
  parse_number s = Some (n, r) ->
  exists c s', s = String c s' /\ number_head c = true.
Proof.
  unfold parse_number, number_head. destruct s as [|c s]; [done|].
  intros H. exists c, s. split; [done|].
  cbn [parse_sign] in H. destruct (Ascii.eqb c "-") eqn:Hm; [done|].
  cbn [parse_int] in H. destruct (Ascii.eqb c "0") eqn:H0.
  - apply Ascii.eqb_eq in H0 as ->. done.
  - pose proof (span_digits_head c s) as Hd.
    destruct (span_digits (String c s)) as [ds r']. cbn [fst] in Hd.
    destruct (Str.is_empty ds); [done|]. by rewrite Hd.
Qed.

Lemma parse_value_number fuel c s :
  number_head c = true ->
  parse_value (S fuel) (String c s)
  = '(n, r) ← parse_number (String c s); Some (JNumber n, r).
Proof.
  unfold number_head.
  destruct c as [[] [] [] [] [] [] [] []]; try discriminate; reflexivity.
Qed.


(** *** Values *)

(** Induction on a value, with the property at hand for every element of
    an array and every member of an object. *)
Lemma json_ind (P : json -> Prop) :
  P JNull -> (forall b, P (JBool b)) -> (forall l, P (JNumber l)) ->
  (forall s, P (JString s)) ->
  (forall items, Forall P items -> P (JArray items)) ->
  (forall fields, Forall (fun kv => P kv.2) fields -> P (JObject fields)) ->
  forall v, P v.
Proof.
  intros Hnull Hbool Hnum Hstr Harr Hobj.
  fix IH 1. intros [| b | l | s | items | fields].
  - exact Hnull.
  - apply Hbool.
  - apply Hnum.
  - apply Hstr.
  - apply Harr. induction items as [|x items IHitems]; constructor.
    + apply IH.
    + exact IHitems.
  - apply Hobj. induction fields as [|[k x] fields IHfields]; constructor.
    + apply IH.
    + exact IHfields.
Qed.

(** The representation invariant: a number is its JSON text, the keys of
    an object are distinct. *)
Definition number_ok (lexeme : string) : bool :=
  bool_decide (parse_number lexeme = Some (lexeme, "")).

Fixpoint wf (v : json) : bool :=
  match v with
  | JNumber lexeme => number_ok lexeme
  | JArray items => forallb wf items
  | JObject fields =>
      bool_decide (NoDup (map fst fields)) && forallb (fun kv => wf (snd kv)) fields
  | _ => true
  end.

(** The fuel a value needs. *)
Fixpoint size (v : json) : nat :=
  match v with
  | JArray items => S (list_sum (map (fun x => S (size x)) items))
  | JObject fields => S (list_sum (map (fun kv => S (size (snd kv))) fields))
  | _ => 1
  end.

Lemma skip_ws_idemp s : skip_ws (skip_ws s) = skip_ws s.
Proof.
  induction s as [|c s IH]; [done|].
  cbn [skip_ws]. destruct (is_ws c) eqn:Hc; [done|].
  cbn [skip_ws]. by rewrite Hc.
Qed.

Lemma skip_ws_spaces n s : skip_ws (spaces n +:+ s) = skip_ws s.
Proof. induction n as [|n IH]; [done|]. cbn [spaces]. by rewrite append_cons. Qed.

Lemma skip_ws_newline s : skip_ws (newline +:+ s) = skip_ws s.
Proof. done. Qed.

Lemma parse_value_skip_ws fuel s : parse_value fuel (skip_ws s) = parse_value fuel s.
Proof. destruct fuel; [done|]. cbn [parse_value]. by rewrite skip_ws_idemp. Qed.

Lemma parse_elements_skip_ws fuel s :
  parse_elements fuel (skip_ws s) = parse_elements fuel s.
Proof. destruct fuel; [done|]. cbn [parse_elements]. by rewrite parse_value_skip_ws. Qed.

Lemma parse_members_skip_ws fuel acc s :
  parse_members fuel acc (skip_ws s) = parse_members fuel acc s.
Proof. destruct fuel; [done|]. cbn [parse_members]. by rewrite skip_ws_idemp. Qed.


Lemma expect_eq c s : expect c (String c s) = Some s.
Proof. unfold expect. by rewrite decide_True. Qed.

Lemma expect_ne c c' s : c' <> c -> expect c (String c' s) = None.
Proof. intros. unfold expect. by rewrite decide_False. Qed.

Lemma parse_value_string fuel s :
  parse_value (S fuel) (String "034" s) = '(cs, r) ← parse_chars s; Some (JString cs, r).
Proof. done. Qed.

Lemma parse_value_array fuel s :
  parse_value (S fuel) (String "[" s)
  = match expect "]" (skip_ws s) with
    | Some r => Some (JArray [], r)
    | None => '(vs, r) ← parse_elements fuel s; Some (JArray vs, r)
    end.
Proof. done. Qed.

Lemma parse_value_object fuel s :
  parse_value (S fuel) (String "{" s)
  = match expect "}" (skip_ws s) with
    | Some r => Some (JObject [], r)
    | None => '(fs, r) ← parse_members fuel [] s; Some (JObject fs, r)
    end.
Proof. done. Qed.

Lemma serialize_array indent x xs :
  serialize indent (JArray (x :: xs))
  = "[" +:+ newline
    +:+ join_lines (indent + 2) (map (serialize (indent + 2)) (x :: xs))
    +:+ newline +:+ spaces indent +:+ "]".
Proof. done. Qed.

Lemma serialize_object indent kv fields :
  serialize indent (JObject (kv :: fields))
  = "{" +:+ newline
    +:+ join_lines (indent + 2)
          (map (fun kv => quote (fst kv) +:+ ": " +:+ serialize (indent + 2) (snd kv))
               (kv :: fields))
    +:+ newline +:+ spaces indent +:+ "}".
Proof. done. Qed.

Lemma size_array items :
  size (JArray items) = S (list_sum (map (fun x => S (size x)) items)).
Proof. done. Qed.

Lemma size_object fields :
  size (JObject fields) = S (list_sum (map (fun kv => S (size (snd kv))) fields)).
Proof. done. Qed.

Lemma size_pos v : (1 <= size v)%nat.
Proof. destruct v; cbn; lia. Qed.

(** The text of a value starts with a character that is neither white
    space nor a closing bracket. *)
Lemma number_head_spec c :
  number_head c = true -> is_ws c = false /\ c <> "]"%char /\ c <> "}"%char.
Proof.
  unfold number_head.
  destruct c as [[] [] [] [] [] [] [] []]; try discriminate; done.
Qed.

Lemma number_ok_spec l : number_ok l = true -> parse_number l = Some (l, "").
Proof. unfold number_ok. by rewrite bool_decide_eq_true. Qed.

Lemma serialize_head indent v r :
  wf v = true ->
  exists c t, serialize indent v +:+ r = String c t
    /\ is_ws c = false /\ c <> "]"%char /\ c <> "}"%char.
Proof.
  destruct v as [| [] | l | s | [|x xs] | [|kv fields]]; intros Hwf;
    try (eexists _, _; split; [reflexivity | done]).
  apply number_ok_spec, parse_number_head in Hwf as (c & s' & -> & Hc).
  exists c, (s' +:+ r). split; [done|]. by apply number_head_spec.
Qed.


Lemma join_lines_one indent l : join_lines indent [l] = spaces indent +:+ l.
Proof. done. Qed.

Lemma join_lines_more indent l l' ls :
  join_lines indent (l :: l' :: ls)
  = spaces indent +:+ l +:+ "," +:+ newline +:+ join_lines indent (l' :: ls).
Proof. done. Qed.

Lemma join_lines_cons_map {A} indent (f : A -> string) l x xs :
  join_lines indent (l :: map f (x :: xs))
  = spaces indent +:+ l +:+ "," +:+ newline +:+ join_lines indent (map f (x :: xs)).
Proof. done. Qed.

Lemma set_field_fresh k v acc :
  k ∉ map fst acc -> set_field k v acc = acc ++ [(k, v)].
Proof.
  induction acc as [|[k' v'] acc IH]; [done|].
  cbn [map fst]. rewrite not_elem_of_cons. intros [Hne Hacc].
  cbn [set_field]. rewrite decide_False by done. cbn [app]. by rewrite IH.
Qed.

(** What is proved of a value: its text, followed by anything a value may
    be followed by, parses to the value and leaves what follows. *)
Definition reparsed (v : json) : Prop :=
  forall fuel indent rest,
    (size v <= fuel)%nat -> wf v = true -> stops rest = true ->
    parse_value fuel (serialize indent v +:+ rest) = Some (v, rest).

Lemma parse_elements_lines indent items :
  Forall reparsed items -> items <> [] ->
  forall fuel tail rest,
    (list_sum (map (fun x => S (size x)) items) <= fuel)%nat ->
    forallb wf items = true ->
    stops tail = true -> skip_ws tail = String "]" rest ->
    parse_elements fuel (join_lines indent (map (serialize indent) items) +:+ tail)
    = Some (items, rest).
Proof.
  induction 1 as [|x items Hx _ IH]; [done|]. intros _ fuel tail rest Hfuel Hwf Htail Hclose.
  cbn [map list_sum fold_right forallb] in Hfuel, Hwf. apply andb_true_iff in Hwf as [Hwfx Hwf].
  destruct fuel as [|fuel]; [lia|]. cbn [parse_elements].
  destruct items as [|y items].
  - cbn [map]. rewrite join_lines_one, append_assoc.
    rewrite <- parse_value_skip_ws, skip_ws_spaces, parse_value_skip_ws.
    rewrite Hx by (done || lia). cbn [mbind option_bind]. by rewrite Hclose.
  - rewrite map_cons, join_lines_cons_map. norm_app.
    rewrite <- parse_value_skip_ws, skip_ws_spaces, parse_value_skip_ws.
    rewrite Hx by (done || lia). cbn [mbind option_bind skip_ws is_ws].
    rewrite <- parse_elements_skip_ws.
    rewrite skip_ws_newline.
    rewrite parse_elements_skip_ws.
    rewrite (IH ltac:(done) fuel tail rest)
      by (done || (cbn [map list_sum fold_right] in *; lia)). done.
Qed.


Lemma parse_members_lines indent fields :
  Forall (fun kv => reparsed kv.2) fields -> fields <> [] ->
  forall fuel acc tail rest,
    (list_sum (map (fun kv => S (size (snd kv))) fields) <= fuel)%nat ->
    forallb (fun kv => wf (snd kv)) fields = true ->
    NoDup (map fst (acc ++ fields)) ->
    stops tail = true -> skip_ws tail = String "}" rest ->
    parse_members fuel acc
      (join_lines indent
         (map (fun kv => quote (fst kv) +:+ ": " +:+ serialize indent (snd kv)) fields)
       +:+ tail)
    = Some (acc ++ fields, rest).
Proof.
  induction 1 as [|[k x] fields Hx _ IH]; [done|].
  intros _ fuel acc tail rest Hfuel Hwf Hkeys Htail Hclose.
  cbn [map list_sum fold_right forallb fst snd] in Hfuel, Hwf, Hx.
  apply andb_true_iff in Hwf as [Hwfx Hwf].
  assert (k ∉ map fst acc) as Hfresh.
  { rewrite map_app in Hkeys. apply NoDup_app in Hkeys as (_ & Hkeys & _).
    intros Hin. apply (Hkeys _ Hin). cbn. left. }
  destruct fuel as [|fuel]; [lia|]. cbn [parse_members].
  destruct fields as [|kv fields].
  - cbn [map fst snd]. rewrite join_lines_one. norm_app.
    rewrite skip_ws_spaces, quote_append. cbn [skip_ws is_ws].
    rewrite expect_eq. cbn [mbind option_bind].
    rewrite parse_chars_escape. cbn [mbind option_bind skip_ws is_ws].
    rewrite expect_eq. cbn [mbind option_bind].
    rewrite <- parse_value_skip_ws. cbn [skip_ws is_ws]. rewrite parse_value_skip_ws.
    rewrite Hx by (done || lia). cbn [mbind option_bind].
    by rewrite Hclose, set_field_fresh.
  - rewrite map_cons, join_lines_cons_map. cbn [fst snd]. norm_app.
    rewrite skip_ws_spaces, quote_append. cbn [skip_ws is_ws].
    rewrite expect_eq. cbn [mbind option_bind].
    rewrite parse_chars_escape. cbn [mbind option_bind skip_ws is_ws].
    rewrite expect_eq. cbn [mbind option_bind].
    rewrite <- parse_value_skip_ws. cbn [skip_ws is_ws]. rewrite parse_value_skip_ws.
    rewrite Hx by (done || lia). cbn [mbind option_bind skip_ws is_ws].
    rewrite <- parse_members_skip_ws.
    rewrite skip_ws_newline.
    rewrite parse_members_skip_ws, set_field_fresh by done.
    rewrite (IH ltac:(done) fuel (acc ++ [(k, x)]) tail rest)
      by (done || (cbn [map list_sum fold_right] in *; lia)
               || by rewrite <- (assoc_L (++))).
    by rewrite <- (assoc_L (++)).
Qed.

Lemma stops_newline s : stops (newline +:+ s) = true.
Proof. done. Qed.

Lemma skip_ws_join_lines indent l ls tail :
  exists t, skip_ws (join_lines indent (l :: ls) +:+ tail) = skip_ws (l +:+ t).
Proof.
  destruct ls as [|l' ls].
  - exists tail. by rewrite join_lines_one, append_assoc, skip_ws_spaces.
  - eexists. by rewrite join_lines_more, !append_assoc, skip_ws_spaces.
Qed.

Lemma skip_ws_head c s : is_ws c = false -> skip_ws (String c s) = String c s.
Proof. intros H. cbn [skip_ws]. by rewrite H. Qed.

Lemma parse_value_serialize v : reparsed v.
Proof.
  induction v as [| b | l | s | items IH | fields IH] using json_ind;
    intros fuel indent rest Hfuel Hwf Hrest;
    (destruct fuel as [|fuel];
       [rewrite ?size_array, ?size_object in Hfuel; cbn [size] in Hfuel; lia|]).
  - done.
  - by destruct b.
  - apply number_ok_spec in Hwf.
    destruct (parse_number_head _ _ _ Hwf) as (c & s' & -> & Hc).
    change (serialize indent (JNumber (String c s'))) with (String c s').
    rewrite append_cons, (parse_value_number _ _ _ Hc), <- append_cons.
    by rewrite (parse_number_app _ _ _ _ Hrest Hwf).
  - change (serialize indent (JString s)) with (quote s).
    by rewrite quote_append, parse_value_string, parse_chars_escape.
  - destruct items as [|x xs]; [done|].
    rewrite size_array in Hfuel. change (wf (JArray (x :: xs))) with (forallb wf (x :: xs)) in Hwf.
    rewrite serialize_array. norm_app. rewrite parse_value_array.
    rewrite <- parse_elements_skip_ws, skip_ws_newline, parse_elements_skip_ws.
    destruct (skip_ws_join_lines (indent + 2) (serialize (indent + 2) x)
                (map (serialize (indent + 2)) xs)
                (newline +:+ spaces indent +:+ String "]" rest)) as [t Ht].
    rewrite map_cons, Ht.
    destruct (serialize_head (indent + 2) x t) as (c & t' & -> & Hws & Hc & _).
    { cbn [forallb] in Hwf. by apply andb_true_iff in Hwf as [? _]. }
    rewrite (skip_ws_head _ _ Hws), (expect_ne _ _ _ Hc).
    rewrite <- map_cons.
    rewrite (parse_elements_lines _ _ IH ltac:(done) fuel _ rest); [done | lia | done | done |].
    by rewrite skip_ws_newline, skip_ws_spaces.
  - destruct fields as [|[k x] fields]; [done|].
    rewrite size_object in Hfuel.
    change (wf (JObject ((k, x) :: fields)))
      with (bool_decide (NoDup (map fst ((k, x) :: fields)))
            && forallb (fun kv => wf (snd kv)) ((k, x) :: fields)) in Hwf.
    apply andb_true_iff in Hwf as [Hkeys Hwf]. apply bool_decide_eq_true in Hkeys.
    rewrite serialize_object. norm_app. rewrite parse_value_object.
    rewrite <- parse_members_skip_ws, skip_ws_newline, parse_members_skip_ws.
    destruct (skip_ws_join_lines (indent + 2)
                (quote k +:+ ": " +:+ serialize (indent + 2) x)
                (map (fun kv => quote (fst kv) +:+ ": " +:+ serialize (indent + 2) (snd kv))
                     fields)
                (newline +:+ spaces indent +:+ String "}" rest)) as [t Ht].
    assert (expect "}" (skip_ws ((quote k +:+ ": " +:+ serialize (indent + 2) x) +:+ t))
            = None) as Hopen.
    { by rewrite append_assoc, quote_append. }
    rewrite <- Ht in Hopen. rewrite map_cons. cbn [fst snd]. rewrite Hopen.
    rewrite (parse_members_lines (indent + 2) ((k, x) :: fields) IH ltac:(done)
               fuel [] _ rest); [done | lia | done | done | done |].
    by rewrite skip_ws_newline, skip_ws_spaces.
Qed.


(** *** Fuel *)

Lemma length_spaces n : String.length (spaces n) = n.
Proof. induction n as [|n IH]; [done|]. cbn. by rewrite IH. Qed.

Lemma length_join_lines indent lines :
  (list_sum (map (fun l => indent + String.length l) lines)
   <= String.length (join_lines indent lines))%nat.
Proof.
  induction lines as [|l [|l' ls] IH].
  - done.
  - rewrite join_lines_one, length_append, length_spaces.
    cbn [map list_sum fold_right]. lia.
  - rewrite join_lines_more, !length_append, length_spaces.
    cbn [map list_sum fold_right] in *. lia.
Qed.

Lemma size_serialize v indent :
  wf v = true -> (size v <= 2 * String.length (serialize indent v))%nat.
Proof.
  revert indent.
  induction v as [| b | l | s | items IH | fields IH] using json_ind;
    intros indent Hwf.
  - cbn. lia.
  - destruct b; cbn; lia.
  - apply number_ok_spec, parse_number_head in Hwf as (c & s' & -> & _). cbn. lia.
  - cbn. lia.
  - destruct items as [|x xs]; [cbn; lia|].
    rewrite size_array, serialize_array, !length_append, length_spaces.
    unfold newline. cbn [String.length].
    change (wf (JArray (x :: xs))) with (forallb wf (x :: xs)) in Hwf.
    pose proof (length_join_lines (indent + 2)
                  (map (serialize (indent + 2)) (x :: xs))) as Hlen.
    assert (list_sum (map (fun x => S (size x)) (x :: xs))
            <= 2 * list_sum (map (fun l => indent + 2 + String.length l)
                               (map (serialize (indent + 2)) (x :: xs))))%nat; [|lia].
    clear Hlen. induction IH as [|y ys Hy _ IHys]; [done|].
    cbn [forallb] in Hwf. apply andb_true_iff in Hwf as [Hwfy Hwf].
    specialize (Hy (indent + 2)%nat Hwfy). specialize (IHys Hwf).
    unfold list_sum in *. cbn [map fold_right]. lia.
  - destruct fields as [|kv fields]; [cbn; lia|].
    rewrite size_object, serialize_object, !length_append, length_spaces.
    unfold newline. cbn [String.length].
    change (wf (JObject (kv :: fields)))
      with (bool_decide (NoDup (map fst (kv :: fields)))
            && forallb (fun kv => wf (snd kv)) (kv :: fields)) in Hwf.
    apply andb_true_iff in Hwf as [_ Hwf].
    pose proof (length_join_lines (indent + 2)
                  (map (fun kv => quote (fst kv) +:+ ": " +:+ serialize (indent + 2) (snd kv))
                       (kv :: fields))) as Hlen.
    assert (list_sum (map (fun kv => S (size (snd kv))) (kv :: fields))
            <= 2 * list_sum
                   (map (fun l => indent + 2 + String.length l)
                      (map (fun kv => quote (fst kv) +:+ ": "
                                      +:+ serialize (indent + 2) (snd kv))
                           (kv :: fields))))%nat; [|lia].
    clear Hlen. induction IH as [|y ys Hy _ IHys]; [done|].
    cbn [forallb] in Hwf. apply andb_true_iff in Hwf as [Hwfy Hwf].
    specialize (Hy (indent + 2)%nat Hwfy). specialize (IHys Hwf).
    unfold list_sum in *. cbn [map fold_right]. rewrite !length_append. lia.
Qed.

(** [JSON.parse(JSON.stringify(v, null, 2))] is [v] again. *)
Theorem JSON_parse_stringify v :
  wf v = true -> JSON_parse (JSON_stringify v) = Some v.
Proof.
  intros Hwf. unfold JSON_parse, JSON_stringify.
  pose proof (parse_value_serialize v (2 * String.length (serialize 0 v) + 2)%nat 0%nat "")
    as Hparse.
  rewrite append_nil_r in Hparse. rewrite Hparse; [done | | done | done].
  pose proof (size_serialize v 0 Hwf). lia.
Qed.


(** *** Values that stay well formed *)

Fixpoint all_digits (s : string) : bool :=
  match s with
  | String c s' => is_digit c && all_digits s'
  | EmptyString => true
  end.

Lemma span_digits_all s : all_digits s = true -> span_digits s = (s, "").
Proof.
  induction s as [|c s IH]; [done|]. cbn [all_digits span_digits].
  intros [Hc Hs]%andb_true_iff. by rewrite Hc, IH.
Qed.

Lemma is_digit_not_minus c : is_digit c = true -> Ascii.eqb c "-" = false.
Proof. destruct c as [[] [] [] [] [] [] [] []]; try discriminate; done. Qed.

Lemma number_ok_digits c t :
  is_digit c = true -> Ascii.eqb c "0" = false -> all_digits t = true ->
  number_ok (String c t) = true.
Proof.
  intros Hc Hnz Ht. unfold number_ok, parse_number. apply bool_decide_eq_true.
  cbn [parse_sign]. rewrite (is_digit_not_minus _ Hc).
  cbn [parse_int]. rewrite Hnz, span_digits_all by (cbn [all_digits]; by rewrite Hc, Ht).
  unfold Str.is_empty. rewrite bool_decide_eq_false_2 by done.
  cbn [mbind option_bind parse_frac parse_exp]. norm_app. by rewrite !append_nil_r.
Qed.

Lemma is_digit_pretty_N_char n : is_digit (pretty_N_char n) = true.
Proof.
  destruct n as [|p]; [done|]. do 4 (try destruct p as [p|p|]); done.
Qed.

Lemma pretty_N_char_nonzero n :
  (0 < n)%N -> Ascii.eqb (pretty_N_char n) "0" = false.
Proof.
  destruct n as [|p]; [lia|]. intros _. do 4 (try destruct p as [p|p|]); done.
Qed.

Lemma pretty_N_go_digits x :
  forall s, (0 < x)%N -> all_digits s = true ->
  exists c t, pretty_N_go x s = String c t
    /\ is_digit c = true /\ Ascii.eqb c "0" = false /\ all_digits t = true.
Proof.
  induction (N.lt_wf_0 x) as [x _ IH]. intros s Hx Hs.
  rewrite pretty_N_go_step by done.
  destruct (decide (x `div` 10 = 0)%N) as [Hsmall|Hbig].
  - rewrite Hsmall, pretty_N_go_0. eexists _, _. split; [done|].
    split_and!; [apply is_digit_pretty_N_char | | done].
    apply pretty_N_char_nonzero.
    pose proof (N.div_mod x 10 ltac:(done)) as Hx10.
    rewrite Hsmall, N.mul_0_r, N.add_0_l in Hx10. by rewrite <- Hx10.
  - apply IH.
    + by apply N.div_lt.
    + by apply N.neq_0_lt_0.
    + cbn [all_digits]. by rewrite is_digit_pretty_N_char.
Qed.

Lemma number_ok_pretty (n : N) : number_ok (pretty n) = true.
Proof.
  unfold pretty, pretty_N. case_decide as Hn; [done|].
  destruct (pretty_N_go_digits n "") as (c & t & -> & Hc & Hnz & Ht); [lia | done |].
  by apply number_ok_digits.
Qed.

Lemma elem_of_set_field_keys k' k v fields :
  k' ∈ map fst (set_field k v fields) <-> k' = k \/ k' ∈ map fst fields.
Proof.
  induction fields as [|[k0 v0] fields IH].
  - cbn. rewrite list_elem_of_singleton, elem_of_nil. tauto.
  - cbn [set_field]. case_decide as Hk; cbn [map fst].
    + subst k0. rewrite !elem_of_cons. tauto.
    + rewrite !elem_of_cons, IH. tauto.
Qed.

Lemma NoDup_set_field k v fields :
  NoDup (map fst fields) -> NoDup (map fst (set_field k v fields)).
Proof.
  induction fields as [|[k0 v0] fields IH].
  - intros _. cbn. apply NoDup_singleton.
  - cbn [set_field map fst]. intros [Hk0 Hfields]%NoDup_cons.
    case_decide as Hk; cbn [map fst]; apply NoDup_cons; split; try done.
    + rewrite elem_of_set_field_keys. intros [->|?]; done.
    + by apply IH.
Qed.

Lemma wf_set_field k v fields :
  wf v = true -> wf (JObject fields) = true ->
  wf (JObject (set_field k v fields)) = true.
Proof.
  intros Hv.
  change (wf (JObject ?fs))
    with (bool_decide (NoDup (map fst fs)) && forallb (fun kv => wf (snd kv)) fs).
  rewrite !andb_true_iff, !bool_decide_eq_true.
  intros [Hkeys Hwf]. split; [by apply NoDup_set_field|].
  clear Hkeys. induction fields as [|[k0 v0] fields IH].
  - cbn. by rewrite Hv.
  - cbn [forallb snd] in Hwf. apply andb_true_iff in Hwf as [H0 Hwf].
    cbn [set_field]. case_decide; cbn [forallb snd].
    + by rewrite Hv, Hwf.
    + by rewrite H0, IH.
Qed.

End JsonTheory.

(* ===================================================================== *)
(** ** readNsiImage, whatever the chunks *)
(* ===================================================================== *)

Module ImageTheory.
Import Json Buf BufTheory Image.

(** What opening decides, read off the whole file: a rejection, or the
    header, the version and the compressed payload. *)
Definition open_whole (file : list byte) : open_error + (json * N * list byte) :=
  if (len file <? HEADER_FIXED_LEN)%N then inl IncompleteImage else
  match parse_fixed file with
  | inl e => inl e
  | inr hi =>
      let payloadOffset := (HEADER_FIXED_LEN + hi_headerJsonLen hi)%N in
      if (payloadOffset <=? len file)%N then
        match JSON_parse (to_string (slice file HEADER_FIXED_LEN payloadOffset)) with
        | None => inl HeaderJsonError
        | Some j => inr (j, hi_version hi, drop (N.to_nat payloadOffset) file)
        end
      else inl IncompleteImage
  end.

(** The same, read off the result of [readNsiImage]: the compressed
    payload is what the inflater is given, piece after piece. *)
Definition opened (r : open_result) : open_error + (json * N * list byte) :=
  match r with
  | OpenRejected e => inl e
  | Opened img later => inr (header img, version img, concat (inflater_writes img later))
  end.

(** The state of the handler between two chunks, while the promise is
    pending. *)
Definition pending (r : reader) : Prop :=
  resolved r = false /\
  match headerInfo r with
  | None => (len (buffer r) < HEADER_FIXED_LEN)%N
  | Some hi =>
      (HEADER_FIXED_LEN <= len (buffer r))%N /\
      parse_fixed (buffer r) = inr hi /\
      (len (buffer r) < HEADER_FIXED_LEN + hi_headerJsonLen hi)%N
  end.

Lemma parse_fixed_offset b hi :
  parse_fixed b = inr hi -> hi_headerOffset hi = HEADER_FIXED_LEN.
Proof.
  unfold parse_fixed. repeat case_match; try done. by intros [= <-].
Qed.

Lemma parse_fixed_app (b c : list byte) :
  (HEADER_FIXED_LEN <= len b)%N -> parse_fixed (b ++ c) = parse_fixed b.
Proof.
  intros H. unfold HEADER_FIXED_LEN, len in H. unfold parse_fixed.
  rewrite (slice_app_l b c 0 4) by (unfold len; lia).
  by rewrite !readUInt32BE_app_l by lia.
Qed.

Lemma concat_inflater_writes img later :
  concat (inflater_writes img later)
  = drop (N.to_nat (img_payloadOffset img)) (img_buffer img) ++ concat later.
Proof.
  unfold inflater_writes. rewrite concat_app, slice_to_end. f_equal.
  destruct (0 <? _)%N eqn:Hlen; simpl; [by rewrite app_nil_r|].
  apply N.ltb_ge in Hlen. unfold len in Hlen.
  by destruct (drop _ _).
Qed.

Lemma feed_pending r chunks :
  pending r -> opened (feed r chunks) = open_whole (buffer r ++ concat chunks).
Proof.
  revert r. induction chunks as [|chunk later IH]; intros r [Hres Hinfo].
  - simpl. rewrite app_nil_r. unfold open_whole.
    destruct (headerInfo r) as [hi|].
    + destruct Hinfo as (H12 & -> & Hshort).
      rewrite (proj2 (N.ltb_ge _ _) H12). simpl.
      by rewrite (proj2 (N.leb_gt _ _) Hshort).
    + by rewrite (proj2 (N.ltb_lt _ _) Hinfo).
  - cbn [feed concat]. rewrite (assoc_L (++)). unfold on_data. rewrite Hres.
    set (b := buffer r ++ chunk).
    assert (forall hi, (HEADER_FIXED_LEN <= len b)%N -> parse_fixed b = inr hi ->
      opened (match parse_header b hi with
              | Some s =>
                  match s with
                  | Reject e => OpenRejected e
                  | Resolve img => Opened img later
                  end
              | None => feed (Reader b (Some hi) false) later
              end) = open_whole (b ++ concat later)) as Hstep2.
    { intros hi H12 Hfixed. unfold parse_header.
      rewrite (parse_fixed_offset _ _ Hfixed).
      unfold open_whole. rewrite parse_fixed_app, Hfixed by done.
      rewrite len_app. rewrite (proj2 (N.ltb_ge _ _)) by lia.
      destruct (_ <=? len b)%N eqn:Hfull.
      - apply N.leb_le in Hfull.
        rewrite (proj2 (N.leb_le _ _)) by lia.
        rewrite slice_app_l by done.
        destruct (JSON_parse _) as [j|]; [|done].
        simpl. rewrite concat_inflater_writes. simpl.
        rewrite drop_app_le; [done|]. unfold len in Hfull. lia.
      - apply N.leb_gt in Hfull.
        rewrite IH by done. simpl.
        unfold open_whole. rewrite parse_fixed_app, Hfixed by done.
        rewrite len_app. by rewrite (proj2 (N.ltb_ge _ _)) by lia. }
    destruct (headerInfo r) as [hi|] eqn:Hhi.
    + destruct Hinfo as (H12 & Hfixed & Hshort).
      assert (HEADER_FIXED_LEN <= len b)%N by (unfold b; rewrite len_app; lia).
      assert (parse_fixed b = inr hi) by (unfold b; by rewrite parse_fixed_app).
      specialize (Hstep2 hi). destruct (parse_header b hi) as [[e|img]|]; auto.
    + destruct (HEADER_FIXED_LEN <=? len b)%N eqn:H12.
      * apply N.leb_le in H12.
        destruct (parse_fixed b) as [e|hi] eqn:Hfixed.
        -- simpl. unfold open_whole. rewrite parse_fixed_app, Hfixed by done.
           rewrite len_app. by rewrite (proj2 (N.ltb_ge _ _)) by lia.
        -- specialize (Hstep2 hi). destruct (parse_header b hi) as [[e|img]|]; auto.
      * apply N.leb_gt in H12. by rewrite IH.
Qed.

(** Opening depends on the bytes of the file only, not on how the stream
    cuts them into chunks. *)
Lemma readNsiImage_whole chunks :
  opened (readNsiImage chunks) = open_whole (concat chunks).
Proof.
  unfold readNsiImage. rewrite feed_pending; [done|].
  split; [done|]. simpl. unfold len, HEADER_FIXED_LEN. simpl. lia.
Qed.

(** The image that is opened holds the chunks consumed so far; the other
    chunks are still to come. *)
Lemma on_data_buffer r chunk r' s :
  on_data r chunk = (r', s) ->
  match s with
  | Some (Resolve img) => img_buffer img = buffer r ++ chunk
  | Some (Reject _) => True
  | None => resolved r = false -> buffer r' = buffer r ++ chunk /\ resolved r' = false
  end.
Proof.
  unfold on_data, parse_header. intros H.
  repeat (case_match; simplify_eq); done.
Qed.

Lemma feed_Opened r chunks img later :
  resolved r = false ->
  feed r chunks = Opened img later ->
  exists earlier,
    chunks = earlier ++ later /\ img_buffer img = buffer r ++ concat earlier.
Proof.
  revert r. induction chunks as [|chunk chunks IH]; intros r Hr; [done|].
  cbn [feed]. destruct (on_data r chunk) as [r' [[e|img']|]] eqn:Hdata.
  - done.
  - intros [= <- <-]. exists [chunk]. split; [done|].
    simpl. rewrite app_nil_r. exact (on_data_buffer _ _ _ _ Hdata).
  - destruct (on_data_buffer _ _ _ _ Hdata Hr) as [Hb Hr'].
    intros (earlier & -> & ->)%IH; [|done]. exists (chunk :: earlier).
    split; [done|]. simpl. by rewrite Hb, (assoc_L (++)).
Qed.

Lemma readNsiImage_Opened chunks img later :
  readNsiImage chunks = Opened img later ->
  exists earlier, chunks = earlier ++ later /\ img_buffer img = concat earlier.
Proof. intros (earlier & -> & ->)%feed_Opened; [|done]. by exists earlier. Qed.

Lemma open_whole_rejects_magic file :
  slice file 0 4 <> MAGIC_BYTES ->
  open_whole file = inl IncompleteImage \/
  open_whole file = inl (InvalidMagic (slice file 0 4)).
Proof.
  intros Hmagic. unfold open_whole, parse_fixed.
  destruct (len file <? HEADER_FIXED_LEN)%N; [by left|right].
  by rewrite bool_decide_eq_false_2.
Qed.

Lemma open_whole_rejects_version file :
  (HEADER_FIXED_LEN <= len file)%N -> slice file 0 4 = MAGIC_BYTES ->
  readUInt32BE file 4 <> VERSION ->
  open_whole file = inl (UnsupportedVersion (readUInt32BE file 4)).
Proof.
  intros H12 Hmagic Hversion. unfold open_whole, parse_fixed.
  rewrite (proj2 (N.ltb_ge _ _) H12), bool_decide_eq_true_2 by done. simpl.
  by rewrite (proj2 (N.eqb_neq _ _) Hversion).
Qed.

Lemma open_whole_rejects_length file :
  (HEADER_FIXED_LEN <= len file)%N -> slice file 0 4 = MAGIC_BYTES ->
  readUInt32BE file 4 = VERSION ->
  (MAX_HEADER_LEN < readUInt32BE file 8)%N ->
  open_whole file = inl (LargeHeader (readUInt32BE file 8)).
Proof.
  intros H12 Hmagic Hversion Hlen. unfold open_whole, parse_fixed.
  rewrite (proj2 (N.ltb_ge _ _) H12), bool_decide_eq_true_2 by done. simpl.
  rewrite Hversion. simpl. by rewrite (proj2 (N.ltb_lt _ _) Hlen).
Qed.

Lemma opened_rejected r e : opened r = inl e -> r = OpenRejected e.
Proof. destruct r; simpl; [by intros [= ->] | done]. Qed.

End ImageTheory.

(* ===================================================================== *)
(** ** Opening an image: what is refused, and chunk independence *)
(* ===================================================================== *)

Module OpenClaims.
Import Json Buf BufTheory Image ImageTheory.

(** Scenario B: 64 zero bytes. *)
Definition zeros_file : list byte := replicate 64 x00.

(** Valid magic, version 2, nothing else. *)
Definition version2_file : list byte :=
  MAGIC_BYTES ++ [x00; x00; x00; x02] ++ [x00; x00; x00; x02].

(** Scenario C: valid magic and version, header length 0xFFFFFFFF, and not
    one byte of header. *)
Definition oversized_file : list byte :=
  MAGIC_BYTES ++ [x00; x00; x00; x01] ++ [xff; xff; xff; xff].

(** Valid magic and version, header length 1, the header "7", no payload. *)
Definition one_byte_header_file : list byte :=
  MAGIC_BYTES ++ [x00; x00; x00; x01] ++ [x00; x00; x00; x01] ++ from_string "7".

(** C3, as the code has it. For every file and every way the stream cuts
    it into chunks, [readNsiImage] rejects when the first four bytes are
    not NSI! (as incomplete when the file has fewer than twelve bytes, for
    its magic otherwise); when the twelve-byte prefix is there with the
    magic and a version other than 1; and when the prefix declares a
    header longer than 10 MiB. The last two rejections need the first
    twelve bytes only: whatever follows them, even nothing, is not looked
    at. There is no lower bound on the header length. *)
Theorem readNsiImage_rejects (chunks : list (list byte)) :
  let file := concat chunks in
  (slice file 0 4 <> MAGIC_BYTES ->
   readNsiImage chunks =
     OpenRejected (if (len file <? HEADER_FIXED_LEN)%N then IncompleteImage
                   else InvalidMagic (slice file 0 4)))
  /\ ((HEADER_FIXED_LEN <= len file)%N -> slice file 0 4 = MAGIC_BYTES ->
      readUInt32BE file 4 <> VERSION ->
      readNsiImage chunks = OpenRejected (UnsupportedVersion (readUInt32BE file 4)))
  /\ ((HEADER_FIXED_LEN <= len file)%N -> slice file 0 4 = MAGIC_BYTES ->
      readUInt32BE file 4 = VERSION ->
      (MAX_HEADER_LEN < readUInt32BE file 8)%N ->
      readNsiImage chunks = OpenRejected (LargeHeader (readUInt32BE file 8))).
Proof.
  intros file. pose proof (readNsiImage_whole chunks) as Hwhole.
  fold file in Hwhole. repeat split.
  - intros Hmagic. apply opened_rejected. rewrite Hwhole.
    unfold open_whole, parse_fixed.
    destruct (len file <? HEADER_FIXED_LEN)%N; [done|].
    by rewrite bool_decide_eq_false_2.
  - intros. apply opened_rejected. rewrite Hwhole.
    by apply open_whole_rejects_version.
  - intros. apply opened_rejected. rewrite Hwhole.
    by apply open_whole_rejects_length.
Qed.

Lemma readNsiImage_rejects_witness :
  readNsiImage [take 10 zeros_file; drop 10 zeros_file]
    = OpenRejected (InvalidMagic [x00; x00; x00; x00])
  /\ readNsiImage [version2_file] = OpenRejected (UnsupportedVersion 2)
  /\ readNsiImage [take 5 oversized_file; drop 5 oversized_file]
     = OpenRejected (LargeHeader 4294967295).
Proof.
  split; [|split].
  - apply (proj1 (readNsiImage_rejects [take 10 zeros_file; drop 10 zeros_file])).
    by vm_compute.
  - apply (proj1 (proj2 (readNsiImage_rejects [version2_file]))); by vm_compute.
  - apply (proj2 (proj2 (readNsiImage_rejects
             [take 5 oversized_file; drop 5 oversized_file]))); by vm_compute.
Defined.

(** C3 fails below the claimed lower bound: a declared header length of 1
    is accepted when the one byte is JSON. *)
Lemma one_byte_header_is_opened :
  readUInt32BE one_byte_header_file 8 = 1%N /\
  readNsiImage [one_byte_header_file]
  = Opened {| header := JNumber "7"; version := 1;
              img_buffer := one_byte_header_file; img_payloadOffset := 13 |} [].
Proof. by vm_compute. Qed.

Section Chunking.
Variable inflate : list byte -> option (list byte).

(** What a caller of [readNsiImage] gets out of it. *)
Definition decoded (r : open_result) : open_error + (json * N * option (list byte)) :=
  match r with
  | OpenRejected e => inl e
  | Opened img later =>
      inr (header img, version img, getPayloadStream inflate img later)
  end.

(** C9. Two ways of cutting the same bytes into chunks give the same
    rejection, or the same header, version and decompressed payload; and
    when an image is opened, the payload bytes that were buffered with the
    header (the rest of the chunks consumed so far) are written to the
    inflater first, the chunks still to come after them, in order. *)
Theorem readNsiImage_chunking (chunks chunks' : list (list byte)) :
  concat chunks = concat chunks' ->
  decoded (readNsiImage chunks) = decoded (readNsiImage chunks')
  /\ forall img later,
       readNsiImage chunks = Opened img later ->
       exists earlier buffered,
         chunks = earlier ++ later /\
         buffered = drop (N.to_nat (img_payloadOffset img)) (concat earlier) /\
         inflater_writes img later
         = (if decide (buffered = []) then [] else [buffered]) ++ later.
Proof.
  intros Hsame. split.
  - pose proof (readNsiImage_whole chunks) as H.
    pose proof (readNsiImage_whole chunks') as H'.
    rewrite Hsame, <- H' in H.
    destruct (readNsiImage chunks) as [e|img later],
             (readNsiImage chunks') as [e'|img' later']; simpl in *;
      try done; [by inversion H|].
    assert (header img = header img' /\ version img = version img' /\
            concat (inflater_writes img later) = concat (inflater_writes img' later'))
      as (-> & -> & Hwrites) by (by inversion H).
    unfold getPayloadStream. by rewrite Hwrites.
  - intros img later (earlier & -> & Hbuf)%readNsiImage_Opened.
    exists earlier, (drop (N.to_nat (img_payloadOffset img)) (concat earlier)).
    split; [done|]. split; [done|].
    unfold inflater_writes. rewrite slice_to_end, Hbuf. f_equal.
    destruct (drop _ _) as [|x l]; [done|].
    rewrite decide_False by done.
    rewrite (proj2 (N.ltb_lt 0 (len (x :: l)))); [done|].
    unfold len. simpl. lia.
Qed.

End Chunking.

(** A small image: the header [{}], and four payload bytes. *)
Definition small_file : list byte :=
  MAGIC_BYTES ++ [x00; x00; x00; x01] ++ [x00; x00; x00; x02]
  ++ from_string "{}" ++ [x0a; x0b; x0c; x0d].

Lemma readNsiImage_chunking_witness :
  decoded Some (readNsiImage [take 15 small_file; drop 15 small_file])
  = decoded Some (readNsiImage [take 3 small_file; drop 3 small_file])
  /\ forall img later,
       readNsiImage [take 15 small_file; drop 15 small_file] = Opened img later ->
       exists earlier buffered,
         [take 15 small_file; drop 15 small_file] = earlier ++ later /\
         buffered = drop (N.to_nat (img_payloadOffset img)) (concat earlier) /\
         inflater_writes img later
         = (if decide (buffered = []) then [] else [buffered]) ++ later.
Proof.
  apply (readNsiImage_chunking Some
           [take 15 small_file; drop 15 small_file]
           [take 3 small_file; drop 3 small_file]).
  by vm_compute.
Defined.

End OpenClaims.

(* ===================================================================== *)
(** ** createNsiImage: the template and the file *)
(* ===================================================================== *)

Module CreateTheory.
Import Json Buf BufTheory Image.


Lemma lookup_set_field_ne key key' v fields :
  key <> key' ->
  lookup_field key' (set_field key v fields) = lookup_field key' fields.
Proof.
  intros Hne. induction fields as [|[k v'] fields IH]; simpl.
  - by rewrite decide_False.
  - destruct (decide (k = key)) as [->|Hk]; simpl.
    + by rewrite !decide_False.
    + by rewrite IH.
Qed.

Lemma set_prop_lookup l key v (h : heap) fields :
  h !! l = Some fields ->
  set_prop l key v h !! l = Some (set_field key v fields).
Proof. intros H. unfold set_prop. by rewrite H, lookup_insert_eq. Qed.

Lemma set_prop_lookup_ne l l' key v (h : heap) :
  l' <> l -> set_prop l key v h !! l' = h !! l'.
Proof.
  intros H. unfold set_prop. destruct (h !! l); [|done].
  by rewrite lookup_insert_ne.
Qed.

(** The template after a successful run. *)
Definition final_header (hash now : string) (size : N)
    (template : list (string * json)) : list (string * json) :=
  set_field "size" (JNumber (pretty size))
    (set_field "created" (JString now)
       (set_field "hash" (JString hash) template)).

Section WithLibraries.
Context {dir : Type}.
Variable tar_pack : dir -> option (list byte).
Variable deflate : list byte -> option (list byte).
Variable sha256_hex : list byte -> string.

(** A run that resolves, step by step. *)
Lemma createNsiImage_Created imagePath sourceDir headerJson now fault σ p σ' :
  createNsiImage tar_pack deflate sha256_hex imagePath sourceDir headerJson now
    fault σ = (Created p, σ') ->
  exists template raw compressed headerLenBuffer,
    st_heap σ !! headerJson = Some template /\
    tar_pack sourceDir = Some raw /\ deflate raw = Some compressed /\
    let final := final_header (sha256_hex raw) now (len compressed) template in
    writeUInt32BE (len (header_bytes final)) = Some headerLenBuffer /\
    fault = Fs.NoFault /\ p = imagePath /\
    st_heap σ' = <[headerJson := final]> (st_heap σ) /\
    st_files σ' = <[imagePath :=
      image_bytes headerLenBuffer (header_bytes final) compressed]> (st_files σ).
Proof.
  unfold createNsiImage.
  destruct (tar_pack sourceDir) as [raw|] eqn:Hpack; [|done].
  destruct (decide _) as [|Hobj]; [done|].
  destruct (st_heap σ !! headerJson) as [template|] eqn:Htemplate; [|done].
  destruct (deflate raw) as [compressed|] eqn:Hdeflate; [|done].
  set (h := set_prop _ "size" _ _).
  assert (h = <[headerJson :=
            final_header (sha256_hex raw) now (len compressed) template]> (st_heap σ))
    as Hh.
  { unfold h, final_header, set_prop.
    rewrite Htemplate, lookup_insert_eq, lookup_insert_eq.
    by rewrite !insert_insert_eq. }
  rewrite Hh, lookup_insert_eq. cbn [default].
  destruct (stringify_throws _); [done|].
  destruct (writeUInt32BE _) as [headerLenBuffer|] eqn:Hlen; [|done].
  destruct fault; simpl; intros [= <- <-]; try done.
  by exists template, raw, compressed, headerLenBuffer.
Qed.

End WithLibraries.

End CreateTheory.

(* ===================================================================== *)
(** ** Writing an image: the template, and the file at its final path *)
(* ===================================================================== *)

Module WriteClaims.
Import Json Buf BufTheory Image CreateTheory CliBuild.

(** Stand-ins for tar-fs, zlib and crypto in the example runs: a
    directory is its own archive, compression changes nothing, and every
    digest is the same. *)
Definition demo_hash (payload : list byte) : string := "00ff".

Definition demo_template : list (string * json) :=
  [("imageName", JString "demo"); ("version", JString "latest");
   ("created", JNull); ("hash", JNull); ("size", JNull);
   ("runtime", JObject [("cmd", JArray [JString "node"; JString "app.js"]);
                        ("workDir", JString "/app"); ("env", JObject [])])].

Definition demo_state : state :=
  {| st_heap := {[1%positive := demo_template]}; st_files := ∅ |}.

Definition demo_dir : list byte := [x0a; x0b; x0c; x0d].

Definition demo_create (fault : Fs.write_fault) : create_result * state :=
  createNsiImage Some Some demo_hash "demo.nsi" demo_dir 1%positive
    "2025-01-01T00:00:00.000Z" fault demo_state.








(** The same in [createNsiImage] when [fs.writeFile] fails midway. *)
Lemma failed_writeFile_leaves_partial_image :
  (demo_create (Fs.WriteFailsAfter 5)).1 = CreateRejected FailedToWriteImageFile /\
  st_files (demo_create (Fs.WriteFailsAfter 5)).2 !! "demo.nsi"
  = Some (MAGIC_BYTES ++ [x00]).
Proof. by vm_compute. Qed.

End WriteClaims.

(* ===================================================================== *)
(** ** Writing an image and opening it again *)
(* ===================================================================== *)

Module RoundTrip.
Import Json Buf BufTheory JsonTheory Image ImageTheory CreateTheory WriteClaims.

Lemma readUInt32BE_drop (b : list byte) off :
  readUInt32BE b off = readUInt32BE (drop off b) 0.
Proof.
  unfold readUInt32BE, byte_at. rewrite !lookup_drop.
  by rewrite Nat.add_0_r.
Qed.

Lemma writeUInt32BE_Some n w :
  writeUInt32BE n = Some w -> exists a b c d, w = [a; b; c; d].
Proof.
  unfold writeUInt32BE. destruct (n <? 4294967296)%N; [|done].
  intros [= <-]. by eexists _, _, _, _.
Qed.

(** The fixed prefix of a written image reads back as it was written. *)
Lemma image_bytes_prefix n hl hb c :
  writeUInt32BE n = Some hl ->
  (HEADER_FIXED_LEN <= len (image_bytes hl hb c))%N /\
  slice (image_bytes hl hb c) 0 4 = MAGIC_BYTES /\
  readUInt32BE (image_bytes hl hb c) 4 = VERSION /\
  readUInt32BE (image_bytes hl hb c) 8 = n /\
  drop 12 (image_bytes hl hb c) = hb ++ c.
Proof.
  intros Hhl. destruct (writeUInt32BE_Some _ _ Hhl) as (a & b & c' & d & ->).
  unfold image_bytes.
  assert (default [] (writeUInt32BE VERSION) = [x00; x00; x00; x01]) as ->
    by (by vm_compute).
  assert (MAGIC_BYTES = [x4e; x53; x49; x21]) as -> by (by vm_compute).
  split_and!.
  - unfold len, HEADER_FIXED_LEN. cbn [app length]. lia.
  - done.
  - by vm_compute.
  - rewrite readUInt32BE_drop. cbn [drop app].
    by apply (read_write_UInt32BE n [a; b; c'; d]).
  - done.
Qed.

Lemma open_whole_image n hl hb c j :
  writeUInt32BE n = Some hl -> n = len hb ->
  (n <= MAX_HEADER_LEN)%N ->
  JSON_parse (to_string hb) = Some j ->
  open_whole (image_bytes hl hb c) = inr (j, VERSION, c).
Proof.
  intros Hhl -> Hmax Hjson.
  destruct (image_bytes_prefix _ hl hb c Hhl) as (H12 & Hmagic & Hversion & Hlen & Hdrop).
  unfold open_whole, parse_fixed.
  rewrite (proj2 (N.ltb_ge _ _) H12), Hmagic, bool_decide_eq_true_2 by done.
  rewrite Hversion, Hlen. cbn [negb N.eqb VERSION Pos.eqb].
  rewrite (proj2 (N.ltb_ge _ _) Hmax). cbn [hi_headerJsonLen hi_version].
  assert (slice (image_bytes hl hb c) HEADER_FIXED_LEN (HEADER_FIXED_LEN + len hb) = hb)
    as ->.
  { unfold slice. change (N.to_nat HEADER_FIXED_LEN) with 12%nat. rewrite Hdrop.
    replace (N.to_nat _) with (length hb) by (unfold len; lia).
    by rewrite take_app_length. }
  rewrite Hjson.
  assert (drop (N.to_nat (HEADER_FIXED_LEN + len hb)) (image_bytes hl hb c) = c) as Hc.
  { replace (N.to_nat _) with (12 + length hb)%nat
      by (unfold len, HEADER_FIXED_LEN; lia).
    by rewrite <- drop_drop, Hdrop, drop_app_length. }
  rewrite Hc.
  assert (len (image_bytes hl hb c) = (HEADER_FIXED_LEN + len hb + len c)%N) as ->.
  { unfold len, HEADER_FIXED_LEN in *.
    rewrite <- (take_drop 12 (image_bytes hl hb c)) at 1. rewrite Hdrop.
    rewrite !length_app, length_take. lia. }
  by rewrite (proj2 (N.leb_le _ _)) by lia.
Qed.

Lemma opened_image r j v c :
  opened r = inr (j, v, c) ->
  exists img later,
    r = Opened img later /\ header img = j /\ version img = v /\
    concat (inflater_writes img later) = c.
Proof.
  destruct r as [e|img later]; simpl; [done|].
  intros [= <- <- <-]. by exists img, later.
Qed.

Lemma wf_final_header hash now size template :
  wf (JObject template) = true ->
  wf (JObject (final_header hash now size template)) = true.
Proof.
  intros Hwf. unfold final_header.
  apply wf_set_field; [apply number_ok_pretty|].
  by do 2 (apply wf_set_field; [done|]).
Qed.

(** C6, as the code has it. Let zlib's inflate undo its deflate and
    tar-fs's extract undo its pack. When [createNsiImage] has written an
    image from the directory [sourceDir] and the header it serialised is
    at most 10 MiB long, then for every way the file is cut into chunks
    [readNsiImage] opens it, with the header that was written, and
    [extractNsiPayload] yields [sourceDir] again. (The template is a
    JSON value: its numbers are JSON numbers, the keys of an object are
    distinct.) *)
Theorem image_round_trip {dir : Type}
    (tar_pack : dir -> option (list byte)) (tar_extract : list byte -> option dir)
    (deflate inflate : list byte -> option (list byte))
    (sha256_hex : list byte -> string)
    imagePath sourceDir headerJson now fault σ σ' template final chunks :
  (forall raw compressed, deflate raw = Some compressed -> inflate compressed = Some raw) ->
  (forall d tar, tar_pack d = Some tar -> tar_extract tar = Some d) ->
  st_heap σ !! headerJson = Some template ->
  wf (JObject template) = true ->
  createNsiImage tar_pack deflate sha256_hex imagePath sourceDir headerJson now
    fault σ = (Created imagePath, σ') ->
  st_heap σ' !! headerJson = Some final ->
  (len (header_bytes final) <= MAX_HEADER_LEN)%N ->
  st_files σ' !! imagePath = Some (concat chunks) ->
  exists img later,
    readNsiImage chunks = Opened img later /\
    header img = JObject final /\
    extractNsiPayload tar_extract (getPayloadStream inflate img later)
    = inr sourceDir.
Proof.
  intros Hzlib Htar Htemplate Hwf Hcreate Hfinal Hmax Hfile.
  apply createNsiImage_Created in Hcreate
    as (template' & raw & compressed & hl & Htemplate' & Hpack & Hdeflate & Hlen
        & _ & _ & Hheap & Hfiles).
  rewrite Htemplate in Htemplate'. injection Htemplate' as <-.
  rewrite Hheap, lookup_insert_eq in Hfinal. injection Hfinal as Hfinal.
  apply (wf_final_header (sha256_hex raw) now (len compressed)) in Hwf.
  rewrite Hfinal in *. clear Hfinal.
  rewrite Hfiles, lookup_insert_eq in Hfile. injection Hfile as Hfile.
  pose proof (readNsiImage_whole chunks) as Hopen.
  rewrite <- Hfile in Hopen.
  rewrite (open_whole_image _ _ _ _ (JObject final) Hlen eq_refl Hmax) in Hopen.
  - apply opened_image in Hopen as (img & later & -> & Hheader & _ & Hwrites).
    exists img, later. split_and!; [done | done |].
    unfold getPayloadStream, extractNsiPayload.
    by rewrite Hwrites, (Hzlib _ _ Hdeflate), (Htar _ _ Hpack).
  - unfold header_bytes. rewrite to_from_string.
    by apply JSON_parse_stringify.
Qed.

(** The image of the example run, cut in two after seven bytes. *)
Definition demo_file : list byte :=
  default [] (st_files (demo_create Fs.NoFault).2 !! "demo.nsi").

Lemma image_round_trip_witness :
  exists img later,
    readNsiImage [take 7 demo_file; drop 7 demo_file] = Opened img later /\
    header img
    = JObject (default [] (st_heap (demo_create Fs.NoFault).2 !! 1%positive)) /\
    extractNsiPayload Some (getPayloadStream Some img later) = inr demo_dir.
Proof.
  apply (image_round_trip Some Some Some Some demo_hash "demo.nsi" demo_dir
           1%positive "2025-01-01T00:00:00.000Z" Fs.NoFault demo_state
           (demo_create Fs.NoFault).2 demo_template
           (default [] (st_heap (demo_create Fs.NoFault).2 !! 1%positive))
           [take 7 demo_file; drop 7 demo_file]).
  - by intros raw compressed [= ->].
  - by intros d tar [= ->].
  - by vm_compute.
  - by vm_compute.
  - by vm_compute.
  - by vm_compute.
  - by vm_compute.
  - by vm_compute.
Defined.

(** *** A header above the bound *)

Lemma createNsiImage_succeeds {dir} (tar_pack : dir -> option (list byte))
    deflate sha256_hex imagePath sourceDir headerJson now σ
    template raw compressed headerLenBuffer :
  st_heap σ !! headerJson = Some template ->
  tar_pack sourceDir = Some raw -> deflate raw = Some compressed ->
  let final := final_header (sha256_hex raw) now (len compressed) template in
  stringify_throws (JObject final) = false ->
  writeUInt32BE (len (header_bytes final)) = Some headerLenBuffer ->
  createNsiImage tar_pack deflate sha256_hex imagePath sourceDir headerJson now
    Fs.NoFault σ
  = (Created imagePath,
     {| st_heap := <[headerJson := final]> (st_heap σ);
        st_files := <[imagePath := image_bytes headerLenBuffer (header_bytes final)
                                     compressed]> (st_files σ) |}).
Proof.
  intros Htemplate Hpack Hdeflate final Hshort Hlen. unfold createNsiImage.
  rewrite Hpack, Hdeflate, decide_False by (by rewrite Htemplate).
  set (h := set_prop _ "size" _ _).
  assert (h = <[headerJson := final]> (st_heap σ)) as ->.
  { unfold h, final, final_header, set_prop.
    rewrite Htemplate, lookup_insert_eq, lookup_insert_eq.
    by rewrite !insert_insert_eq. }
  rewrite lookup_insert_eq. cbn [default id]. rewrite Hshort. simpl.
  by rewrite Hlen.
Qed.

(** A string has at most two code units for each of its bytes. *)
Lemma js_length_bound s : (js_length s <= 2 * N.of_nat (String.length s))%N.
Proof.
  induction s as [|c s IH]; [done|]. cbn [js_length String.length].
  assert (code_units c <= 2)%N by (unfold code_units; repeat case_match; lia).
  lia.
Qed.

Fixpoint repeat_char (c : ascii) (n : nat) : string :=
  match n with O => "" | S n' => String c (repeat_char c n') end.

Lemma length_repeat_char c n : String.length (repeat_char c n) = n.
Proof. induction n; simpl; by f_equal. Qed.

Lemma escape_repeat_a n : escape (repeat_char "a" n) = repeat_char "a" n.
Proof. induction n; simpl; [done | by rewrite IHn]. Qed.

Lemma length_from_string s : length (from_string s) = String.length s.
Proof.
  unfold from_string, list_byte_of_string.
  rewrite length_map. induction s; simpl; by f_equal.
Qed.

(** The header [createNsiImage] serialises for a template that has the
    field [imageName] only, in the example run. *)
Definition named_header (name : string) : list (string * json) :=
  final_header (demo_hash demo_dir) "2025-01-01T00:00:00.000Z" (len demo_dir)
    [("imageName", JString name)].

Lemma named_header_text_length name :
  escape name = name ->
  String.length (JSON_stringify (JObject (named_header name)))
  = (String.length name
     + String.length (JSON_stringify (JObject (named_header ""))))%nat.
Proof.
  intros Hesc.
  assert (forall name, named_header name =
     [("imageName", JString name); ("hash", JString "00ff");
      ("created", JString "2025-01-01T00:00:00.000Z"); ("size", JNumber "4")]) as Hh
    by (intros; by vm_compute).
  rewrite !Hh. unfold JSON_stringify.
  cbn [serialize map fst snd join_lines]. unfold quote. rewrite Hesc.
  cbn [escape]. rewrite !length_append. cbn [String.length].
  rewrite !length_append. cbn [String.length]. lia.
Qed.

Lemma named_header_length name :
  escape name = name ->
  len (header_bytes (named_header name)) = (N.of_nat (String.length name) + 93)%N.
Proof.
  intros Hesc. unfold len, header_bytes.
  rewrite length_from_string, (named_header_text_length name Hesc).
  assert (String.length (JSON_stringify (JObject (named_header ""))) = 93%nat) as ->
    by (by vm_compute).
  lia.
Qed.

Lemma named_image_rejected name :
  escape name = name ->
  (MAX_HEADER_LEN <= N.of_nat (String.length name) < 268435000)%N ->
  exists σ' file n,
    createNsiImage Some Some demo_hash "big.nsi" demo_dir 1%positive
      "2025-01-01T00:00:00.000Z" Fs.NoFault
      {| st_heap := {[1%positive := [("imageName", JString name)]]};
         st_files := ∅ |}
    = (Created "big.nsi", σ') /\
    st_files σ' !! "big.nsi" = Some file /\
    (MAX_HEADER_LEN < n)%N /\
    readNsiImage [file] = OpenRejected (LargeHeader n).
Proof.
  intros Hesc Hlen.
  pose proof (named_header_length name Hesc) as Hheader.
  destruct (writeUInt32BE (len (header_bytes (named_header name))))
    as [hl|] eqn:Hhl.
  2: { revert Hhl. unfold writeUInt32BE.
       rewrite (proj2 (N.ltb_lt _ _)); [done|]. lia. }
  eexists _, _, _. split; [|split; [|split]].
  - apply (createNsiImage_succeeds Some Some demo_hash);
      [|done|done| |exact Hhl].
    + apply lookup_singleton_eq.
    + apply N.ltb_ge. fold (named_header name).
      etrans; [apply js_length_bound|].
      rewrite (named_header_text_length name Hesc).
      assert (String.length (JSON_stringify (JObject (named_header ""))) = 93%nat)
        as -> by (by vm_compute).
      unfold MAX_STRING_LENGTH. lia.
  - apply lookup_insert_eq.
  - instantiate (1 := len (header_bytes (named_header name))).
    rewrite Hheader. lia.
  - apply opened_rejected. rewrite readNsiImage_whole. simpl. rewrite app_nil_r.
    destruct (image_bytes_prefix _ hl (header_bytes (named_header name)) demo_dir Hhl)
      as (H12 & Hmagic & Hversion & Hn & _).
    rewrite <- Hn. apply open_whole_rejects_length; try done.
    rewrite Hn. lia.
Qed.

Definition long_name : string := repeat_char "a" (N.to_nat MAX_HEADER_LEN).

Definition long_state : state :=
  {| st_heap := {[1%positive := [("imageName", JString long_name)]]};
     st_files := ∅ |}.

(** C6 fails for a header above the bound: with an image name of 10 MiB
    the image is written, and [readNsiImage] rejects it for the length of
    its header. *)
Lemma long_header_is_not_reopened :
  exists σ' file n,
    createNsiImage Some Some demo_hash "big.nsi" demo_dir 1%positive
      "2025-01-01T00:00:00.000Z" Fs.NoFault long_state
    = (Created "big.nsi", σ') /\
    st_files σ' !! "big.nsi" = Some file /\
    (MAX_HEADER_LEN < n)%N /\
    readNsiImage [file] = OpenRejected (LargeHeader n).
Proof.
  apply named_image_rejected.
  - apply escape_repeat_a.
  - unfold long_name. rewrite length_repeat_char, N2Nat.id.
    unfold MAX_HEADER_LEN. lia.
Qed.

End RoundTrip.

(* ===================================================================== *)
(** ** Loading an image: the digest, and what the CLI checks *)
(* ===================================================================== *)

Module LoadClaims.
Import Json Buf CliRun.



(** The handler's own reading of the header checks the magic and nothing
    else: the version has a TODO, the header length no bound. *)
Lemma read_header_checks_magic file :
  read_at file 0 4 <> NSI_MAGIC ->
  read_header file = ([], inl IncorrectMagicNumber).
Proof.
  intros H. unfold read_header. by rewrite bool_decide_eq_false_2.
Qed.

(** An image of version 2 whose header is [{"cmd": []}]. *)
Definition version2_image : list byte :=
  let header := from_string (JSON_stringify (JObject [("cmd", JArray [])])) in
  NSI_MAGIC ++ [x00; x00; x00; x02]
  ++ default [] (writeUInt32BE (len header)) ++ header.

Lemma read_header_ignores_version :
  readUInt32BE version2_image 4 = 2%N /\
  read_header version2_image
  = ([InfoImage None None; InfoCommand []],
     inr (JObject [("cmd", JArray [])], 15%N)).
Proof. by vm_compute. Qed.

End LoadClaims.

(* ===================================================================== *)
(** ** nsi-sandbox: every run, the failing ones too *)
(* ===================================================================== *)

Module SandboxRuns.
Import Proc ProcTheory WaitStatus Sandbox SandboxTheory.

(** One step of a run read forwards: the next answer of the kernel, or
    the next test. *)
Ltac forward kernel :=
  repeat (match goal with
          | |- context [kernel ?c ?w] => destruct (kernel c w) as [? ?]
          | |- context [if ?b then _ else _] => destruct b eqn:?
          end; cbn [p_world p_environ]).

Section Runs.
Context {world : Type}.
Variable kernel : syscall -> world -> reply * world.


(** What [parse_args] does once the options and operands pass its own
    tests: one [stat], and the verdict on its answer. *)
Lemma parse_args_stat opts operands args st :
  parsed opts operands args ->
  exists r w',
    kernel (SysStat (rootfs args)) (p_world st) = (r, w') /\
    parse_args kernel opts operands st
    = (if negb (rv r =? 0) || negb (S_ISDIR (rout r))
       then Exited EXIT_FAILURE else Ret args,
       {| p_world := w'; p_environ := p_environ st |},
       [SysStat (rootfs args)]).
Proof.
  intros (a0 & Hparse & Hops & Hrootfs & Hcgroup & ->).
  unfold parse_args. rewrite Hparse.
  rewrite (bool_decide_eq_false_2 (operands = [])) by done.
  unfold Str.is_empty. cbn [rootfs cmd cgroup_id workdir set_cmd].
  rewrite (bool_decide_eq_false_2 (rootfs a0 = "")) by done.
  rewrite (bool_decide_eq_false_2 (operands = [])) by done.
  rewrite (bool_decide_eq_false_2 (cgroup_id a0 = "")) by done.
  assert (forall a : Args, rootfs (if bool_decide (workdir a0 = "")
                                   then set_workdir "/" a else a) = rootfs a)
    as Hwd by (intros a; by destruct (bool_decide _)).
  rewrite !Hwd. cbn [rootfs set_cmd].
  unfold bind, Proc.sys, die, exit, ret.
  destruct (kernel _ _) as [r w']. exists r, w'. split; [done|].
  cbn [p_world p_environ]. by destruct (negb _ || negb _).
Qed.

(** X2. [main] looks at its arguments before it touches anything: an
    option [getopt_long] does not know, no command, no [--rootfs] or no
    [--cgroup-id] end the run with exit code 1 and not one system call;
    otherwise the first call is the [stat] of the root file system, and
    when that fails or does not find a directory the run ends there, with
    exit code 1. *)
Theorem main_checks_arguments_first w env opts operands :
  let r := run (main kernel opts operands) w env in
  (parse_opts no_args opts = None -> r = (Exited EXIT_FAILURE, []))
  /\ (operands = [] -> r = (Exited EXIT_FAILURE, []))
  /\ (forall a, parse_opts no_args opts = Some a ->
        rootfs a = "" \/ cgroup_id a = "" -> r = (Exited EXIT_FAILURE, []))
  /\ (forall args, parsed opts operands args ->
        let st := (kernel (SysStat (rootfs args)) w).1 in
        head r.2 = Some (SysStat (rootfs args)) /\
        (rv st <> 0 \/ S_ISDIR (rout st) = false ->
         r = (Exited EXIT_FAILURE, [SysStat (rootfs args)]))).
Proof.
  cbv zeta. split_and!.
  - intros Hopts. unfold run, main, bind, parse_args. by rewrite Hopts.
  - intros ->. unfold run, main, bind, parse_args.
    by destruct (parse_opts no_args opts).
  - intros a Hopts Hmissing. unfold run, main, bind, parse_args. rewrite Hopts.
    destruct (bool_decide (operands = [])); [done|].
    unfold Str.is_empty. cbn [rootfs cmd cgroup_id set_cmd].
    destruct Hmissing as [-> | ->]; [done|].
    destruct (bool_decide (rootfs a = "")); [done|].
    destruct (bool_decide (operands = [])); [done|].
    by rewrite (bool_decide_eq_true_2 ("" = "")).
  - intros args Hparsed.
    destruct (parse_args_stat opts operands args
                {| p_world := w; p_environ := env |} Hparsed)
      as (r & w' & Hstat & Hargs).
    cbn [p_world] in Hstat. rewrite Hstat. cbn [fst].
    unfold run, main, bind. rewrite Hargs. split.
    + destruct (negb _ || negb _); [done|].
      by destruct (launch kernel args _) as [[o st2] t2].
    + intros Hbad.
      assert (negb (rv r =? 0) || negb (S_ISDIR (rout r)) = true) as ->; [|done].
      destruct Hbad as [Hrv | ->]; [|by rewrite orb_true_r].
      by rewrite (proj2 (Z.eqb_neq _ _) Hrv).
Qed.

(** The calls of [setup_filesystem], all of them, in the order of the
    source; [old] is what became of the old root. *)
Definition filesystem_calls (args : Args) (old : list syscall) : list syscall :=
  [SysMount None "/" None [MS_REC; MS_PRIVATE] None;
   SysMount (Some (rootfs args)) (rootfs args) (Some "bind") [MS_BIND; MS_REC] None;
   SysMkdir (put_old_path args) 448;
   SysPivotRoot (rootfs args) (put_old_path args);
   SysChdir "/"]
  ++ old ++ mount_calls.


(** A call the kernel never refuses. *)
Definition succeeds (c : syscall) : Prop := forall w, rv (kernel c w).1 <> -1.

(** X4. Which failures stop [setup_filesystem]: the bind mount, the
    [mkdir] of the old root unless it fails with EEXIST, [pivot_root],
    [chdir] and the three mounts. When these succeed it returns, whatever
    becomes of the private remount of the host root, of [umount2] and of
    [rmdir]. *)
Theorem setup_filesystem_tolerates args st :
  succeeds (SysMount (Some (rootfs args)) (rootfs args) (Some "bind")
              [MS_BIND; MS_REC] None) ->
  (forall w, let r := (kernel (SysMkdir (put_old_path args) 448) w).1 in
             rv r <> -1 \/ rerrno r = EEXIST) ->
  succeeds (SysPivotRoot (rootfs args) (put_old_path args)) ->
  succeeds (SysChdir "/") ->
  Forall succeeds mount_calls ->
  exists st' old,
    old_root_calls old /\
    setup_filesystem kernel args st = (Ret tt, st', filesystem_calls args old).
Proof.
  intros Hbind Hmkdir Hpivot Hchdir Hmounts.
  apply Forall_cons in Hmounts as [Hproc Hmounts].
  apply Forall_cons in Hmounts as [Hdev Hmounts].
  apply Forall_cons in Hmounts as [Hsys _].
  unfold setup_filesystem, bind, Proc.sys, die, exit, ret, filesystem_calls, mount_calls.
  repeat match goal with
    | H : succeeds ?c |- context [kernel ?c ?w] =>
        let Hw := fresh in
        pose proof (H w) as Hw; destruct (kernel c w) as [? ?];
        cbn [fst rv] in Hw; rewrite (proj2 (Z.eqb_neq _ _) Hw); clear Hw;
        cbn [p_world p_environ]
    | |- context [kernel (SysMkdir ?p ?m) ?w] =>
        let Hw := fresh in
        let r := fresh "r" in
        pose proof (Hmkdir w) as Hw; destruct (kernel (SysMkdir p m) w) as [r ?];
        cbv zeta in Hw; cbn [fst] in Hw; cbn [p_world p_environ];
        assert ((rv r =? -1) && negb (rerrno r =? EEXIST) = false) as ->
          by (destruct Hw as [Hw | Hw];
              [by rewrite (proj2 (Z.eqb_neq _ _) Hw)
              | by rewrite Hw, Z.eqb_refl, andb_false_r]);
        clear Hw; cbn [p_world p_environ]
    | |- context [kernel ?c ?w] =>
        destruct (kernel c w) as [? ?]; cbn [p_world p_environ]
    | |- context [if ?b then _ else _] => destruct b eqn:?
    end.
  all: cbn [app].
  all: first
    [ by eexists _, [SysUmount2 "/.old_root" [MNT_DETACH]]; split; [constructor|]
    | by eexists _, [SysUmount2 "/.old_root" [MNT_DETACH]; SysRmdir "/.old_root"];
         split; [constructor|] ].
Qed.

(** *** Which process makes which calls *)














End Runs.

(** *** The options *)

(** The arguments given with option [c], in the order of the command
    line. *)
Definition optargs (c : ascii) (opts : list (ascii * string)) : list string :=
  (filter (fun o => o.1 = c) opts).*2.

Definition known_option (c : ascii) : Prop :=
  c = "r"%char \/ c = "w"%char \/ c = "e"%char \/ c = "m"%char \/ c = "g"%char.

Lemma default_last_cons {A} (d x : A) l :
  default d (last (x :: l)) = default x (last l).
Proof.
  destruct l as [|y l]; [done|]. change (last (x :: y :: l)) with (last (y :: l)).
  by destruct (proj2 (last_is_Some (y :: l)) ltac:(done)) as [z ->].
Qed.

Lemma optargs_cons c c' x opts :
  optargs c ((c', x) :: opts)
  = if decide (c' = c) then x :: optargs c opts else optargs c opts.
Proof.
  unfold optargs. rewrite filter_cons. cbn [fst]. by destruct (decide (c' = c)).
Qed.

(** X6. The option loop of [parse_args]: it refuses the command line
    exactly when [getopt_long] reports a character other than r, w, e, m
    and g; otherwise of several [--rootfs], [--workdir], [--mem] or
    [--cgroup-id] the last one counts, the [--env] entries are added one
    after the other, and the command is not touched. *)
Theorem parse_opts_last_wins a opts :
  (parse_opts a opts = None <-> Exists (fun o => ~ known_option o.1) opts)
  /\ forall a', parse_opts a opts = Some a' ->
       rootfs a' = default (rootfs a) (last (optargs "r" opts)) /\
       workdir a' = default (workdir a) (last (optargs "w" opts)) /\
       mem_limit a' = default (mem_limit a) (last (optargs "m" opts)) /\
       cgroup_id a' = default (cgroup_id a) (last (optargs "g" opts)) /\
       env_vars a' = foldl (fun m e => add_env e m) (env_vars a) (optargs "e" opts) /\
       cmd a' = cmd a.
Proof.
  revert a. induction opts as [|[c x] opts IH]; intros a.
  { split; [|by intros a' [= <-]]. split; [done | by intros ?%Exists_nil]. }
  cbn [parse_opts]. rewrite Exists_cons. cbn [fst].
  rewrite !optargs_cons.
  unfold parse_opt, known_option.
  repeat case_decide; subst; rewrite ?default_last_cons;
    try match goal with
        | |- context [parse_opts ?a1 opts] =>
            destruct (IH a1) as [IHnone IHsome]; split;
              [ rewrite IHnone; split; [by right | intros [Hc | ?]; [|done]];
                exfalso; apply Hc; tauto
              | intros a' Ha'; apply IHsome in Ha'; by cbn in Ha' ]
        end.
  split; [|done]. split; [|done]. intros _. left. tauto.
Qed.

(** *** The environment entries *)

Lemma prefix_suffix n s : Str.prefix n s +:+ Str.suffix n s = s.
Proof.
  revert s. induction n as [|n IH]; intros [|c s]; cbn [Str.prefix Str.suffix];
    try done.
  by rewrite JsonTheory.append_cons, IH.
Qed.

Lemma find_Some_split c s n :
  Str.find c s = Some n ->
  s = Str.prefix n s +:+ String c (Str.suffix (n + 1) s)
  /\ Str.find c (Str.prefix n s) = None
  /\ String.length (Str.prefix n s) = n.
Proof.
  revert n. induction s as [|a s IH]; intros n; cbn [Str.find]; [done|].
  destruct (decide (a = c)) as [->|Hne].
  - by intros [= <-].
  - destruct (Str.find c s) as [n'|]; [|done]. intros [= <-].
    destruct (IH n' eq_refl) as (Hs & Hnone & Hlen).
    cbn [Str.prefix Str.suffix Nat.add Str.find String.length].
    rewrite decide_False, Hnone, Hlen by done. split; [|done].
    change (String a ?x +:+ ?y) with (String a (x +:+ y)). by rewrite <- Hs.
Qed.

(** X7. One [--env] entry. KEY=VALUE with a KEY that is not empty sets
    KEY to VALUE: the KEY ends at the first '=', so VALUE may hold
    further '=' signs and may be empty, and an earlier value of KEY is
    replaced. An entry without '=' and an entry that starts with '='
    change nothing. There is no other case. *)
Theorem add_env_cases (m : gmap string string) :
  (forall k v, CliRunArgs.valid_key k -> add_env (k +:+ "=" +:+ v) m = <[k:=v]> m)
  /\ (forall e, Str.find "=" e = None \/ (exists v, e = "=" +:+ v) -> add_env e m = m)
  /\ (forall e, (exists k v, CliRunArgs.valid_key k /\ e = k +:+ "=" +:+ v)
                \/ Str.find "=" e = None \/ exists v, e = "=" +:+ v).
Proof.
  split_and!.
  - intros k v Hk. by apply (SandboxEnv.add_env_entry k v m).
  - intros e [Hnone | [v ->]]; unfold add_env; [by rewrite Hnone | done].
  - intros e. destruct (Str.find "=" e) as [[|n]|] eqn:Hfind.
    + right. right. apply find_Some_split in Hfind as (He & _ & _).
      exists (Str.suffix (0 + 1) e). exact He.
    + left. apply find_Some_split in Hfind as (He & Hnone & Hlen).
      exists (Str.prefix (S n) e), (Str.suffix (S n + 1) e). split; [|done].
      split; [|done]. intros Hk. by rewrite Hk in Hlen.
    + right. by left.
Qed.

(** The keys [add_env] stores are not empty and hold no '='. *)
Lemma add_env_valid e (m : gmap string string) :
  map_Forall (fun k _ => CliRunArgs.valid_key k) m ->
  map_Forall (fun k _ => CliRunArgs.valid_key k) (add_env e m).
Proof.
  intros Hm. destruct (add_env_cases m) as (Hset & Hskip & Hcases).
  destruct (Hcases e) as [(k & v & Hk & ->) | Hno].
  - rewrite Hset by done. by apply map_Forall_insert_2.
  - by rewrite Hskip.
Qed.

Lemma parse_opts_valid_keys opts a :
  parse_opts no_args opts = Some a ->
  map_Forall (fun k _ => CliRunArgs.valid_key k) (env_vars a).
Proof.
  intros Ha. apply parse_opts_last_wins in Ha as (_ & _ & _ & _ & -> & _).
  cbn [env_vars no_args]. generalize (optargs "e" opts).
  intros l. assert (map_Forall (fun k _ => CliRunArgs.valid_key k)
                      (∅ : gmap string string)) as Hempty
    by apply map_Forall_empty.
  revert Hempty. generalize (∅ : gmap string string).
  induction l as [|e l IH]; intros m Hm; [done|].
  cbn [foldl]. by apply IH, add_env_valid.
Qed.

(** How the command reads a variable, as [getenv] of libc does: the
    value of the first entry that is NAME followed by '='. *)
Fixpoint getenv (envp : list string) (name : string) : option string :=
  match envp with
  | [] => None
  | e :: envp' =>
      if bool_decide (Str.prefix (String.length name + 1) e = name +:+ "=")
      then Some (Str.suffix (String.length name + 1) e)
      else getenv envp' name
  end.

Lemma getenv_entry (l : list (string * string)) name :
  Forall (fun kv => CliRunArgs.valid_key kv.1) l ->
  CliRunArgs.valid_key name ->
  getenv (env_entry <$> l) name = list_to_map (M := gmap string string) l !! name.
Proof.
  intros Hl [Hne Hname]. induction Hl as [|[k v] l [Hk0 Hk] _ IH]; [done|].
  cbn [fmap list_fmap getenv list_to_map foldr fst snd curry] in *.
  unfold env_entry at 1. cbn [fst snd].
  destruct (decide (k = name)) as [->|Hdiff].
  - rewrite lookup_insert_eq.
    change (name +:+ "=" +:+ v) with (name +:+ String "=" v).
    rewrite bool_decide_eq_true_2.
    + f_equal. apply SandboxEnv.suffix_app_sep.
    + change (String.length name + 1)%nat
        with (String.length name + String.length "=")%nat.
      rewrite <- (JsonTheory.length_append name "=").
      change (String "=" v) with ("=" +:+ v).
      rewrite <- (JsonTheory.append_assoc name "=" v).
      apply SandboxEnv.prefix_app.
  - rewrite lookup_insert_ne by done. rewrite bool_decide_eq_false_2; [done|].
    intros Hprefix.
    pose proof (prefix_suffix (String.length name + 1) (k +:+ "=" +:+ v)) as Hs.
    rewrite Hprefix, JsonTheory.append_assoc in Hs.
    set (rest := Str.suffix (String.length name + 1) (k +:+ "=" +:+ v)) in *.
    change (name +:+ String "=" rest = k +:+ String "=" v) in Hs.
    pose proof (SandboxEnv.find_app_sep "=" name rest Hname) as Hfind.
    rewrite Hs, (SandboxEnv.find_app_sep "=" k v Hk) in Hfind.
    injection Hfind as Hlen.
    apply Hdiff.
    rewrite <- (SandboxEnv.prefix_app k (String "=" v)).
    rewrite <- (SandboxEnv.prefix_app name (String "=" rest)).
    by rewrite Hs, Hlen.
Qed.

(** What the launcher adds on its own. *)
Definition launcher_env (hostname : string) : gmap string string :=
  {[ "PATH" := "/usr/local/sbin:/usr/local/bin:/usr/sbin:/usr/bin:/sbin:/bin";
     "NEOSHELL_CONTAINER" := "true";
     "HOSTNAME" := hostname ]}.

(** The lookup in the strings that [main] pushes. *)
Lemma getenv_env_strings (m : gmap string string) hostname name :
  map_Forall (fun k _ => CliRunArgs.valid_key k) m ->
  CliRunArgs.valid_key name ->
  getenv (env_strings m hostname) name = (m ∪ launcher_env hostname) !! name.
Proof.
  intros Hvalid Hname.
  set (fixed := (if decide (m !! "PATH" = None)
                 then [("PATH", "/usr/local/sbin:/usr/local/bin:/usr/sbin:/usr/bin:/sbin:/bin")]
                 else [])
                ++ [("NEOSHELL_CONTAINER", "true"); ("HOSTNAME", hostname)]).
  assert (env_strings m hostname = env_entry <$> (map_entries m ++ fixed)) as ->.
  { unfold env_strings, fixed. rewrite !fmap_app. f_equal. f_equal.
    by destruct (decide _). }
  rewrite getenv_entry; [| |done].
  - rewrite list_to_map_app.
    assert (list_to_map (map_entries m) = m) as ->.
    { unfold map_entries.
      rewrite (list_to_map_proper _ (map_to_list m)).
      - apply list_to_map_to_list.
      - rewrite merge_sort_Permutation. apply NoDup_fst_map_to_list.
      - apply merge_sort_Permutation. }
    rewrite !lookup_union. destruct (m !! name) as [v|] eqn:Hm.
    { by rewrite !(left_id_L None _) || rewrite ?union_Some_l. }
    rewrite !(left_id_L None (∪)). unfold fixed, launcher_env.
    destruct (decide (m !! "PATH" = None)) as [Hpath|Hpath]; [done|].
    cbn [app list_to_map foldr curry fst snd].
    destruct (decide (name = "PATH")) as [->|Hn]; [done|].
    by rewrite (lookup_insert_ne _ "PATH").
  - apply Forall_app. split.
    + unfold map_entries. rewrite merge_sort_Permutation.
      apply Forall_forall. intros [k v] Hkv%elem_of_map_to_list.
      by apply (Hvalid k v).
    + unfold fixed. destruct (decide _); by repeat constructor.
Qed.

(** X8. What the command finds in its environment when every pointer of
    the array is valid. A pointer to a string of at most 15 bytes can
    dangle (see [build_envp]); none does when every entry is longer than
    that. When none does, a lookup that returns the first match finds,
    for every name, the value the [--env] options gave it, and otherwise
    the launcher's own PATH, NEOSHELL_CONTAINER or HOSTNAME: a HOSTNAME or
    PATH given with [--env] comes before the launcher's entry in the
    array. *)
Theorem getenv_build_envp opts a hostname name :
  parse_opts no_args opts = Some a ->
  CliRunArgs.valid_key name ->
  (forall entries,
     build_envp (env_vars a) hostname = Valid <$> entries ->
     getenv entries name = (env_vars a ∪ launcher_env hostname) !! name)
  /\ ((forall s, s ∈ env_strings (env_vars a) hostname ->
                 (15 < String.length s)%nat) ->
      build_envp (env_vars a) hostname
      = Valid <$> env_strings (env_vars a) hostname).
Proof.
  intros Hvalid%parse_opts_valid_keys Hname. split.
  - intros entries Hentries.
    pose proof (SandboxEnvTheory.pointee_build_envp (env_vars a) hostname) as Hp.
    rewrite Hentries, <- list_fmap_compose in Hp.
    change (pointee ∘ Valid) with (@id string) in Hp.
    rewrite list_fmap_id in Hp. rewrite Hp.
    by apply getenv_env_strings.
  - intros Hlong. rewrite SandboxEnvTheory.build_envp_slots.
    rewrite (imap_ext _ (const Valid)); [by rewrite imap_const|].
    intros i s Hs%list_elem_of_lookup_2%Hlong.
    unfold SandboxEnvTheory.slot, is_local, SSO_CAPACITY.
    by rewrite (proj2 (Nat.leb_gt _ _) Hs).
Qed.

Lemma getenv_build_envp_witness :
  (forall entries,
     build_envp (env_vars (set_env_vars {["HOSTNAME" := "container-one"]} no_args))
       "1a2b3c4d" = Valid <$> entries ->
     getenv entries "HOSTNAME"
     = (env_vars (set_env_vars {["HOSTNAME" := "container-one"]} no_args)
        ∪ launcher_env "1a2b3c4d") !! "HOSTNAME")
  /\ ((forall s,
        s ∈ env_strings
              (env_vars (set_env_vars {["HOSTNAME" := "container-one"]} no_args))
              "1a2b3c4d" ->
        (15 < String.length s)%nat) ->
      build_envp (env_vars (set_env_vars {["HOSTNAME" := "container-one"]} no_args))
        "1a2b3c4d"
      = Valid <$> env_strings
                    (env_vars (set_env_vars {["HOSTNAME" := "container-one"]} no_args))
                    "1a2b3c4d").
Proof.
  apply (getenv_build_envp [("e"%char, "HOSTNAME=container-one")]
           (set_env_vars {["HOSTNAME" := "container-one"]} no_args)
           "1a2b3c4d" "HOSTNAME").
  - by vm_compute.
  - by vm_compute.
Defined.

(** A kernel that refuses what [setup_filesystem] can do without: the
    private remount, the [mkdir] of a directory that exists, the
    [umount2]. *)
Definition grudging_kernel (c : syscall) (w : unit) : reply * unit :=
  match c with
  | SysMount None _ _ _ _ => (Reply (-1) 1 0, w)
  | SysMkdir _ _ => (Reply (-1) EEXIST 0, w)
  | SysUmount2 _ _ => (Reply (-1) 16 0, w)
  | _ => (Reply 0 0 0, w)
  end.

Lemma setup_filesystem_tolerates_witness :
  exists st' old,
    old_root_calls old /\
    setup_filesystem grudging_kernel
      (set_rootfs "/tmp/rootfs" no_args) {| p_world := tt; p_environ := [] |}
    = (Ret tt, st', filesystem_calls (set_rootfs "/tmp/rootfs" no_args) old).
Proof.
  apply (setup_filesystem_tolerates grudging_kernel
           (set_rootfs "/tmp/rootfs" no_args)).
  - by intros [].
  - intros []. by right.
  - by intros [].
  - by intros [].
  - repeat constructor; by intros [].
Defined.


End SandboxRuns.

(* ===================================================================== *)
(** ** The clone-based launcher: every run *)
(* ===================================================================== *)

Module LauncherRuns.
Import Proc ProcTheory WaitStatus Sandbox Launcher.

Definition clone_flags : list clone_flag :=
  [CLONE_NEWPID; CLONE_NEWNS; CLONE_NEWUTS; SIGCHLD].

(** The memory limit in bytes that [main] computes from [argv[2]]: the
    megabytes times 2^20, as a [long long]. *)
Definition limit_of (argv : list string) : Z :=
  let mb := atoll (default "" (argv !! 2%nat)) in
  if 0 <? mb then wrap_ll (mb * 1048576) else 0.

Lemma wrap_ll_small z : LLONG_MIN <= z <= LLONG_MAX -> wrap_ll z = z.
Proof.
  unfold wrap_ll, LLONG_MIN, LLONG_MAX. intros Hz.
  rewrite Z.mod_small; lia.
Qed.

Lemma wrap_ll_twice mb :
  wrap_ll (wrap_ll (mb * 1024) * 1024) = wrap_ll (mb * 1048576).
Proof.
  unfold wrap_ll at 2.
  rewrite (Z.mod_eq (mb * 1024 - LLONG_MIN) (2 ^ 64)) by done.
  set (q := (mb * 1024 - LLONG_MIN) `div` 2 ^ 64).
  unfold wrap_ll.
  replace ((mb * 1024 - LLONG_MIN - 2 ^ 64 * q + LLONG_MIN) * 1024 - LLONG_MIN)
    with (mb * 1048576 - LLONG_MIN + (- (q * 1024)) * 2 ^ 64) by lia.
  by rewrite Z.mod_add.
Qed.

(** Below 2^43 megabytes the limit is the product itself. *)
Lemma limit_of_exact argv :
  0 < atoll (default "" (argv !! 2%nat)) < 2 ^ 43 ->
  limit_of argv = atoll (default "" (argv !! 2%nat)) * 1048576.
Proof.
  intros Hmb. unfold limit_of. rewrite (proj2 (Z.ltb_lt _ _)) by lia.
  apply wrap_ll_small. unfold LLONG_MIN, LLONG_MAX. lia.
Qed.

(** The calls of the child up to [execv], when nothing stops it. *)
Definition child_calls (argv env : list string) : list syscall :=
  [SysSethostname "nsi-container"]
  ++ (if 0 <? limit_of argv
      then [SysSetrlimitAS (limit_of argv) (limit_of argv)] else [])
  ++ [SysChroot (default "" (argv !! 1%nat)); SysChdir "/";
      SysMount (Some "proc") "/proc" (Some "proc") [] None;
      SysExecve (default "" (argv !! 3%nat)) (drop 3 argv) (Valid <$> env)].

Section Runs.
Context {world : Type}.
Variable kernel : syscall -> world -> reply * world.

Definition never_fails (c : syscall) : Prop := forall w, rv (kernel c w).1 <> -1.

Lemma head_cmd_argv (argv : list string) :
  (4 <= length argv)%nat ->
  exists p, argv !! 3%nat = Some p /\ head (drop 3 argv) = Some p.
Proof.
  intros Hlen.
  destruct (lookup_lt_is_Some_2 argv 3) as [p Hp]; [lia|].
  exists p. split; [done|]. by rewrite <- Hp, head_lookup, lookup_drop.
Qed.

Ltac start Hlen :=
  unfold Launcher.main, Launcher.child_function, child_calls, limit_of;
  unfold execv, execve, get_environ, bind, Proc.sys, ret, exit;
  cbn [memory_limit_bytes rootfs_path cmd_argv];
  rewrite ?wrap_ll_twice;
  rewrite ?(proj2 (Nat.ltb_ge _ _) Hlen);
  let p := fresh "p" in let Hp := fresh "Hp" in let Hh := fresh "Hh" in
  destruct (head_cmd_argv _ Hlen) as (p & Hp & Hh);
  rewrite ?Hh, ?Hp; cbn [default p_world p_environ].

Ltac forward :=
  repeat (match goal with
          | |- context [kernel ?c ?w] => destruct (kernel c w) as [? ?] eqn:?
          | |- context [if ?b then _ else _] => destruct b eqn:?
          end; cbn [p_world p_environ fst snd] in *).

Lemma launcher_main_Replaced st argv p a e st' t :
  Launcher.main kernel argv st = (Replaced p a e, st', t) ->
  (4 <= length argv)%nat /\
  argv !! 3%nat = Some p /\ a = drop 3 argv /\ e = Valid <$> p_environ st /\
  t = SysClone clone_flags :: child_calls argv (p_environ st).
Proof.
  destruct (length argv <? 4)%nat eqn:Hlen.
  { unfold Launcher.main. by rewrite Hlen. }
  apply Nat.ltb_ge in Hlen. start Hlen.
  forward; intros [= <- <- <- <- <-]; done.
Qed.

(** X9. A run of the clone-based launcher that reaches the command has
    made exactly these calls: [clone] with the PID, mount and UTS
    namespaces, the host name "nsi-container", the address-space limit
    when the limit computed from [argv[2]] is positive, [chroot] to
    [argv[1]], [chdir] to "/", the mount of /proc, and [execv] of
    [argv[3]] with the arguments from [argv[3]] on and the environment
    the launcher was started with. The limit is [atoll(argv[2])] times
    2^20 as a [long long]: that many bytes for 1 to 2^43 - 1 megabytes,
    none for a number that is not positive, and from 2^43 megabytes on
    the product wrapped around, which sets no limit when it is not
    positive. (The [getpid] of the log lines and the allocation of the
    child stack are not part of the trace.) *)
Theorem legacy_launch_calls w env argv p a e t :
  run (Launcher.main kernel argv) w env = (Replaced p a e, t) ->
  (4 <= length argv)%nat /\
  argv !! 3%nat = Some p /\ a = drop 3 argv /\ e = Valid <$> env /\
  t = SysClone clone_flags :: child_calls argv env /\
  let mb := atoll (default "" (argv !! 2%nat)) in
  LLONG_MIN <= mb <= LLONG_MAX /\
  (mb <= 0 -> limit_of argv = 0) /\
  (0 < mb < 2 ^ 43 -> limit_of argv = mb * 1048576) /\
  (2 ^ 43 <= mb -> limit_of argv = wrap_ll (mb * 1048576)).
Proof.
  intros (st' & H)%SandboxEnvTheory.run_inv.
  apply launcher_main_Replaced in H as (Hlen & Hp & Ha & He & Ht).
  cbv zeta. split_and!; try done.
  - unfold atoll, LLONG_MIN, LLONG_MAX. lia.
  - unfold atoll, LLONG_MIN, LLONG_MAX. lia.
  - intros Hmb. unfold limit_of. by rewrite (proj2 (Z.ltb_ge _ _)).
  - apply limit_of_exact.
  - intros Hmb. unfold limit_of. rewrite (proj2 (Z.ltb_lt _ _)); [done|lia].
Qed.

(** X10. The process that [clone] leaves waiting makes two calls of the
    trace, [clone] and [waitpid] for the child, and exits with the child's
    exit code when the child exited, with 128 plus the signal number when
    a signal killed it, and with 1 when [waitpid] fails. *)
Theorem legacy_exit_code w env argv r1 w1 r2 w2 :
  (4 <= length argv)%nat ->
  kernel (SysClone clone_flags) w = (r1, w1) ->
  rv r1 <> 0 -> rv r1 <> -1 ->
  kernel (SysWaitpid (rv r1)) w1 = (r2, w2) ->
  exists code,
    run (Launcher.main kernel argv) w env
    = (Exited code, [SysClone clone_flags; SysWaitpid (rv r1)]) /\
    (rv r2 = -1 -> code = 1) /\
    (rv r2 <> -1 -> forall k, 0 <= k < 256 -> rout r2 = exited k -> code = k) /\
    (rv r2 <> -1 -> forall s core, 1 <= s <= 126 ->
       rout r2 = signaled s core -> code = 128 + s).
Proof.
  intros Hlen Hclone Hparent Hok Hwait.
  unfold clone_flags in *. unfold run. start Hlen. rewrite Hclone.
  cbn [p_world p_environ].
  rewrite (proj2 (Z.eqb_neq _ _) Hok), (proj2 (Z.eqb_neq _ _) Hparent).
  exists (if rv r2 =? -1 then EXIT_FAILURE else exit_status (rout r2)).
  cbn [p_world p_environ]. rewrite Hwait. cbn [p_world p_environ].
  destruct (rv r2 =? -1) eqn:Hrv.
  - apply Z.eqb_eq in Hrv. split; [done|]. by split_and!.
  - apply Z.eqb_neq in Hrv. split; [done|]. split_and!; [done| |].
    + intros _ k Hk ->. by apply WaitStatusTheory.exit_status_exited.
    + intros _ s core Hs ->. by apply WaitStatusTheory.exit_status_signaled.
Qed.

(** X11. In the child, the host name, [chroot] and [chdir] must succeed:
    when one of them fails the child exits with code 1 and the command is
    not started. The memory limit and the mount of /proc may fail: when
    the three succeed and the kernel accepts the [execv], the command
    runs, whatever [setrlimit] and [mount] answered. The limit of
    [child_calls] is the [long long] that [main] computes, [limit_of]:
    [setrlimit] is called when it is positive. *)
Theorem legacy_child_needs w env argv :
  (4 <= length argv)%nat ->
  rv (kernel (SysClone clone_flags) w).1 = 0 ->
  let needed := [SysSethostname "nsi-container";
                 SysChroot (default "" (argv !! 1%nat)); SysChdir "/";
                 SysExecve (default "" (argv !! 3%nat)) (drop 3 argv)
                   (Valid <$> env)] in
  let r := run (Launcher.main kernel argv) w env in
  (Forall never_fails needed ->
   r = (Replaced (default "" (argv !! 3%nat)) (drop 3 argv) (Valid <$> env),
        SysClone clone_flags :: child_calls argv env)) /\
  (r.1 = Exited 1 \/ exists p a e, r.1 = Replaced p a e) /\
  r.2 `prefix_of` SysClone clone_flags :: child_calls argv env.
Proof.
  intros Hlen Hchild needed r. subst needed r.
  unfold clone_flags in *. unfold run. start Hlen.
  destruct (kernel (SysClone _) w) as [r1 w1] eqn:Hclone.
  cbn [fst] in Hchild. rewrite Hchild.
  cbn [p_world p_environ Z.eqb].
  split_and!.
  - intros Hneed. rewrite !Forall_cons in Hneed.
    destruct Hneed as (Hhost & Hroot & Hdir & Hexec & _).
    repeat (match goal with
            | |- context [kernel ?c ?w'] =>
                let H := fresh in
                pose proof (fun (S : never_fails c) => S w') as H;
                destruct (kernel c w') as [? ?]; cbn [fst] in H
            | |- context [if ?b then _ else _] => destruct b eqn:?
            end; cbn [p_world p_environ]);
      try done;
      repeat match goal with
             | H : (rv ?r =? -1) = true |- _ => apply Z.eqb_eq in H
             end;
      match goal with
      | H : never_fails ?c -> rv ?r <> -1, S : never_fails ?c, E : rv ?r = -1 |- _ =>
          exact (False_ind _ (H S E))
      end.
  - forward; cbn [fst]; eauto.
  - forward; cbn [snd app];
      repeat (first [ apply prefix_nil | apply prefix_cons | done ]).
Qed.

End Runs.

(** A start of the launcher with a limit of 64 MiB. *)
Definition demo_argv : list string :=
  ["container_launcher"; "/tmp/rootfs"; "64"; "/usr/bin/node"; "/app/app.js"].

Lemma legacy_launch_calls_witness :
  (4 <= length demo_argv)%nat /\
  demo_argv !! 3%nat = Some "/usr/bin/node" /\
  ["/usr/bin/node"; "/app/app.js"] = drop 3 demo_argv /\
  [Valid "HOME=/root"] = Valid <$> ["HOME=/root"] /\
  [SysClone clone_flags; SysSethostname "nsi-container";
   SysSetrlimitAS 67108864 67108864; SysChroot "/tmp/rootfs"; SysChdir "/";
   SysMount (Some "proc") "/proc" (Some "proc") [] None;
   SysExecve "/usr/bin/node" ["/usr/bin/node"; "/app/app.js"]
     [Valid "HOME=/root"]]
  = SysClone clone_flags :: child_calls demo_argv ["HOME=/root"] /\
  let mb := atoll (default "" (demo_argv !! 2%nat)) in
  LLONG_MIN <= mb <= LLONG_MAX /\
  (mb <= 0 -> limit_of demo_argv = 0) /\
  (0 < mb < 2 ^ 43 -> limit_of demo_argv = mb * 1048576) /\
  (2 ^ 43 <= mb -> limit_of demo_argv = wrap_ll (mb * 1048576)).
Proof.
  apply (legacy_launch_calls (quiet_kernel 0 0) tt ["HOME=/root"] demo_argv).
  vm_compute. reflexivity.
Defined.

Lemma legacy_exit_code_witness :
  exists code,
    run (Launcher.main (quiet_kernel 4242 (signaled SIGKILL true))
           ["container_launcher"; "/tmp/rootfs"; "0"; "/usr/bin/node"]) tt []
    = (Exited code, [SysClone clone_flags; SysWaitpid 4242]) /\
    (4242 = -1 -> code = 1) /\
    (4242 <> -1 -> forall k, 0 <= k < 256 ->
       signaled SIGKILL true = exited k -> code = k) /\
    (4242 <> -1 -> forall s core, 1 <= s <= 126 ->
       signaled SIGKILL true = signaled s core -> code = 128 + s).
Proof.
  apply (legacy_exit_code (quiet_kernel 4242 (signaled SIGKILL true)) tt []
           ["container_launcher"; "/tmp/rootfs"; "0"; "/usr/bin/node"]
           (Reply 4242 0 0) tt (Reply 4242 0 (signaled SIGKILL true)) tt).
  - simpl. lia.
  - reflexivity.
  - done.
  - done.
  - reflexivity.
Defined.

(** A kernel that refuses the memory limit and the mount of /proc. *)
Definition stingy_kernel (c : syscall) (w : unit) : reply * unit :=
  match c with
  | SysSetrlimitAS _ _ | SysMount _ _ _ _ _ => (Reply (-1) 1 0, w)
  | _ => (Reply 0 0 0, w)
  end.

Lemma legacy_child_needs_witness :
  let argv := ["container_launcher"; "/tmp/rootfs"; "64"; "/usr/bin/node"] in
  let r := run (Launcher.main stingy_kernel argv) tt [] in
  (Forall (never_fails stingy_kernel)
     [SysSethostname "nsi-container";
      SysChroot (default "" (argv !! 1%nat)); SysChdir "/";
      SysExecve (default "" (argv !! 3%nat)) (drop 3 argv) (Valid <$> [])] ->
   r = (Replaced (default "" (argv !! 3%nat)) (drop 3 argv) (Valid <$> []),
        SysClone clone_flags :: child_calls argv [])) /\
  (r.1 = Exited 1 \/ exists p a e, r.1 = Replaced p a e) /\
  r.2 `prefix_of` SysClone clone_flags :: child_calls argv [].
Proof.
  apply (legacy_child_needs stingy_kernel tt []
           ["container_launcher"; "/tmp/rootfs"; "64"; "/usr/bin/node"]).
  - simpl. lia.
  - reflexivity.
Defined.

End LauncherRuns.

(* ===================================================================== *)
(** ** lib/run.js and the clone-based launcher together *)
(* ===================================================================== *)

Module LibRunTheory.
Import Proc WaitStatus Sandbox Launcher LibRunArgs LauncherRuns.

Lemma is_nat_pretty_N_char (d : N) :
  (d < 10)%N -> Ascii.is_nat (pretty_N_char d) = Some (N.to_nat d).
Proof.
  intros Hd.
  assert (d ∈ (N.of_nat <$> seq 0 10)) as Hin.
  { apply list_elem_of_fmap. exists (N.to_nat d). split; [lia|].
    apply elem_of_seq. lia. }
  cbn in Hin. rewrite !elem_of_cons in Hin.
  destruct Hin as [->|[->|[->|[->|[->|[->|[->|[->|[->|[->|Hin]]]]]]]]]];
    try done.
  by apply elem_of_nil in Hin.
Qed.

Lemma digits_pretty_N_go (x : N) : forall s acc,
  exists k, Launcher.digits acc (pretty_N_go x s)
            = Launcher.digits (acc * 10 ^ k + Z.of_N x) s /\ 0 <= k.
Proof.
  induction (N.lt_wf_0 x) as [x _ IH]. intros s acc.
  destruct (decide (x = 0%N)) as [->|Hx].
  - rewrite pretty_N_go_0. exists 0. split; [f_equal; lia | lia].
  - rewrite pretty_N_go_step by lia.
    assert (x `div` 10 < x)%N as Hlt by (apply N.div_lt; lia).
    destruct (IH _ Hlt (String (pretty_N_char (x `mod` 10)) s) acc)
      as (k & -> & Hk).
    exists (k + 1). split; [|lia].
    cbn [Launcher.digits].
    rewrite is_nat_pretty_N_char by (apply N.mod_lt; lia).
    f_equal. rewrite Z.pow_add_r by lia.
    pose proof (N.div_mod x 10 ltac:(lia)) as Hdm.
    rewrite N2Z.inj_div, Z2Nat.inj_pos || idtac.
    lia.
Qed.

Lemma digits_pretty_N (n : N) : Launcher.digits 0 (pretty n) = Z.of_N n.
Proof.
  unfold pretty, pretty_N. case_decide as Hn; [by subst|].
  destruct (digits_pretty_N_go n "" 0) as (k & -> & _). simpl. lia.
Qed.

(** The first character of a numeral is a digit. *)
Lemma pretty_N_head (n : N) :
  exists c t, pretty n = String c t /\ Json.is_digit c = true.
Proof.
  unfold pretty, pretty_N. case_decide as Hn; [by eexists _, _|].
  destruct (JsonTheory.pretty_N_go_digits n "") as (c & t & -> & Hc & _);
    [lia | done |].
  by eexists _, _.
Qed.

Lemma digit_not_sign c :
  Json.is_digit c = true ->
  Ascii.is_space c = false /\ c <> "-"%char /\ c <> "+"%char.
Proof. destruct c as [[] [] [] [] [] [] [] []]; by vm_compute. Qed.

(** The decimal numeral of an integer is read back as that integer. *)
Lemma strtoll_value_pretty (z : Z) : strtoll_value (pretty z) = z.
Proof.
  assert (forall n : N, strtoll_value (pretty n) = Z.of_N n) as Hnat.
  { intros n. rewrite <- digits_pretty_N.
    destruct (pretty_N_head n) as (c & t & -> & Hc).
    destruct (digit_not_sign c Hc) as (Hs & Hm & Hp).
    unfold strtoll_value. cbn [skip_space]. rewrite Hs.
    destruct c as [[] [] [] [] [] [] [] []]; done. }
  unfold pretty, pretty_Z. destruct z as [|p|p].
  - done.
  - apply (Hnat (N.pos p)).
  - unfold strtoll_value.
    rewrite JsonTheory.append_cons, JsonTheory.append_nil_l.
    cbn [skip_space]. change (Ascii.is_space "-") with false. cbv iota.
    change (pretty p) with (pretty (N.pos p)).
    by rewrite digits_pretty_N.
Qed.

(** [atoll] reads back the decimal numeral of every [long long]. *)
Lemma atoll_pretty (z : Z) :
  LLONG_MIN <= z <= LLONG_MAX -> atoll (pretty z) = z.
Proof. intros Hz. unfold atoll. rewrite strtoll_value_pretty. lia. Qed.

Section Together.
Context {world : Type}.
Variable kernel : syscall -> world -> reply * world.
Variable path_join : string -> string -> string.
Variable fs_exists : string -> bool.

(** X12. [runContainer] and the launcher together. When step 5 of
    [runContainer] builds the arguments (it does not throw) and the
    launcher started with them reaches the command, then the command is
    the first element of [header.runtime.cmd], taken as it is when it is
    absolute and joined to the work directory (or /app) otherwise; its
    arguments are the other elements, the relative ones with a slash
    joined to the work directory; the root is the prepared rootfs; and
    the address space is limited to [options.memory] MiB exactly when that
    number is positive. The memory option is an integer that fits the
    launcher's multiplication by 2^20 in a long long. *)
Theorem run_container_exec helper rootfsPath memory workDir cmd cppArgs
    w env p a e t :
  - 2 ^ 43 < default 0 memory < 2 ^ 43 ->
  cpp_args path_join fs_exists rootfsPath memory workDir cmd = Some cppArgs ->
  run (Launcher.main kernel (spawn_argv helper cppArgs)) w env
  = (Replaced p a e, t) ->
  exists cmd0 rest,
    cmd = cmd0 :: rest /\
    p = container_cmd path_join workDir cmd0 /\
    a = p :: (container_arg path_join workDir <$> rest) /\
    e = Valid <$> env /\
    t = [SysClone clone_flags; SysSethostname "nsi-container"]
        ++ (if 0 <? default 0 memory
            then [SysSetrlimitAS (default 0 memory * 1048576)
                    (default 0 memory * 1048576)]
            else [])
        ++ [SysChroot rootfsPath; SysChdir "/";
            SysMount (Some "proc") "/proc" (Some "proc") [] None;
            SysExecve p a (Valid <$> env)].
Proof.
  intros Hrange Hargs (st' & Hrun)%SandboxEnvTheory.run_inv.
  apply launcher_main_Replaced in Hrun as (_ & Hp & -> & -> & ->).
  unfold cpp_args in Hargs. destruct cmd as [|cmd0 rest]; [done|].
  destruct (_ && _); [done|]. injection Hargs as <-.
  exists cmd0, rest. unfold spawn_argv in *. cbn in Hp. injection Hp as <-.
  split_and!; try done.
  unfold child_calls, limit_of.
  cbn -[atoll memory_arg Z.mul Z.ltb container_cmd container_arg].
  assert (atoll (memory_arg memory) = default 0 memory) as ->.
  { unfold memory_arg.
    assert ((match memory with
             | Some m => if m =? 0 then 0 else m
             | None => 0
             end) = default 0 memory) as ->.
    { destruct memory as [m|]; [|done]. cbn [default].
      destruct (m =? 0) eqn:Hm; [|done]. by apply Z.eqb_eq in Hm. }
    apply atoll_pretty. unfold LLONG_MIN, LLONG_MAX. lia. }
  repeat f_equal.
  destruct (0 <? default 0 memory) eqn:Hpos; [|done].
  apply Z.ltb_lt in Hpos.
  rewrite wrap_ll_small by (unfold LLONG_MIN, LLONG_MAX; lia).
  by rewrite (proj2 (Z.ltb_lt _ _)) by lia.
Qed.

End Together.

(** A stand-in for [path.join] in the example run. *)
Definition demo_join (a b : string) : string := a +:+ "/" +:+ b.

Lemma run_container_exec_witness :
  exists cmd0 rest,
    ["node"; "./app.js"; "--port"] = cmd0 :: rest /\
    "/app/node" = container_cmd demo_join (Some "/app") cmd0 /\
    ["/app/node"; "/app/./app.js"; "--port"]
    = "/app/node" :: (container_arg demo_join (Some "/app") <$> rest) /\
    [Valid "HOME=/root"] = Valid <$> ["HOME=/root"] /\
    [SysClone clone_flags; SysSethostname "nsi-container";
     SysSetrlimitAS 67108864 67108864; SysChroot "/tmp/rootfs"; SysChdir "/";
     SysMount (Some "proc") "/proc" (Some "proc") [] None;
     SysExecve "/app/node" ["/app/node"; "/app/./app.js"; "--port"]
       [Valid "HOME=/root"]]
    = [SysClone clone_flags; SysSethostname "nsi-container"]
      ++ (if 0 <? default 0 (Some 64)
          then [SysSetrlimitAS (default 0 (Some 64) * 1048576)
                  (default 0 (Some 64) * 1048576)]
          else [])
      ++ [SysChroot "/tmp/rootfs"; SysChdir "/";
          SysMount (Some "proc") "/proc" (Some "proc") [] None;
          SysExecve "/app/node" ["/app/node"; "/app/./app.js"; "--port"]
            (Valid <$> ["HOME=/root"])].
Proof.
  apply (run_container_exec (quiet_kernel 0 0) demo_join (fun _ => true)
           "container_launcher" "/tmp/rootfs" (Some 64) (Some "/app")
           ["node"; "./app.js"; "--port"]
           ["/tmp/rootfs"; "64"; "/app/node"; "/app/./app.js"; "--port"]
           tt ["HOME=/root"]).
  - simpl. lia.
  - by vm_compute.
  - by vm_compute.
Defined.

End LibRunTheory.

(* ===================================================================== *)
(** ** Opening an image: what is accepted, and when *)
(* ===================================================================== *)

Module OpenRuns.
Import Json Buf BufTheory Image ImageTheory.

(** What an opened file looks like. *)
Lemma open_whole_inr file j v payload :
  open_whole file = inr (j, v, payload) ->
  let L := readUInt32BE file 8 in
  (HEADER_FIXED_LEN + L <= len file)%N /\
  slice file 0 4 = MAGIC_BYTES /\ readUInt32BE file 4 = VERSION /\
  (L <= MAX_HEADER_LEN)%N /\
  JSON_parse (to_string (slice file HEADER_FIXED_LEN (HEADER_FIXED_LEN + L)))
  = Some j /\
  v = VERSION /\ payload = drop (N.to_nat (HEADER_FIXED_LEN + L)) file.
Proof.
  intros Hwhole L. unfold open_whole in Hwhole.
  destruct (len file <? HEADER_FIXED_LEN)%N eqn:H12; [done|].
  apply N.ltb_ge in H12.
  unfold parse_fixed in Hwhole.
  destruct (bool_decide (slice file 0 4 = MAGIC_BYTES)) eqn:Hmagic; [|done].
  apply bool_decide_eq_true in Hmagic. cbn [negb] in Hwhole.
  destruct (readUInt32BE file 4 =? VERSION)%N eqn:Hversion; [|done].
  apply N.eqb_eq in Hversion. cbn [negb] in Hwhole. fold L in Hwhole.
  destruct (MAX_HEADER_LEN <? L)%N eqn:Hlen; [done|].
  apply N.ltb_ge in Hlen. cbn [hi_headerJsonLen hi_version] in Hwhole.
  destruct (HEADER_FIXED_LEN + L <=? len file)%N eqn:Hfull; [|done].
  apply N.leb_le in Hfull.
  destruct (JSON_parse _) as [j'|] eqn:Hparse; [|done].
  injection Hwhole as <- <- <-. by rewrite Hversion.
Qed.

(** X13. The rest of the decision [readNsiImage] makes, for every file
    and every way of cutting it into chunks. A file of fewer than twelve
    bytes is incomplete. With the magic, version 1 and a declared header
    length [L] of at most 10 MiB, the file is incomplete when it ends
    before byte [12 + L], is rejected for its JSON when bytes 12 to
    [12 + L] do not parse, and is opened otherwise. An image that is
    opened has the magic, version 1 and [L] within the limit; its header
    is the parse of those bytes, its version is 1, and the inflater is
    given the bytes from [12 + L] to the end of the file. *)
Theorem readNsiImage_decides (chunks : list (list byte)) :
  let file := concat chunks in
  let L := readUInt32BE file 8 in
  let text := to_string (slice file HEADER_FIXED_LEN (HEADER_FIXED_LEN + L)) in
  ((len file < HEADER_FIXED_LEN)%N ->
   readNsiImage chunks = OpenRejected IncompleteImage)
  /\ ((HEADER_FIXED_LEN <= len file)%N -> slice file 0 4 = MAGIC_BYTES ->
      readUInt32BE file 4 = VERSION -> (L <= MAX_HEADER_LEN)%N ->
      ((len file < HEADER_FIXED_LEN + L)%N ->
       readNsiImage chunks = OpenRejected IncompleteImage)
      /\ ((HEADER_FIXED_LEN + L <= len file)%N -> JSON_parse text = None ->
          readNsiImage chunks = OpenRejected HeaderJsonError)
      /\ ((HEADER_FIXED_LEN + L <= len file)%N -> forall j, JSON_parse text = Some j ->
          exists img later, readNsiImage chunks = Opened img later))
  /\ (forall img later, readNsiImage chunks = Opened img later ->
      (HEADER_FIXED_LEN + L <= len file)%N /\
      slice file 0 4 = MAGIC_BYTES /\ readUInt32BE file 4 = VERSION /\
      (L <= MAX_HEADER_LEN)%N /\
      JSON_parse text = Some (header img) /\
      version img = VERSION /\
      concat (inflater_writes img later)
      = drop (N.to_nat (HEADER_FIXED_LEN + L)) file).
Proof.
  intros file L text. pose proof (readNsiImage_whole chunks) as Hwhole.
  fold file in Hwhole.
  assert ((HEADER_FIXED_LEN <= len file)%N -> slice file 0 4 = MAGIC_BYTES ->
          readUInt32BE file 4 = VERSION -> (L <= MAX_HEADER_LEN)%N ->
          open_whole file
          = if (HEADER_FIXED_LEN + L <=? len file)%N
            then match JSON_parse text with
                 | None => inl HeaderJsonError
                 | Some j => inr (j, VERSION,
                                  drop (N.to_nat (HEADER_FIXED_LEN + L)) file)
                 end
            else inl IncompleteImage) as Hgood.
  { intros H12 Hmagic Hversion Hlen. unfold open_whole, parse_fixed.
    rewrite (proj2 (N.ltb_ge _ _) H12), bool_decide_eq_true_2 by done.
    rewrite Hversion. cbn [negb N.eqb VERSION Pos.eqb].
    fold L. rewrite (proj2 (N.ltb_ge _ _) Hlen).
    cbn [hi_headerJsonLen hi_version]. done. }
  split_and!.
  - intros Hshort. apply opened_rejected. rewrite Hwhole. unfold open_whole.
    by rewrite (proj2 (N.ltb_lt _ _) Hshort).
  - intros H12 Hmagic Hversion Hlen. specialize (Hgood H12 Hmagic Hversion Hlen).
    split_and!.
    + intros Hshort. apply opened_rejected. rewrite Hwhole, Hgood.
      by rewrite (proj2 (N.leb_gt _ _) Hshort).
    + intros Hfull Hparse. apply opened_rejected. rewrite Hwhole, Hgood.
      by rewrite (proj2 (N.leb_le _ _) Hfull), Hparse.
    + intros Hfull j Hparse. rewrite Hgood in Hwhole.
      rewrite (proj2 (N.leb_le _ _) Hfull), Hparse in Hwhole.
      destruct (readNsiImage chunks) as [e|img later]; [done|].
      by exists img, later.
  - intros img later Hopen. rewrite Hopen in Hwhole. cbn [opened] in Hwhole.
    symmetry in Hwhole. by apply open_whole_inr in Hwhole.
Qed.

(** Where the header ends, as the first twelve bytes declare it. *)
Definition header_end (b : list byte) : N :=
  (HEADER_FIXED_LEN + readUInt32BE b 8)%N.

Lemma header_end_app (b c : list byte) :
  (HEADER_FIXED_LEN <= len b)%N -> header_end (b ++ c) = header_end b.
Proof.
  intros H. unfold header_end. rewrite readUInt32BE_app_l; [done|].
  unfold len, HEADER_FIXED_LEN in H. lia.
Qed.

Lemma parse_fixed_len b hi :
  parse_fixed b = inr hi ->
  (hi_headerOffset hi + hi_headerJsonLen hi)%N = header_end b.
Proof.
  unfold parse_fixed, header_end. repeat case_match; try done. by intros [= <-].
Qed.

(** One chunk, while the promise is pending: the handler stays pending,
    rejects, or resolves because this chunk brought the last byte of the
    header. *)
Lemma on_data_pending r chunk r' s :
  pending r -> on_data r chunk = (r', s) ->
  let b := buffer r ++ chunk in
  match s with
  | None => pending r' /\ buffer r' = b
  | Some (Reject _) => True
  | Some (Resolve img) =>
      img_buffer img = b /\ img_payloadOffset img = header_end b /\
      (HEADER_FIXED_LEN <= len b)%N /\
      (header_end b <= len b)%N /\
      ((HEADER_FIXED_LEN <= len (buffer r))%N ->
       (len (buffer r) < header_end b)%N)
  end.
Proof.
  intros [Hres Hinfo] Hdata b. unfold on_data in Hdata. rewrite Hres in Hdata.
  fold b in Hdata.
  assert (forall hi, (HEADER_FIXED_LEN <= len b)%N -> parse_fixed b = inr hi ->
    ((HEADER_FIXED_LEN <= len (buffer r))%N ->
       (len (buffer r) < header_end b)%N) ->
    match parse_header b hi with
    | Some s0 => (Reader b (Some hi) true, Some s0)
    | None => (Reader b (Some hi) false, None)
    end = (r', s) ->
    match s with
    | None => pending r' /\ buffer r' = b
    | Some (Reject _) => True
    | Some (Resolve img) =>
        img_buffer img = b /\ img_payloadOffset img = header_end b /\
        (HEADER_FIXED_LEN <= len b)%N /\
        (header_end b <= len b)%N /\
        ((HEADER_FIXED_LEN <= len (buffer r))%N ->
         (len (buffer r) < header_end b)%N)
    end) as Hstep2.
  { intros hi H12 Hfixed Hbefore. unfold parse_header.
    rewrite (parse_fixed_len _ _ Hfixed).
    pose proof (parse_fixed_len _ _ Hfixed) as Hend.
    rewrite (parse_fixed_offset _ _ Hfixed) in Hend.
    destruct (header_end b <=? len b)%N eqn:Hfull.
    - apply N.leb_le in Hfull.
      destruct (JSON_parse _); intros [= <- <-]; [|done]. by cbn.
    - apply N.leb_gt in Hfull. intros [= <- <-].
      split; [|done]. split; [done|]. cbn. split_and!; [done..|].
      rewrite Hend. done. }
  destruct (headerInfo r) as [hi|] eqn:Hhi.
  - destruct Hinfo as (H12 & Hfixed & Hshort).
    assert (HEADER_FIXED_LEN <= len b)%N by (unfold b; rewrite len_app; lia).
    assert (parse_fixed b = inr hi) as Hb by (unfold b; by rewrite parse_fixed_app).
    apply (Hstep2 hi); [done..| |done].
    intros _. unfold b. rewrite header_end_app by done.
    pose proof (parse_fixed_len _ _ Hfixed) as Hend.
    rewrite (parse_fixed_offset _ _ Hfixed) in Hend. lia.
  - destruct (HEADER_FIXED_LEN <=? len b)%N eqn:H12.
    + apply N.leb_le in H12.
      destruct (parse_fixed b) as [e|hi] eqn:Hfixed.
      * by injection Hdata as <- <-.
      * apply (Hstep2 hi); [done..| |done]. lia.
    + apply N.leb_gt in H12. injection Hdata as <- <-.
      split; [|done]. split; [done|]. by cbn.
Qed.

Lemma feed_resolves r chunks img later :
  pending r -> feed r chunks = Opened img later ->
  exists earlier last,
    chunks = earlier ++ last :: later /\
    let before := buffer r ++ concat earlier in
    img_buffer img = before ++ last /\
    img_payloadOffset img = header_end (before ++ last) /\
    (HEADER_FIXED_LEN <= len (before ++ last))%N /\
    (header_end (before ++ last) <= len (before ++ last))%N /\
    ((HEADER_FIXED_LEN <= len before)%N ->
     (len before < header_end (before ++ last))%N).
Proof.
  revert r. induction chunks as [|chunk chunks IH]; intros r Hr; [done|].
  cbn [feed]. destruct (on_data r chunk) as [r' [[e|img']|]] eqn:Hdata.
  - done.
  - intros [= <- <-]. exists [], chunk. split; [done|].
    cbn [concat]. rewrite app_nil_r.
    exact (on_data_pending _ _ _ _ Hr Hdata).
  - destruct (on_data_pending _ _ _ _ Hr Hdata) as [Hr' Hb].
    intros (earlier & last & -> & H)%IH; [|done].
    exists (chunk :: earlier), last. split; [done|].
    cbn [concat]. rewrite Hb in H. by rewrite (assoc_L (++)).
Qed.

(** X14. [readNsiImage] resolves with the chunk that brings the last byte
    of the header. The image it resolves to holds the chunks up to that
    one, its payload offset is 12 plus the declared header length, and
    the chunks after it are left for [getPayloadStream]: they are not
    read while the image is opened. *)
Theorem readNsiImage_resolves_early chunks img later :
  readNsiImage chunks = Opened img later ->
  exists earlier last,
    chunks = earlier ++ last :: later /\
    img_buffer img = concat earlier ++ last /\
    img_payloadOffset img = header_end (concat chunks) /\
    (len (concat earlier) < header_end (concat chunks)
     <= len (concat earlier ++ last))%N.
Proof.
  intros (earlier & last & -> & Hbuf & Hoff & H12 & Hfull & Hbefore)%feed_resolves.
  2: { split; [done|]. cbn. unfold len, HEADER_FIXED_LEN. simpl. lia. }
  cbn [buffer app] in *.
  exists earlier, last. rewrite concat_app. cbn [concat].
  rewrite (assoc_L (++)), header_end_app by done.
  split_and!; try done.
  destruct (decide (len (concat earlier) < HEADER_FIXED_LEN)%N) as [Hshort|Hlong].
  - unfold header_end. lia.
  - apply Hbefore. lia.
Qed.

Lemma readNsiImage_resolves_early_witness :
  exists earlier last,
    [take 3 OpenClaims.small_file; take 12 (drop 3 OpenClaims.small_file);
     drop 15 OpenClaims.small_file]
    = earlier ++ last :: [drop 15 OpenClaims.small_file] /\
    take 15 OpenClaims.small_file = concat earlier ++ last /\
    14%N = header_end (concat
      [take 3 OpenClaims.small_file; take 12 (drop 3 OpenClaims.small_file);
       drop 15 OpenClaims.small_file]) /\
    (len (concat earlier) < header_end (concat
      [take 3 OpenClaims.small_file; take 12 (drop 3 OpenClaims.small_file);
       drop 15 OpenClaims.small_file]) <= len (concat earlier ++ last))%N.
Proof.
  apply (readNsiImage_resolves_early
           [take 3 OpenClaims.small_file; take 12 (drop 3 OpenClaims.small_file);
            drop 15 OpenClaims.small_file]
           {| header := JObject []; version := 1;
              img_buffer := take 15 OpenClaims.small_file;
              img_payloadOffset := 14 |}
           [drop 15 OpenClaims.small_file]).
  by vm_compute.
Defined.

End OpenRuns.

(* ===================================================================== *)
(** ** createNsiImage: what a failed run leaves behind *)
(* ===================================================================== *)

Module CreateRuns.
Import Json Buf BufTheory Image CreateTheory.

(** Well-formed UTF-8 has at most three bytes for each code unit. *)
Lemma utf8_from_length pending s :
  utf8_from pending s = true ->
  (N.of_nat (String.length s) <= 3 * js_length s + N.of_nat pending)%N.
Proof.
  revert pending. induction s as [|c s IH]; intros pending.
  - cbn. intros ->%Nat.eqb_eq. lia.
  - cbn [utf8_from js_length String.length]. unfold code_units.
    set (n := N_of_ascii c).
    destruct pending as [|pending].
    + destruct (N.ltb_spec n 128), (N.leb_spec 128 n), (N.ltb_spec n 192),
        (N.leb_spec 192 n), (N.ltb_spec n 224), (N.leb_spec 224 n),
        (N.ltb_spec n 240), (N.leb_spec 240 n), (N.ltb_spec n 248);
        cbn [andb]; try lia; try done; intros Hrest%IH; lia.
    + intros [[Hlo Hhi]%andb_prop Hrest%IH]%andb_prop. rewrite Hlo, Hhi.
      cbn [andb]. lia.
Qed.

(** So the header of a well-formed text that [JSON.stringify] returned is
    shorter than 2^32 bytes: [writeUInt32BE] throws for no such header,
    and the second reason below is that of malformed text only. *)
Lemma header_length_fits (fields : list (string * json)) :
  well_formed (JSON_stringify (JObject fields)) = true ->
  stringify_throws (JObject fields) = false ->
  is_Some (writeUInt32BE (len (header_bytes fields))).
Proof.
  intros Hutf8%utf8_from_length Hshort%N.ltb_ge.
  unfold writeUInt32BE, len, header_bytes.
  rewrite RoundTrip.length_from_string.
  unfold MAX_STRING_LENGTH in Hshort.
  rewrite (proj2 (N.ltb_lt _ _)); [done|lia].
Qed.

(** X15. A run of [createNsiImage] that does not resolve has still
    changed the caller's template when it failed after packing: [hash]
    and [created] are assigned when zlib fails, [size] too when an
    exception escapes the callback of zlib or the write fails. The
    exception is the RangeError of [JSON.stringify] for a header text
    longer than the longest string (2^29 - 24 code units), or else that
    of [writeUInt32BE] for a header of 2^32 bytes or more, which no
    well-formed text has ([header_length_fits]). Only a failure of the
    packing leaves everything as it was. No other object changes, and no
    file does except in a failed write. *)
Theorem createNsiImage_failure {dir} (tar_pack : dir -> option (list byte))
    deflate sha256_hex imagePath sourceDir headerJson now fault σ template r σ' :
  st_heap σ !! headerJson = Some template ->
  createNsiImage tar_pack deflate sha256_hex imagePath sourceDir headerJson now
    fault σ = (r, σ') ->
  r <> Created imagePath ->
  (forall l, l <> headerJson -> st_heap σ' !! l = st_heap σ !! l) /\
  match r with
  | CreateRejected TarPackingFailed => tar_pack sourceDir = None /\ σ' = σ
  | CreateRejected ZlibCompressionFailed =>
      exists raw,
        tar_pack sourceDir = Some raw /\ deflate raw = None /\
        st_files σ' = st_files σ /\
        st_heap σ' !! headerJson
        = Some (set_field "created" (JString now)
                  (set_field "hash" (JString (sha256_hex raw)) template))
  | CreateThrew =>
      exists raw compressed,
        tar_pack sourceDir = Some raw /\ deflate raw = Some compressed /\
        let final := final_header (sha256_hex raw) now (len compressed) template in
        st_files σ' = st_files σ /\
        st_heap σ' !! headerJson = Some final /\
        ((MAX_STRING_LENGTH < js_length (JSON_stringify (JObject final)))%N \/
         (js_length (JSON_stringify (JObject final)) <= MAX_STRING_LENGTH)%N /\
         (4294967296 <= len (header_bytes final))%N)
  | CreateRejected FailedToWriteImageFile =>
      exists raw compressed,
        tar_pack sourceDir = Some raw /\ deflate raw = Some compressed /\
        fault <> Fs.NoFault /\
        st_heap σ' !! headerJson
        = Some (final_header (sha256_hex raw) now (len compressed) template)
  | Created _ => False
  end.
Proof.
  intros Htemplate Hrun Hfail. unfold createNsiImage in Hrun.
  destruct (tar_pack sourceDir) as [raw|] eqn:Hpack.
  2: { injection Hrun as <- <-. by split. }
  rewrite decide_False in Hrun by (by rewrite Htemplate).
  destruct (deflate raw) as [compressed|] eqn:Hdeflate.
  2: { injection Hrun as <- <-. cbn [st_heap st_files]. split.
       - intros l Hl. by rewrite !set_prop_lookup_ne.
       - exists raw. split_and!; try done.
         by rewrite (set_prop_lookup _ _ _ _ _ (set_prop_lookup _ _ _ _ _ Htemplate)). }
  set (h := set_prop _ "size" _ _) in Hrun.
  assert (h !! headerJson
          = Some (final_header (sha256_hex raw) now (len compressed) template))
    as Hfinal.
  { unfold h, final_header.
    by rewrite (set_prop_lookup _ _ _ _ _
                  (set_prop_lookup _ _ _ _ _ (set_prop_lookup _ _ _ _ _ Htemplate))). }
  assert (forall l, l <> headerJson -> h !! l = st_heap σ !! l) as Hframe.
  { intros l Hl. unfold h. by rewrite !set_prop_lookup_ne. }
  rewrite Hfinal in Hrun. cbn [default id] in Hrun.
  destruct (stringify_throws _) eqn:Hlong.
  { injection Hrun as <- <-. cbn [st_heap st_files]. split; [done|].
    exists raw, compressed. split_and!; try done.
    left. by apply N.ltb_lt in Hlong. }
  apply N.ltb_ge in Hlong.
  destruct (writeUInt32BE _) as [headerLenBuffer|] eqn:Hlen.
  2: { injection Hrun as <- <-. cbn [st_heap st_files]. split; [done|].
       exists raw, compressed. split_and!; try done.
       right. split; [done|]. unfold writeUInt32BE in Hlen.
       destruct (_ <? _)%N eqn:Hlt; [done|]. by apply N.ltb_ge in Hlt. }
  destruct fault; cbn in Hrun; injection Hrun as <- <-; try done.
  - cbn [st_heap st_files]. split; [done|]. by exists raw, compressed.
  - cbn [st_heap st_files]. split; [done|]. by exists raw, compressed.
Qed.

Lemma createNsiImage_failure_witness :
  (forall l, l <> 1%positive ->
     st_heap (WriteClaims.demo_create Fs.OpenFails).2 !! l
     = st_heap WriteClaims.demo_state !! l) /\
  exists raw compressed,
    Some WriteClaims.demo_dir = Some raw /\ Some raw = Some compressed /\
    Fs.OpenFails <> Fs.NoFault /\
    st_heap (WriteClaims.demo_create Fs.OpenFails).2 !! 1%positive
    = Some (final_header (WriteClaims.demo_hash raw) "2025-01-01T00:00:00.000Z"
              (len compressed) WriteClaims.demo_template).
Proof.
  apply (createNsiImage_failure Some Some WriteClaims.demo_hash "demo.nsi"
           WriteClaims.demo_dir 1%positive "2025-01-01T00:00:00.000Z"
           Fs.OpenFails WriteClaims.demo_state WriteClaims.demo_template
           (CreateRejected FailedToWriteImageFile)
           (WriteClaims.demo_create Fs.OpenFails).2).
  - reflexivity.
  - by vm_compute.
  - done.
Defined.

End CreateRuns.

(* ===================================================================== *)
(** ** The two tool chains on each other's images *)
(* ===================================================================== *)

Module Interop.
Import Json Buf BufTheory JsonTheory Image ImageTheory CreateTheory.

Lemma length_slice (b : list byte) (start stop : N) :
  (stop <= len b)%N ->
  length (slice b start stop) = N.to_nat (stop - start).
Proof.
  unfold slice, len. intros H. rewrite length_take, length_drop. lia.
Qed.

(** A read that stays inside the file gets the bytes that are there. *)
Lemma read_at_inside (file : list byte) (position count : N) :
  (position + count <= len file)%N ->
  CliRun.read_at file position count = slice file position (position + count).
Proof.
  intros H. unfold CliRun.read_at. rewrite length_slice by done.
  replace (N.to_nat count - N.to_nat (position + count - position))%nat
    with 0%nat by lia.
  apply app_nil_r.
Qed.

Lemma readUInt32BE_slice (b : list byte) (off : nat) :
  readUInt32BE (slice b (N.of_nat off) (N.of_nat off + 4)) 0 = readUInt32BE b off.
Proof.
  rewrite (RoundTrip.readUInt32BE_drop b off). unfold slice.
  replace (N.to_nat (N.of_nat off + 4 - N.of_nat off)) with 4%nat by lia.
  rewrite Nat2N.id. unfold readUInt32BE, byte_at.
  by rewrite !lookup_take by lia.
Qed.

(** The shape the handler of the run command asks of a header: line 97
    calls [header.cmd.join]. *)
Definition has_cmd_array (header : json) : bool :=
  match CliRun.get_prop header "cmd" with
  | Some (Some (JArray _)) => true
  | _ => false
  end.

(** The header as the handler of the run command reads it, from a file
    that holds all of it. *)
Lemma read_header_inside (file : list byte) header :
  let L := readUInt32BE file 8 in
  (HEADER_FIXED_LEN + L <= len file)%N ->
  slice file 0 4 = MAGIC_BYTES ->
  JSON_parse (to_string (slice file HEADER_FIXED_LEN (HEADER_FIXED_LEN + L)))
  = Some header ->
  (CliRun.read_header file).2
  = if has_cmd_array header then inr (header, L) else inl CliRun.HeaderTypeError.
Proof.
  intros L Hfull Hmagic Hparse. unfold HEADER_FIXED_LEN in *.
  unfold CliRun.read_header.
  rewrite (read_at_inside file 0 4) by lia.
  rewrite (read_at_inside file 8 4) by lia.
  change (slice file 0 (0 + 4)) with (slice file 0 4). rewrite Hmagic.
  rewrite bool_decide_eq_true_2 by done. cbn [negb].
  change (slice file 8 (8 + 4)) with (slice file (N.of_nat 8) (N.of_nat 8 + 4)).
  rewrite readUInt32BE_slice. fold L.
  rewrite (read_at_inside file 12 L) by lia. rewrite Hparse.
  unfold has_cmd_array.
  destruct header; cbn [CliRun.get_prop]; try done.
  repeat case_match; done.
Qed.

Section Readers.
Context {dir : Type}.
Variable unzip : list byte -> option (list byte).
Variable tar_extract : list byte -> option dir.
Variable sha256_hex : list byte -> string.

Lemma load_image_inside (file : list byte) header :
  let L := readUInt32BE file 8 in
  (HEADER_FIXED_LEN + L <= len file)%N ->
  slice file 0 4 = MAGIC_BYTES ->
  JSON_parse (to_string (slice file HEADER_FIXED_LEN (HEADER_FIXED_LEN + L)))
  = Some header ->
  (CliRun.load_image unzip tar_extract sha256_hex file).2
  = if has_cmd_array header
    then match (CliRun.verify_and_extract unzip tar_extract sha256_hex header
                  (drop (N.to_nat (HEADER_FIXED_LEN + L)) file)).2 with
         | inl e => inl e
         | inr rootfs => inr (header, rootfs)
         end
    else inl CliRun.HeaderTypeError.
Proof.
  intros L Hfull Hmagic Hparse.
  pose proof (read_header_inside file header Hfull Hmagic Hparse) as Hhead.
  fold L in Hhead. unfold CliRun.load_image.
  destruct (CliRun.read_header file) as [log r]. cbn [snd] in Hhead. subst r.
  destruct (has_cmd_array header); [|done].
  unfold HEADER_FIXED_LEN in *.
  rewrite (proj2 (N.ltb_ge _ _)) by lia.
  rewrite read_at_inside by lia.
  replace (12 + L + (len file - (12 + L)))%N with (len file) by lia.
  rewrite slice_to_end.
  by destruct (CliRun.verify_and_extract _ _ _ _ _) as [log' [e|rootfs]].
Qed.


End Readers.


(** The parts of a written image, read back. *)
Lemma image_parts hl hb c :
  writeUInt32BE (len hb) = Some hl ->
  let file := image_bytes hl hb c in
  readUInt32BE file 8 = len hb /\
  (HEADER_FIXED_LEN + len hb <= len file)%N /\
  slice file 0 4 = MAGIC_BYTES /\
  slice file HEADER_FIXED_LEN (HEADER_FIXED_LEN + len hb) = hb /\
  drop (N.to_nat (HEADER_FIXED_LEN + len hb)) file = c.
Proof.
  intros Hhl file.
  destruct (RoundTrip.image_bytes_prefix _ hl hb c Hhl)
    as (H12 & Hmagic & Hversion & Hlen & Hdrop).
  fold file in H12, Hmagic, Hversion, Hlen, Hdrop.
  assert (len file = (HEADER_FIXED_LEN + len hb + len c)%N) as Hfile.
  { unfold len, HEADER_FIXED_LEN in *.
    rewrite <- (take_drop 12 file) at 1. rewrite Hdrop.
    rewrite !length_app, length_take. lia. }
  split_and!; try done.
  - lia.
  - unfold slice. change (N.to_nat HEADER_FIXED_LEN) with 12%nat. rewrite Hdrop.
    replace (N.to_nat _) with (length hb) by (unfold len; lia).
    by rewrite take_app_length.
  - replace (N.to_nat _) with (12 + length hb)%nat
      by (unfold len, HEADER_FIXED_LEN; lia).
    by rewrite <- drop_drop, Hdrop, drop_app_length.
Qed.


Section Writers.
Context {dir : Type}.
Variable unzip : list byte -> option (list byte).
Variable tar_extract : list byte -> option dir.
Variable sha256_hex : list byte -> string.

Abbreviation load_image := (CliRun.load_image unzip tar_extract sha256_hex).
Abbreviation verify_and_extract :=
  (CliRun.verify_and_extract unzip tar_extract sha256_hex).

(** What the handler of the run command makes of a written image. *)
Lemma load_image_bytes hl hb c header :
  writeUInt32BE (len hb) = Some hl ->
  JSON_parse (to_string hb) = Some header ->
  (load_image (image_bytes hl hb c)).2
  = if has_cmd_array header
    then match (verify_and_extract header c).2 with
         | inl e => inl e
         | inr rootfs => inr (header, rootfs)
         end
    else inl CliRun.HeaderTypeError.
Proof.
  intros Hhl Hparse.
  destruct (image_parts hl hb c Hhl) as (Hlen & Hfull & Hmagic & Hslice & Hdrop).
  rewrite (load_image_inside unzip tar_extract sha256_hex _ header);
    rewrite ?Hlen; try done.
  - by rewrite Hdrop.
  - by rewrite Hslice.
Qed.

Lemma load_created_image {src : Type} (tar_pack : src -> option (list byte))
    deflate digest imagePath sourceDir headerJson now fault σ σ' template file :
  st_heap σ !! headerJson = Some template ->
  wf (JObject template) = true ->
  createNsiImage tar_pack deflate digest imagePath sourceDir headerJson now
    fault σ = (Created imagePath, σ') ->
  st_files σ' !! imagePath = Some file ->
  exists raw compressed final,
    tar_pack sourceDir = Some raw /\ deflate raw = Some compressed /\
    st_heap σ' !! headerJson = Some final /\
    (load_image file).2
    = if has_cmd_array (JObject template)
      then match (verify_and_extract (JObject final) compressed).2 with
           | inl e => inl e
           | inr rootfs => inr (JObject final, rootfs)
           end
      else inl CliRun.HeaderTypeError.
Proof.
  intros Htemplate Hwf Hrun Hfile.
  apply createNsiImage_Created in Hrun
    as (template' & raw & compressed & hl & Ht & Hpack & Hdeflate & Hlen
        & _ & _ & Hheap & Hfiles).
  rewrite Htemplate in Ht. injection Ht as <-.
  set (final := final_header (digest raw) now (len compressed) template) in *.
  exists raw, compressed, final.
  rewrite Hheap, lookup_insert_eq. split_and!; try done.
  rewrite Hfiles, lookup_insert_eq in Hfile. injection Hfile as <-.
  rewrite (load_image_bytes hl _ compressed (JObject final)); [|done|].
  - assert (has_cmd_array (JObject final) = has_cmd_array (JObject template)) as ->;
      [|done].
    unfold has_cmd_array, final, final_header. cbn [CliRun.get_prop].
    by rewrite !lookup_set_field_ne by done.
  - unfold header_bytes. rewrite to_from_string.
    apply JSON_parse_stringify. by apply RoundTrip.wf_final_header.
Qed.


(** X18. The two tool chains do not share a header layout. The template
    of lib/build.js keeps the command under [runtime], so the handler of
    the run command refuses every image that [buildImage] writes: it ends
    in the TypeError of [header.cmd.join], whatever the payload is. *)
Theorem cli_refuses_built_image {src : Type} (tar_pack : src -> option (list byte))
    deflate digest imagePath sourceDir headerJson now fault σ σ'
    name version cmd workDir env file :
  st_heap σ !! headerJson
  = Some (LibBuild.header_template name version cmd workDir env) ->
  wf name = true -> wf version = true -> wf cmd = true -> wf workDir = true ->
  wf env = true ->
  createNsiImage tar_pack deflate digest imagePath sourceDir headerJson now
    fault σ = (Created imagePath, σ') ->
  st_files σ' !! imagePath = Some file ->
  (load_image file).2 = inl CliRun.HeaderTypeError.
Proof.
  intros Htemplate Hname Hversion Hcmd HworkDir Henv Hrun Hfile.
  assert (wf (JObject (LibBuild.header_template name version cmd workDir env))
          = true) as Hwf.
  { unfold LibBuild.header_template. cbn [wf forallb snd map fst].
    rewrite Hname, Hversion, Hcmd, HworkDir, Henv. by vm_compute. }
  destruct (load_created_image _ _ _ _ _ _ _ _ _ _ _ _ Htemplate Hwf Hrun Hfile)
    as (raw & compressed & final & _ & _ & _ & Hload).
  by rewrite Hload.
Qed.


End Writers.


Lemma cli_refuses_built_image_witness :
  (CliRun.load_image Some Some WriteClaims.demo_hash
     (default [] (st_files (WriteClaims.demo_create Fs.NoFault).2 !! "demo.nsi"))).2
  = inl CliRun.HeaderTypeError.
Proof.
  apply (cli_refuses_built_image Some Some WriteClaims.demo_hash Some Some
           WriteClaims.demo_hash "demo.nsi" WriteClaims.demo_dir 1%positive
           "2025-01-01T00:00:00.000Z" Fs.NoFault WriteClaims.demo_state
           (WriteClaims.demo_create Fs.NoFault).2
           (JString "demo") (JString "latest")
           (JArray [JString "node"; JString "app.js"]) (JString "/app")
           (JObject [])).
  - reflexivity.
  - reflexivity.
  - reflexivity.
  - reflexivity.
  - reflexivity.
  - reflexivity.
  - by vm_compute.
  - by vm_compute.
Defined.




End Interop.

(* ===================================================================== *)
(** ** lib/build.js: what the copy filter excludes *)
(* ===================================================================== *)

Module BuildFilter.
Import LibBuild.

Lemma starts_with_spec p s :
  starts_with p s = true <-> exists rest, s = p +:+ rest.
Proof.
  revert s. induction p as [|a p IH]; intros s.
  - split; [|done]. intros _. by exists s.
  - destruct s as [|b s]; cbn [starts_with].
    + split; [done|]. by intros [rest [=]].
    + rewrite andb_true_iff, IH, Ascii.eqb_eq. split.
      * intros [-> [rest ->]]. by exists rest.
      * intros [rest Hs]. rewrite JsonTheory.append_cons in Hs.
        injection Hs as -> ->. split; [done|]. by exists rest.
Qed.

Lemma strip_slash_app s : strip_slash (s +:+ "/") = s.
Proof.
  induction s as [|c s IH]; [done|].
  rewrite JsonTheory.append_cons. cbn [strip_slash]. rewrite IH.
  by destruct (s +:+ "/") eqn:Hs; [destruct s|].
Qed.

Lemma strip_slash_id pattern :
  (forall shorter, pattern <> shorter +:+ "/") -> strip_slash pattern = pattern.
Proof.
  induction pattern as [|c pattern IH]; [done|]. intros Hend.
  cbn [strip_slash]. destruct pattern as [|c' pattern].
  - destruct (Ascii.eqb_spec c "/") as [->|]; [|done].
    by destruct (Hend "").
  - rewrite IH; [done|]. intros shorter Hs.
    apply (Hend (String c shorter)). by rewrite Hs.
Qed.

(** X20. The copy filter of [buildImage] excludes by string prefix. A
    path is excluded exactly when it begins with one of the patterns,
    taken without one final slash; so everything below an excluded
    directory is excluded, but so is every path that merely continues the
    name (the pattern [.git/] also excludes [.github]); a pattern with
    and without its final slash excludes the same paths; and an empty
    pattern or the pattern [/] excludes every path. *)
Theorem exclusion_is_by_prefix (exclude : list string) :
  (forall path, is_excluded exclude path = true <->
     exists pattern rest,
       pattern ∈ exclude /\ path = strip_slash pattern +:+ rest)
  /\ (forall path more, is_excluded exclude path = true ->
        is_excluded exclude (path +:+ more) = true)
  /\ (forall pattern path,
        (forall shorter, pattern <> shorter +:+ "/") ->
        is_excluded ((pattern +:+ "/") :: exclude) path
        = is_excluded (pattern :: exclude) path)
  /\ ("" ∈ exclude \/ "/" ∈ exclude -> forall path, is_excluded exclude path = true).
Proof.
  assert (forall path, is_excluded exclude path = true <->
     exists pattern rest,
       pattern ∈ exclude /\ path = strip_slash pattern +:+ rest) as Hspec.
  { intros path. unfold is_excluded. rewrite existsb_exists. split.
    - intros (pattern & Hin%list_elem_of_In & [rest ->]%starts_with_spec).
      by exists pattern, rest.
    - intros (pattern & rest & Hin%list_elem_of_In & ->).
      exists pattern. split; [done|]. apply starts_with_spec. by exists rest. }
  split_and!.
  - done.
  - intros path more (pattern & rest & Hin & ->)%Hspec. apply Hspec.
    exists pattern, (rest +:+ more). by rewrite JsonTheory.append_assoc.
  - intros pattern path Hend.
    unfold is_excluded. cbn [existsb].
    by rewrite strip_slash_app, (strip_slash_id pattern Hend).
  - intros Hin path. apply Hspec.
    destruct Hin as [Hin|Hin]; [by exists "", path | by exists "/", path].
Qed.

End BuildFilter.
